(** * IP extraction from log files: a shallow embedding of [src/main.py]

    The development follows the source file top to bottom:
    - [Py]         the fragments of the Python runtime the program relies on
                   (bytes, str, exceptions, UTF-8 decoding, [sorted], logging);
    - [Re]         the backtracking regular-expression engine behind
                   [re.compile] / [findall], for the operators that occur in
                   [IP_PATTERN];
    - [Ipaddress]  the standard library's [ipaddress] module as far as
                   [validate_ip] uses it;
    - [Os]         the file system and the worker pool seen by one run;
    - [IPExtractor] the class of [src/main.py] itself;
    - [Process]    the state of the running process: the root logger,
                   standard output, and the MongoDB server it talks to;
    - [Pymongo]    the calls of the driver that the program makes;
    - [Main]       the module-level functions [connect_to_mongodb] and
                   [main], and the loop of the script.
    The theorems about the program come after the definitions. *)

From Stdlib Require Import ZArith NArith Lia.
From Stdlib Require Import Strings.String Strings.Ascii Strings.Byte.
From stdpp Require Import base option list gmap sets fin_sets sorting.
From Stdlib Require Import DecimalString.
From stdpp Require Import strings.

Local Open Scope Z_scope.

(* ===================================================================== *)
(** ** Python runtime *)
(* ===================================================================== *)
Module Py.

(** [bytes] objects are sequences of octets; [str] objects are sequences of
    Unicode code points. *)
Abbreviation bytes := (list byte).
Abbreviation str := (list N).

Definition ord (c : byte) : N := Byte.to_N c.

(** Literals: [b "..."] is the bytes literal and [u "..."] the (ASCII) str
    literal with the same text. *)
Definition b (s : string) : bytes := list_byte_of_string s.
Definition u (s : string) : str := map ord (list_byte_of_string s).

(** Slicing [s[i:j]]. *)
Definition slice {A} (s : list A) (i j : nat) : list A := take (j - i) (drop i s).

(** *** Exceptions *)

(** The exception classes that can reach the program.  [AddressValueError]
    and [NetmaskValueError] are subclasses of [ValueError]; every class
    listed here is a subclass of [Exception].  Message texts are
    abbreviated. *)
Inductive exn :=
| ValueError (msg : string)
| AddressValueError (msg : string)
| NetmaskValueError (msg : string)
| OSError (msg : string)
| BrokenProcessPool (msg : string)
| RuntimeError (msg : string).

Definition isinstance_ValueError (e : exn) : bool :=
  match e with
  | ValueError _ | AddressValueError _ | NetmaskValueError _ => true
  | _ => false
  end.

(** [isinstance(e, (AddressValueError, NetmaskValueError))] *)
Definition isinstance_AddressOrNetmask (e : exn) : bool :=
  match e with
  | AddressValueError _ | NetmaskValueError _ => true
  | _ => false
  end.

(** [str(e)] *)
Definition exn_str (e : exn) : string :=
  match e with
  | ValueError m | AddressValueError m | NetmaskValueError m | OSError m
  | BrokenProcessPool m | RuntimeError m => m
  end.

(** A computation either returns or raises. *)
Inductive Exc (A : Type) :=
| Ret (a : A)
| Raise (e : exn).
Arguments Ret {A} a.
Arguments Raise {A} e.

Definition ebind {A B} (m : Exc A) (f : A -> Exc B) : Exc B :=
  match m with
  | Ret a => f a
  | Raise e => Raise e
  end.

(** [try: body except ValueError: handler] *)
Definition try_except_ValueError {A} (body : Exc A) (handler : Exc A) : Exc A :=
  match body with
  | Ret a => Ret a
  | Raise e => if isinstance_ValueError e then handler else Raise e
  end.

(** [try: body except (AddressValueError, NetmaskValueError): handler] *)
Definition try_except_AddressOrNetmask {A} (body : Exc A) (handler : Exc A) : Exc A :=
  match body with
  | Ret a => Ret a
  | Raise e => if isinstance_AddressOrNetmask e then handler else Raise e
  end.

(** [map(f, xs)] consumed eagerly: the first element on which [f] raises
    aborts the traversal. *)
Fixpoint emap {A B} (f : A -> Exc B) (xs : list A) : Exc (list B) :=
  match xs with
  | [] => Ret []
  | x :: xs' => ebind (f x) (fun y => ebind (emap f xs') (fun ys => Ret (y :: ys)))
  end.

(** *** Logging and the monad of a run *)

Inductive level := ERROR | INFO.
Definition log_record : Type := level * string.

(** Code that logs and may raise: the log is threaded through, also when an
    exception propagates. *)
Definition M (A : Type) : Type := list log_record -> Exc A * list log_record.

Definition ret {A} (a : A) : M A := fun l => (Ret a, l).
Definition raise {A} (e : exn) : M A := fun l => (Raise e, l).
Definition bind {A B} (m : M A) (f : A -> M B) : M B :=
  fun l => match m l with
           | (Ret a, l') => f a l'
           | (Raise e, l') => (Raise e, l')
           end.
Definition lift {A} (m : Exc A) : M A := fun l => (m, l).

(** [try: body except Exception as e: handler e] *)
Definition try_except_Exception {A} (body : M A) (handler : exn -> M A) : M A :=
  fun l => match body l with
           | (Ret a, l') => (Ret a, l')
           | (Raise e, l') => handler e l'
           end.

Definition logging_error (msg : string) : M unit :=
  fun l => (Ret tt, l ++ [(ERROR, msg)]).

Definition run {A} (m : M A) : Exc A * list log_record := m [].

(** *** [bytes.decode('utf-8', errors='ignore')] *)

Definition is_cont (c : byte) : bool := ((0x80 <=? ord c) && (ord c <=? 0xBF))%N.
Definition low6 (c : byte) : N := N.land (ord c) 0x3F.

(** The well-formed UTF-8 sequence at the head of [l], if there is one: its
    code point and its length in bytes. *)
Definition utf8_seq (l : bytes) : option (N * nat) :=
  match l with
  | [] => None
  | b0 :: t =>
    let n0 := ord b0 in
    if (n0 <? 0x80)%N then Some (n0, 1%nat)
    else if ((0xC2 <=? n0) && (n0 <=? 0xDF))%N then
      match t with
      | b1 :: _ =>
        if is_cont b1
        then Some (N.lor (N.shiftl (N.land n0 0x1F) 6) (low6 b1), 2%nat)
        else None
      | _ => None
      end
    else if ((0xE0 <=? n0) && (n0 <=? 0xEF))%N then
      match t with
      | b1 :: b2 :: _ =>
        let lo := if (n0 =? 0xE0)%N then 0xA0%N else 0x80%N in
        let hi := if (n0 =? 0xED)%N then 0x9F%N else 0xBF%N in
        if ((lo <=? ord b1) && (ord b1 <=? hi))%N && is_cont b2
        then Some (N.lor (N.shiftl (N.land n0 0x0F) 12)
                     (N.lor (N.shiftl (low6 b1) 6) (low6 b2)), 3%nat)
        else None
      | _ => None
      end
    else if ((0xF0 <=? n0) && (n0 <=? 0xF4))%N then
      match t with
      | b1 :: b2 :: b3 :: _ =>
        let lo := if (n0 =? 0xF0)%N then 0x90%N else 0x80%N in
        let hi := if (n0 =? 0xF4)%N then 0x8F%N else 0xBF%N in
        if ((lo <=? ord b1) && (ord b1 <=? hi))%N && is_cont b2 && is_cont b3
        then Some (N.lor (N.shiftl (N.land n0 0x07) 18)
                     (N.lor (N.shiftl (low6 b1) 12)
                        (N.lor (N.shiftl (low6 b2) 6) (low6 b3))), 4%nat)
        else None
      | _ => None
      end
    else None
  end.

(** With [errors='ignore'] a byte that does not start a well-formed sequence
    is dropped and decoding resumes at the next byte.  [skip] counts the
    bytes of the current sequence still to be consumed. *)
Fixpoint decode_from (skip : nat) (l : bytes) : str :=
  match l with
  | [] => []
  | _ :: t =>
    match skip with
    | S k => decode_from k t
    | O =>
      match utf8_seq l with
      | Some (cp, n) => cp :: decode_from (n - 1) t
      | None => decode_from 0 t
      end
    end
  end.

Definition decode_utf8_ignore (l : bytes) : str := decode_from 0 l.

(** *** [str] methods used by [ipaddress] *)

Definition code (c : string) : N :=
  match list_byte_of_string c with
  | x :: _ => ord x
  | [] => 0%N
  end.

(** [c in s] for a one-character [c] *)
Definition contains (c : N) (s : str) : bool := existsb (N.eqb c) s.

(** [s.split(sep)] for a one-character separator *)
Fixpoint split (sep : N) (s : str) : list str :=
  match s with
  | [] => [[]]
  | c :: t =>
    if (c =? sep)%N then [] :: split sep t
    else match split sep t with
         | g :: gs => (c :: g) :: gs
         | [] => [[c]]
         end
  end.

(** [s.partition(sep)]: the part before the first separator, whether the
    separator was found, and the part after it. *)
Fixpoint partition (sep : N) (s : str) : str * bool * str :=
  match s with
  | [] => ([], false, [])
  | c :: t =>
    if (c =? sep)%N then ([], true, t)
    else let '(h, found, r) := partition sep t in (c :: h, found, r)
  end.

Definition is_ascii_digit (c : N) : bool := ((code "0" <=? c) && (c <=? code "9"))%N.

(** [s.isascii() and s.isdigit()]; [isdigit] is false on the empty string *)
Definition isascii_isdigit (s : str) : bool :=
  negb (Nat.eqb (length s) 0) && forallb is_ascii_digit s.

(** [int(s, 10)] on a string of ASCII decimal digits *)
Definition int10 (s : str) : Z :=
  fold_left (fun acc c => 10 * acc + (Z.of_N c - Z.of_N (code "0"))) s 0.

Definition hex_value (c : N) : option Z :=
  if is_ascii_digit c then Some (Z.of_N c - Z.of_N (code "0"))
  else if ((code "a" <=? c) && (c <=? code "f"))%N then Some (Z.of_N c - Z.of_N (code "a") + 10)
  else if ((code "A" <=? c) && (c <=? code "F"))%N then Some (Z.of_N c - Z.of_N (code "A") + 10)
  else None.

(** [_HEX_DIGITS.issuperset(s)] *)
Definition all_hex (s : str) : bool := forallb (fun c => bool_decide (is_Some (hex_value c))) s.

(** [int(s, 16)] on a string of hexadecimal digits; the empty string is a
    [ValueError]. *)
Definition int16 (s : str) : Exc Z :=
  match s with
  | [] => Raise (ValueError "invalid literal for int() with base 16")
  | _ => Ret (fold_left (fun acc c => 16 * acc + default 0 (hex_value c)) s 0)
  end.

(** ['%x' % n] for [0 <= n < 65536] *)
Definition hex_digit (d : Z) : N :=
  if d <? 10 then (code "0" + Z.to_N d)%N else (code "a" + Z.to_N (d - 10))%N.
Fixpoint strip_zeros (ds : list Z) : list Z :=
  match ds with
  | d :: (_ :: _) as t => if d =? 0 then strip_zeros t else ds
  | _ => ds
  end.
Definition format_x (n : Z) : str :=
  map hex_digit
    (strip_zeros [Z.shiftr n 12; Z.land (Z.shiftr n 8) 15; Z.land (Z.shiftr n 4) 15; Z.land n 15]).

(** *** Ordering of [str] and [sorted] *)

(** [x <= y] on strings: lexicographic on code points. *)
Fixpoint str_leb (x y : str) : bool :=
  match x, y with
  | [], _ => true
  | _ :: _, [] => false
  | a :: x', c :: y' =>
    if (a <? c)%N then true
    else if (c <? a)%N then false
    else str_leb x' y'
  end.

Definition str_le (x y : str) : Prop := str_leb x y = true.
Definition str_lt (x y : str) : Prop := str_le x y /\ x <> y.

#[global] Instance str_le_dec x y : Decision (str_le x y).
Proof. unfold str_le. apply _. Defined.

(** [sorted(xs)] on a list of strings.  The order is total and antisymmetric,
    so every sorting algorithm returns the same list (see [sorted_unique]). *)
Definition sorted (xs : list str) : list str := merge_sort str_le xs.

End Py.

(* ===================================================================== *)
(** ** Regular expressions over bytes *)
(* ===================================================================== *)
Module Re.
Import Py.

(** The operators that occur in [IP_PATTERN].  [Range lo hi] is a character
    class [[lo-hi]], [Opt r] the greedy [r?], [Rep n r] the counted repeat
    [r{n}], [WordB] the assertion [\b]; groups are non-capturing. *)
Inductive regex :=
| Lit (c : byte)
| Range (lo hi : byte)
| Cat (r1 r2 : regex)
| Alt (r1 r2 : regex)
| Opt (r : regex)
| Rep (n : nat) (r : regex)
| WordB.

Definition in_range (lo hi c : byte) : bool :=
  ((ord lo <=? ord c) && (ord c <=? ord hi))%N.

(** [\w] of a bytes pattern: ASCII letters, digits and the underscore. *)
Definition is_word (c : byte) : bool :=
  in_range "a" "z" c || in_range "A" "Z" c || in_range "0" "9" c || Byte.eqb c "_".

Definition word_at (s : bytes) (i : nat) : bool :=
  match s !! i with
  | Some c => is_word c
  | None => false
  end.

(** [\b] holds at [i] when exactly one of the bytes [s[i-1]] and [s[i]] is a
    word character; outside the subject counts as a non-word character. *)
Definition at_boundary (s : bytes) (i : nat) : bool :=
  xorb (match i with O => false | S j => word_at s j end) (word_at s i).

(** Backtracking matcher in continuation-passing style: [rmatch r s i k]
    tries the ways [r] can match at position [i] of [s] in the engine's
    priority order (left alternative first, greedy option first) and returns
    the result of the first one whose end position the continuation [k]
    accepts. *)
Fixpoint rmatch (r : regex) (s : bytes) (i : nat) (k : nat -> option nat) : option nat :=
  match r with
  | Lit c =>
    match s !! i with
    | Some x => if Byte.eqb x c then k (S i) else None
    | None => None
    end
  | Range lo hi =>
    match s !! i with
    | Some x => if in_range lo hi x then k (S i) else None
    | None => None
    end
  | Cat r1 r2 => rmatch r1 s i (fun j => rmatch r2 s j k)
  | Alt r1 r2 =>
    match rmatch r1 s i k with
    | Some e => Some e
    | None => rmatch r2 s i k
    end
  | Opt r1 =>
    match rmatch r1 s i k with
    | Some e => Some e
    | None => k i
    end
  | Rep n r1 =>
    (fix rep (n : nat) (i : nat) (k : nat -> option nat) : option nat :=
       match n with
       | O => k i
       | S n' => rmatch r1 s i (fun j => rep n' j k)
       end) n i k
  | WordB => if at_boundary s i then k i else None
  end.

(** [pattern.match(s, pos)]: the end of the match that starts at [pos]. *)
Definition match_at (r : regex) (s : bytes) (pos : nat) : option nat :=
  rmatch r s pos Some.

(** The scan of [finditer]/[findall]: leftmost matches, not overlapping; after
    a match the scan resumes at its end (one further after an empty match). *)
Fixpoint scan_from (fuel : nat) (r : regex) (s : bytes) (pos : nat) : list (nat * nat) :=
  match fuel with
  | O => []
  | S fuel' =>
    if bool_decide (pos <= length s)%nat then
      match match_at r s pos with
      | Some e => (pos, e) :: scan_from fuel' r s (if (e =? pos)%nat then S pos else e)
      | None => scan_from fuel' r s (S pos)
      end
    else []
  end.

(** The spans of all matches; every step advances by at least one position,
    so [S (length s)] steps reach the end of the subject. *)
Definition finditer (r : regex) (s : bytes) : list (nat * nat) :=
  scan_from (S (length s)) r s 0.

(** [pattern.findall(s)] for a pattern without capturing groups *)
Definition findall (r : regex) (s : bytes) : list bytes :=
  map (fun '(i, e) => slice s i e) (finditer r s).

End Re.

(* ===================================================================== *)
(** ** The [ipaddress] module *)
(* ===================================================================== *)
(** The module as of CPython 3.12: an octet with a leading zero is rejected,
    an IPv6 address may carry a scope id, and the properties of an IPv6
    address are those of the address itself. *)
Module Ipaddress.
Import Py.

(** An address object holds its integer [_ip]. *)
Inductive ip_obj :=
| IPv4Address (ip : Z)
| IPv6Address (ip : Z).

Definition version (o : ip_obj) : Z :=
  match o with
  | IPv4Address _ => 4
  | IPv6Address _ => 6
  end.

Definition _ip (o : ip_obj) : Z :=
  match o with
  | IPv4Address ip | IPv6Address ip => ip
  end.

Record ip_net := {
  net_version : Z;
  network_address : Z;
  netmask : Z
}.

Definition IPV4_ALL_ONES : Z := 2 ^ 32 - 1.
Definition IPV6_ALL_ONES : Z := 2 ^ 128 - 1.

(** [_ip_int_from_prefix] *)
Definition ip_int_from_prefix (all_ones prefixlen : Z) : Z :=
  Z.lxor all_ones (Z.shiftr all_ones prefixlen).

Definition IPv6Network (address prefixlen : Z) : ip_net :=
  {| net_version := 6; network_address := address;
     netmask := ip_int_from_prefix IPV6_ALL_ONES prefixlen |}.

(** [IPv4Address._parse_octet] *)
Definition _parse_octet (octet_str : str) : Exc Z :=
  if bool_decide (octet_str = []) then Raise (ValueError "Empty octet not permitted")
  else if negb (isascii_isdigit octet_str)
  then Raise (ValueError "Only decimal digits permitted")
  else if (3 <? length octet_str)%nat
  then Raise (ValueError "At most 3 characters permitted")
  else if negb (bool_decide (octet_str = u "0")) && bool_decide (head octet_str = Some (code "0"))
  then Raise (ValueError "Leading zeros are not permitted")
  else
    let octet_int := int10 octet_str in
    if 255 <? octet_int then Raise (ValueError "Octet (> 255) not permitted")
    else Ret octet_int.

(** [int.from_bytes(octets, 'big')] *)
Definition int_from_bytes_big (octets : list Z) : Z :=
  fold_left (fun acc o => Z.lor (Z.shiftl acc 8) o) octets 0.

(** [IPv4Address._ip_int_from_string] *)
Definition ipv4_int_from_string (ip_str : str) : Exc Z :=
  if bool_decide (ip_str = []) then Raise (AddressValueError "Address cannot be empty")
  else
    let octets := split (code ".") ip_str in
    if negb (length octets =? 4)%nat then Raise (AddressValueError "Expected 4 octets")
    else
      match emap _parse_octet octets with
      | Ret os => Ret (int_from_bytes_big os)
      | Raise e =>
        if isinstance_ValueError e then Raise (AddressValueError (exn_str e)) else Raise e
      end.

(** [IPv4Address(address)] for a [str] argument *)
Definition IPv4Address_of_str (address : str) : Exc ip_obj :=
  if contains (code "/") address then Raise (AddressValueError "Unexpected '/'")
  else ebind (ipv4_int_from_string address) (fun ip => Ret (IPv4Address ip)).

(** [IPv6Address._parse_hextet] *)
Definition _parse_hextet (hextet_str : str) : Exc Z :=
  if negb (all_hex hextet_str) then Raise (ValueError "Only hex digits permitted")
  else if (4 <? length hextet_str)%nat then Raise (ValueError "At most 4 characters permitted")
  else int16 hextet_str.

Definition hextets_from (acc : Z) (parts : list str) : Exc Z :=
  ebind (emap _parse_hextet parts)
        (fun hs => Ret (fold_left (fun a h => Z.lor (Z.shiftl a 16) h) hs acc)).

(** The loop that looks for the [::] of an abbreviated address: the index of
    the one empty part strictly inside [parts], or an error if there are
    several. *)
Fixpoint find_skip (parts : list str) (i last : nat) (skip_index : option nat)
  : Exc (option nat) :=
  match parts with
  | [] => Ret skip_index
  | p :: ps =>
    if bool_decide (1 <= i < last)%nat && bool_decide (p = []) then
      match skip_index with
      | Some _ => Raise (AddressValueError "At most one '::' permitted")
      | None => find_skip ps (S i) last (Some i)
      end
    else find_skip ps (S i) last skip_index
  end.

(** [IPv6Address._ip_int_from_string] *)
Definition ipv6_int_from_string (ip_str : str) : Exc Z :=
  if bool_decide (ip_str = []) then Raise (AddressValueError "Address cannot be empty")
  else
    let parts := split (code ":") ip_str in
    if (length parts <? 3)%nat then Raise (AddressValueError "At least 3 parts expected")
    else
      ebind
        (if contains (code ".") (List.last parts [])
         then
           match IPv4Address_of_str (List.last parts []) with
           | Ret o =>
             Ret (removelast parts ++
                  [format_x (Z.land (Z.shiftr (_ip o) 16) 0xFFFF);
                   format_x (Z.land (_ip o) 0xFFFF)])
           | Raise e => Raise e
           end
         else Ret parts)
        (fun parts =>
      let n := length parts in
      if (9 <? n)%nat then Raise (AddressValueError "At most 8 colons permitted")
      else
        ebind (find_skip parts 0 (n - 1) None) (fun skip_index =>
        let first_empty := bool_decide (head parts = Some []) in
        let last_empty := bool_decide (List.last parts [] = []) in
        ebind
          (match skip_index with
           | Some si =>
             let parts_hi := si in
             let parts_lo := (n - si - 1)%nat in
             ebind (if first_empty
                    then if negb (parts_hi - 1 =? 0)%nat
                         then Raise (AddressValueError "Leading ':' only permitted as part of '::'")
                         else Ret (parts_hi - 1)%nat
                    else Ret parts_hi) (fun parts_hi =>
             ebind (if last_empty
                    then if negb (parts_lo - 1 =? 0)%nat
                         then Raise (AddressValueError "Trailing ':' only permitted as part of '::'")
                         else Ret (parts_lo - 1)%nat
                    else Ret parts_lo) (fun parts_lo =>
             if (8 - (Z.of_nat parts_hi + Z.of_nat parts_lo) <? 1)
             then Raise (AddressValueError "Expected at most 7 other parts with '::'")
             else Ret (parts_hi, parts_lo, (8 - (parts_hi + parts_lo))%nat)))
           | None =>
             if negb (n =? 8)%nat then Raise (AddressValueError "Exactly 8 parts expected without '::'")
             else if first_empty then Raise (AddressValueError "Leading ':' only permitted as part of '::'")
             else if last_empty then Raise (AddressValueError "Trailing ':' only permitted as part of '::'")
             else Ret (n, 0%nat, 0%nat)
           end)
          (fun '(parts_hi, parts_lo, parts_skipped) =>
             match
               ebind (hextets_from 0 (take parts_hi parts)) (fun hi =>
               hextets_from (Z.shiftl hi (16 * Z.of_nat parts_skipped))
                            (drop (n - parts_lo) parts))
             with
             | Ret ip => Ret ip
             | Raise e =>
               if isinstance_ValueError e then Raise (AddressValueError (exn_str e)) else Raise e
             end))).

(** [IPv6Address._split_scope_id] *)
Definition _split_scope_id (ip_str : str) : Exc str :=
  let '(addr, sep, scope_id) := partition (code "%") ip_str in
  if negb sep then Ret addr
  else if bool_decide (scope_id = []) || contains (code "%") scope_id
  then Raise (AddressValueError "Invalid IPv6 address")
  else Ret addr.

(** [IPv6Address(address)] for a [str] argument *)
Definition IPv6Address_of_str (address : str) : Exc ip_obj :=
  if contains (code "/") address then Raise (AddressValueError "Unexpected '/'")
  else ebind (_split_scope_id address) (fun addr_str =>
       ebind (ipv6_int_from_string addr_str) (fun ip => Ret (IPv6Address ip))).

(** [ipaddress.ip_address(address)]: an [IPv4Address] if the string is one,
    otherwise an [IPv6Address], otherwise [ValueError]. *)
Definition ip_address (address : str) : Exc ip_obj :=
  try_except_AddressOrNetmask (IPv4Address_of_str address)
    (try_except_AddressOrNetmask (IPv6Address_of_str address)
       (Raise (ValueError "does not appear to be an IPv4 or IPv6 address"))).

(** [ipaddress.ip_network(address)] for an IPv4 network ["a.b.c.d/len"] with
    a decimal prefix length; host bits must be clear. *)
Definition ip_network (address : str) : Exc ip_net :=
  let '(addr, sep, prefix) := partition (code "/") address in
  ebind (ipv4_int_from_string addr) (fun ip =>
  ebind (if negb sep then Ret 32
         else if isascii_isdigit prefix && (int10 prefix <=? 32) then Ret (int10 prefix)
         else Raise (NetmaskValueError "is not a valid netmask")) (fun prefixlen =>
  let mask := ip_int_from_prefix IPV4_ALL_ONES prefixlen in
  if negb (Z.land ip mask =? ip) then Raise (ValueError "has host bits set")
  else Ret {| net_version := 4; network_address := ip; netmask := mask |})).

(** [obj in net] ([_BaseNetwork.__contains__]): false across versions. *)
Definition net_contains (net : ip_net) (o : ip_obj) : bool :=
  if negb (net_version net =? version o) then false
  else Z.land (_ip o) (netmask net) =? network_address net.

(** The constants behind the address properties. *)
Definition ipv4 (a b c d : Z) : Z := int_from_bytes_big [a; b; c; d].

Definition IPV4_MULTICAST_NETWORK : ip_net :=
  {| net_version := 4; network_address := ipv4 224 0 0 0;
     netmask := ip_int_from_prefix IPV4_ALL_ONES 4 |}.
Definition IPV4_RESERVED_NETWORK : ip_net :=
  {| net_version := 4; network_address := ipv4 240 0 0 0;
     netmask := ip_int_from_prefix IPV4_ALL_ONES 4 |}.

Definition hextet0 (h : Z) : Z := Z.shiftl h 112.

Definition IPV6_MULTICAST_NETWORK : ip_net := IPv6Network (hextet0 0xff00) 8.
Definition IPV6_RESERVED_NETWORKS : list ip_net :=
  [ IPv6Network 0 8; IPv6Network (hextet0 0x100) 8; IPv6Network (hextet0 0x200) 7;
    IPv6Network (hextet0 0x400) 6; IPv6Network (hextet0 0x800) 5;
    IPv6Network (hextet0 0x1000) 4; IPv6Network (hextet0 0x4000) 3;
    IPv6Network (hextet0 0x6000) 3; IPv6Network (hextet0 0x8000) 3;
    IPv6Network (hextet0 0xA000) 3; IPv6Network (hextet0 0xC000) 3;
    IPv6Network (hextet0 0xE000) 4; IPv6Network (hextet0 0xF000) 5;
    IPv6Network (hextet0 0xF800) 6; IPv6Network (hextet0 0xFE00) 9 ].

Definition is_unspecified (o : ip_obj) : bool := _ip o =? 0.

Definition is_reserved (o : ip_obj) : bool :=
  match o with
  | IPv4Address _ => net_contains IPV4_RESERVED_NETWORK o
  | IPv6Address _ => existsb (fun net => net_contains net o) IPV6_RESERVED_NETWORKS
  end.

Definition is_multicast (o : ip_obj) : bool :=
  match o with
  | IPv4Address _ => net_contains IPV4_MULTICAST_NETWORK o
  | IPv6Address _ => net_contains IPV6_MULTICAST_NETWORK o
  end.

End Ipaddress.

(* ===================================================================== *)
(** ** The environment of a run: file system and worker pool *)
(* ===================================================================== *)
Module Os.
Import Py.

Definition path := string.

Inductive node :=
| RegularFile (data : bytes)
| Directory (st_size : Z).

(** What one call of [extract_ips_from_file] observes from outside: the file
    system, the faults of the I/O calls and of the workers, and the time at
    which each submitted task completes. *)
Record world := {
  fs : path -> option node;
  (** exception raised by [open(p, 'rb')], if any *)
  open_fault : path -> option exn;
  (** exception raised by the [k]-th call of [file.read], if any *)
  read_fault : nat -> option exn;
  (** exception with which the [i]-th submitted task fails, if any *)
  worker_fault : nat -> option exn;
  (** completion time of the [i]-th submitted task *)
  done_at : nat -> nat
}.

(** [os.path.isfile]: never raises. *)
Definition os_path_isfile (w : world) (p : path) : bool :=
  match fs w p with
  | Some (RegularFile _) => true
  | _ => false
  end.

(** [os.path.getsize]: [os.stat(p).st_size], an [OSError] on a missing path.
    The file system is the same for every call of one run and the size of a
    regular file is the length of its content, so the call does not raise on
    a path that [os.path.isfile] has accepted. *)
Definition os_path_getsize (w : world) (p : path) : Exc Z :=
  match fs w p with
  | Some (RegularFile data) => Ret (Z.of_nat (length data))
  | Some (Directory sz) => Ret sz
  | None => Raise (OSError "No such file or directory")
  end.

(** [open(p, 'rb')]: the file object is represented by the bytes not yet
    read. *)
Definition open_rb (w : world) (p : path) : Exc bytes :=
  match open_fault w p with
  | Some e => Raise e
  | None =>
    match fs w p with
    | Some (RegularFile data) => Ret data
    | Some (Directory _) => Raise (OSError "Is a directory")
    | None => Raise (OSError "No such file or directory")
    end
  end.

(** The largest size that fits the index type of a 64-bit platform.  The
    statements about chunk sizes stay below it: beyond it [file.read] raises
    [OverflowError], which is not modelled. *)
Definition PY_SSIZE_T_MAX : Z := 2 ^ 63 - 1.

(** What a successful [file.read(n)] returns on a regular file: the next [n]
    bytes, fewer at the end of the file; everything that is left for
    [n = -1]. *)
Definition read_bytes (file : bytes) (n : Z) : bytes :=
  if n <? 0 then file else take (Z.to_nat n) file.

(** [file.read(n)] on a file opened with ['rb']: a negative [n] other
    than [-1] is a [ValueError], raised before anything is read. *)
Definition file_read (file : bytes) (n : Z) : Exc bytes :=
  if n <? -1 then Raise (ValueError "read length must be non-negative or -1")
  else Ret (read_bytes file n).

(** [as_completed(futures)]: the futures in the order of their completion
    times (submission order among equal times). *)
Definition earlier (w : world) (f1 f2 : nat * bytes) : Prop :=
  (done_at w f1.1 <= done_at w f2.1)%nat.

#[global] Instance earlier_dec w f1 f2 : Decision (earlier w f1 f2).
Proof. unfold earlier. apply _. Defined.

Definition as_completed (w : world) (futures : list (nat * bytes)) : list (nat * bytes) :=
  merge_sort (earlier w) futures.

End Os.

(* ===================================================================== *)
(** ** [class IPExtractor] *)
(* ===================================================================== *)
Module IPExtractor.
Import Py Re Ipaddress Os.

Definition the_network (r : Exc ip_net) : ip_net :=
  match r with
  | Ret n => n
  | Raise _ => {| net_version := 4; network_address := 0; netmask := 0 |}
  end.

Definition PRIVATE_NETWORKS : list ip_net :=
  [ the_network (ip_network (u "10.0.0.0/8"));
    the_network (ip_network (u "172.16.0.0/12"));
    the_network (ip_network (u "192.168.0.0/16")) ].

(** [(?:25[0-5]|2[0-4][0-9]|[01]?[0-9][0-9]?)] *)
Definition octet : regex :=
  Alt (Cat (Lit "2") (Cat (Lit "5") (Range "0" "5")))
 (Alt (Cat (Lit "2") (Cat (Range "0" "4") (Range "0" "9")))
      (Cat (Opt (Range "0" "1")) (Cat (Range "0" "9") (Opt (Range "0" "9"))))).

(** [\b(?:octet\.){3}octet\b] *)
Definition IP_PATTERN : regex :=
  Cat WordB (Cat (Rep 3 (Cat octet (Lit "."))) (Cat octet WordB)).

Definition validate_ip (ip : str) : Exc bool :=
  try_except_ValueError
    (ebind (ip_address ip) (fun ip_obj =>
     Ret (negb (is_unspecified ip_obj || is_reserved ip_obj || is_multicast ip_obj)
          && existsb (fun network => net_contains network ip_obj) PRIVATE_NETWORKS)))
    (Ret false).

(** The candidates of a chunk: [set(ip.decode('utf-8', errors='ignore') for
    ip in IP_PATTERN.findall(chunk))]. *)
Definition candidates (chunk : bytes) : gset str :=
  list_to_set (map decode_utf8_ignore (findall IP_PATTERN chunk)).

(** One iteration of the classification loop. *)
Definition classify_step (acc : Exc (gset str * gset str)) (ip : str)
  : Exc (gset str * gset str) :=
  ebind acc (fun '(private_ips, public_ips) =>
  ebind (validate_ip ip) (fun v =>
  Ret (if v then ({[ ip ]} ∪ private_ips, public_ips)
       else (private_ips, {[ ip ]} ∪ public_ips)))).

Definition _process_chunk (chunk : bytes) : Exc (gset str * gset str) :=
  let ips := candidates chunk in
  fold_left classify_step (elements ips) (Ret (∅, ∅)).

(** The read-and-submit loop: the chunks handed to the pool, in submission
    order.  [k] counts the calls of [file.read]; a call with a bad size
    raises before the operating system is asked, otherwise it fails when the
    [k]-th read of the run does; [None] when [fuel] runs out. *)
Fixpoint read_chunks (w : world) (fuel : nat) (file : bytes) (chunk_size : Z) (k : nat)
  : option (Exc (list bytes)) :=
  match fuel with
  | O => None
  | S fuel' =>
    match file_read file chunk_size with
    | Raise e => Some (Raise e)
    | Ret chunk =>
      match read_fault w k with
      | Some e => Some (Raise e)
      | None =>
        if bool_decide (chunk = []) then Some (Ret [])
        else
          match read_chunks w fuel' (drop (length chunk) file) chunk_size (S k) with
          | Some (Ret chunks) => Some (Ret (chunk :: chunks))
          | r => r
          end
      end
    end
  end.

(** [future.result()] of the [i]-th task, which runs [_process_chunk chunk]
    in a worker. *)
Definition future_result (w : world) (future : nat * bytes) : Exc (gset str * gset str) :=
  match worker_fault w future.1 with
  | Some e => Raise e
  | None => _process_chunk future.2
  end.

(** The collection loop over [as_completed(futures)]. *)
Fixpoint collect (w : world) (futures : list (nat * bytes)) (acc : gset str * gset str)
  : Exc (gset str * gset str) :=
  match futures with
  | [] => Ret acc
  | future :: rest =>
    ebind (future_result w future) (fun '(chunk_private, chunk_public) =>
    collect w rest (acc.1 ∪ chunk_private, acc.2 ∪ chunk_public))
  end.

(** The body of the [try] block: the two accumulators when it completes. *)
Definition try_body (w : world) (file_path : path) (chunk_size : Z)
  : Exc (gset str * gset str) :=
  ebind (open_rb w file_path) (fun file =>
  match read_chunks w (S (length file)) file chunk_size 0 with
  | Some r =>
    ebind r (fun chunks =>
    let futures := imap (fun i chunk => (i, chunk)) chunks in
    collect w (as_completed w futures) (∅, ∅))
  | None => Raise (RuntimeError "read loop did not terminate")
  end).

Definition DEFAULT_CHUNK_SIZE : Z := 1024 * 1024.

Definition extract_ips_from_file (w : world) (file_path : path) (chunk_size : Z)
  : M (list str * list str) :=
  bind (if negb (os_path_isfile w file_path) then ret true
        else bind (lift (os_path_getsize w file_path)) (fun size => ret (size =? 0)))
       (fun invalid =>
  if invalid : bool then
    bind (logging_error ("Invalid file: " ++ file_path)) (fun _ => ret ([], []))
  else
    bind (try_except_Exception
            (bind (lift (try_body w file_path chunk_size)) (fun sets => ret (Some sets)))
            (fun e => bind (logging_error ("Processing error: " ++ exn_str e))
                           (fun _ => ret None)))
         (fun r =>
    match r with
    | None => ret ([], [])
    | Some (private_ips, public_ips) =>
      ret (sorted (elements private_ips), sorted (elements public_ips))
    end)).

End IPExtractor.

(* ===================================================================== *)
(** ** Specification-side notions *)
(* ===================================================================== *)
Module Spec.
Import Py Re Ipaddress Os IPExtractor.

(** *** What a pattern denotes

    [matches s r i j]: the pattern [r] can match the bytes of [s] from
    position [i] up to position [j], irrespective of the order in which the
    engine tries the alternatives. *)
Inductive matches (s : bytes) : regex -> nat -> nat -> Prop :=
| m_lit c i :
    s !! i = Some c -> matches s (Lit c) i (S i)
| m_range lo hi x i :
    s !! i = Some x -> in_range lo hi x = true -> matches s (Range lo hi) i (S i)
| m_cat r1 r2 i j k :
    matches s r1 i j -> matches s r2 j k -> matches s (Cat r1 r2) i k
| m_alt_l r1 r2 i j :
    matches s r1 i j -> matches s (Alt r1 r2) i j
| m_alt_r r1 r2 i j :
    matches s r2 i j -> matches s (Alt r1 r2) i j
| m_opt_some r i j :
    matches s r i j -> matches s (Opt r) i j
| m_opt_none r i :
    matches s (Opt r) i i
| m_rep_O r i :
    matches s (Rep 0 r) i i
| m_rep_S n r i j k :
    matches s r i j -> matches s (Rep n r) j k -> matches s (Rep (S n) r) i k
| m_wordb i :
    at_boundary s i = true -> matches s WordB i i.

Fixpoint wordb_free (r : regex) : bool :=
  match r with
  | Lit _ | Range _ _ => true
  | Cat r1 r2 | Alt r1 r2 => wordb_free r1 && wordb_free r2
  | Opt r1 | Rep _ r1 => wordb_free r1
  | WordB => false
  end.

(** [IP_PATTERN] without its two [\b]. *)
Definition ip_core : regex := Cat (Rep 3 (Cat octet (Lit "."))) octet.

(** *** The IPv4 literal grammar

    Four groups of one to three ASCII decimal digits, each of value at most
    255, separated by single dots. *)
Definition octet_group (g : str) : bool :=
  (1 <=? length g)%nat && (length g <=? 3)%nat
  && forallb is_ascii_digit g && (int10 g <=? 255).

Definition ipv4_literal (s : str) : bool :=
  match split (code ".") s with
  | [g1; g2; g3; g4] => octet_group g1 && octet_group g2 && octet_group g3 && octet_group g4
  | _ => false
  end.

(** An occurrence of a literal in a subject, delimited by word boundaries:
    the bytes next to it, where there are any, are not word characters. *)
Definition ip_at (s : bytes) (i j : nat) : Prop :=
  at_boundary s i = true /\ matches s ip_core i j /\ at_boundary s j = true.

Definition literal_at (s : bytes) (i j : nat) : Prop :=
  (i < j <= length s)%nat /\ ipv4_literal (map ord (slice s i j)) = true.

Definition word_before (s : bytes) (i : nat) : bool :=
  match i with
  | O => false
  | S i' => word_at s i'
  end.

Definition delimited_literal_at (s : bytes) (i j : nat) : Prop :=
  literal_at s i j /\ word_before s i = false /\ word_at s j = false.

(** *** Address blocks *)

(** The addresses of the block [base/len], as an interval of integers. *)
Definition in_block (base len : Z) (n : Z) : Prop :=
  base <= n < base + 2 ^ (32 - len).

Definition rfc1918 (n : Z) : Prop :=
  in_block (ipv4 10 0 0 0) 8 n \/ in_block (ipv4 172 16 0 0) 12 n
  \/ in_block (ipv4 192 168 0 0) 16 n.

Definition unspecified (n : Z) : Prop := n = 0.
Definition multicast (n : Z) : Prop := in_block (ipv4 224 0 0 0) 4 n.
Definition reserved (n : Z) : Prop := in_block (ipv4 240 0 0 0) 4 n.
Definition loopback (n : Z) : Prop := in_block (ipv4 127 0 0 0) 8 n.
Definition link_local (n : Z) : Prop := in_block (ipv4 169 254 0 0) 16 n.

(** *** Auxiliary notions for the proofs about the scanner *)

Definition is_digit (c : byte) : bool := in_range "0" "9" c.

(** The span [i, j) of [s] holds one octet of the grammar. *)
Definition octet_span (s : bytes) (i j : nat) : Prop :=
  (i < j)%nat /\ (j <= length s)%nat /\ octet_group (map ord (slice s i j)) = true.

(** The four octets of a literal and the three dots between them. *)
Definition ip_spans (s : bytes) (i a1 a2 a3 j : nat) : Prop :=
  octet_span s i a1 /\ s !! a1 = Some "."%byte /\
  octet_span s (S a1) a2 /\ s !! a2 = Some "."%byte /\
  octet_span s (S a2) a3 /\ s !! a3 = Some "."%byte /\
  octet_span s (S a3) j.

(** *** Chunk boundaries

    A span moved [n] positions to the right; a cut at position [b] is clean
    when the bytes on its two sides are not both word characters; a span
    straddles [b] when [b] lies strictly inside it. *)
Definition shift (n : nat) (sp : nat * nat) : nat * nat := ((n + sp.1)%nat, (n + sp.2)%nat).

Definition clean_cut (s : bytes) (b : nat) : bool := negb (word_before s b && word_at s b).

Definition straddles (b : nat) (sp : nat * nat) : bool := ((sp.1 <? b) && (b <? sp.2))%nat.

(** No match found in the unsplit subject straddles position [b]. *)
Definition no_straddle (s : bytes) (b : nat) : bool :=
  forallb (fun sp => negb (straddles b sp)) (finditer IP_PATTERN s).

(** No substring at all that has the shape of a literal straddles [b]. *)
Definition no_literal_straddles (s : bytes) (b : nat) : bool :=
  forallb (fun i =>
    forallb (fun j => negb (ipv4_literal (map ord (slice s i j))))
            (seq (S b) (length s - b)))
    (seq 0 b).

(** A match that touches the cut between a chunk [c] and the rest [t] of
    the subject: a match of [c] that ends with its last byte, or a match of
    [t] that starts with its first byte. *)
Definition touches_cut (c t : bytes) : bool :=
  existsb (fun i => bool_decide (match_at IP_PATTERN c i = Some (length c)))
          (seq 0 (length c))
  || bool_decide (match_at IP_PATTERN t 0 <> None).

(** The cut at [b] behind the chunk that starts at [a] does no harm: the
    bytes on its two sides are not both word characters, or no match touches
    it; and no match found in the unsplit subject straddles it. *)
Definition good_cut (s : bytes) (a b : nat) : bool :=
  (clean_cut s b || negb (touches_cut (slice s a b) (drop b s))) && no_straddle s b.

(** Reading with [chunk_size] cuts the file at the multiples of
    [chunk_size] (nowhere when it is negative). *)
Definition is_cut (chunk_size : Z) (b : nat) : bool :=
  (0 <? chunk_size) && (Z.of_nat b mod chunk_size =? 0).

Definition clean_chunking (data : bytes) (chunk_size : Z) : bool :=
  forallb (fun b => implb (is_cut chunk_size b) (good_cut data (b - Z.to_nat chunk_size) b))
          (seq 1 (length data - 1)).

(** A list of chunks all of whose cuts in the concatenation do no harm;
    [a] is the position at which the first of [chunks] starts in [s]. *)
Fixpoint good_cuts (s : bytes) (a : nat) (chunks : list bytes) : bool :=
  match chunks with
  | [] => true
  | chunk :: rest =>
    good_cut s a (a + length chunk) && good_cuts s (a + length chunk) rest
  end.

Definition clean_splitting (chunks : list bytes) : bool :=
  good_cuts (concat chunks) 0 chunks.

(** Chunk sizes that [file.read] accepts, and those with which the loop
    reads something. *)
Definition fits (chunk_size : Z) : Prop := (-1 <= chunk_size <= PY_SSIZE_T_MAX)%Z.
Definition usable (chunk_size : Z) : Prop := fits chunk_size /\ chunk_size <> 0%Z.

(** The chunks of a file read with [chunk_size] when no read fails. *)
Fixpoint blocks (fuel : nat) (file : bytes) (chunk_size : Z) : list bytes :=
  match fuel with
  | O => []
  | S fuel' =>
    let chunk := read_bytes file chunk_size in
    if bool_decide (chunk = []) then []
    else chunk :: blocks fuel' (drop (length chunk) file) chunk_size
  end.

Definition chunks_of (file : bytes) (chunk_size : Z) : list bytes :=
  blocks (S (length file)) file chunk_size.

(** *** Results of a run *)

Definition raises_only_ValueError {A} (m : Exc A) : Prop :=
  match m with
  | Ret _ => True
  | Raise e => isinstance_ValueError e = true
  end.

(** The verdict of [validate_ip] as a boolean. *)
Definition is_private (ip : str) : bool :=
  match validate_ip ip with
  | Ret v => v
  | Raise _ => false
  end.

Definition private_of (X : gset str) : gset str := filter (fun ip => is_private ip = true) X.
Definition public_of (X : gset str) : gset str := filter (fun ip => is_private ip = false) X.

(** The candidates that are to be left out of both outputs: those whose
    address is unspecified, reserved or multicast, and those that do not
    parse as an address. *)
Definition invalid (ip : str) : bool :=
  match ip_address ip with
  | Ret o => is_unspecified o || is_reserved o || is_multicast o
  | Raise _ => true
  end.

Definition invalid_of (X : gset str) : gset str := filter (fun ip => invalid ip = true) X.

(** The candidates found by scanning every chunk on its own. *)
Definition all_candidates (chunks : list bytes) : gset str := ⋃ (candidates <$> chunks).

(** The update of the two accumulators by one chunk's result. *)
Definition merge (a c : gset str * gset str) : gset str * gset str := (a.1 ∪ c.1, a.2 ∪ c.2).

Definition result_of (X : gset str) : list str * list str :=
  (sorted (elements (private_of X)), sorted (elements (public_of X))).

(** The chunks a run reads and submits (none if opening or reading fails). *)
Definition chunks_read (w : world) (file_path : path) (chunk_size : Z) : list bytes :=
  match open_rb w file_path with
  | Ret file =>
    match read_chunks w (S (length file)) file chunk_size 0 with
    | Some (Ret chunks) => chunks
    | _ => []
    end
  | Raise _ => []
  end.

Definition invalid_file_outcome (p : path) : Exc (list str * list str) * list log_record :=
  (Ret ([], []), [(ERROR, ("Invalid file: " ++ p)%string)]).

Definition processing_error_outcome (e : exn) : Exc (list str * list str) * list log_record :=
  (Ret ([], []), [(ERROR, ("Processing error: " ++ exn_str e)%string)]).

(** *** Example worlds *)

Definition LOG_FILE : path := "data/access.log"%string.

(** A world whose only file is [LOG_FILE] with content [data], in which
    nothing fails and the [i]-th task completes at time [order i]. *)
Definition world_of (data : bytes) (order : nat -> nat) : world :=
  {| fs := fun p => if String.eqb p LOG_FILE then Some (RegularFile data) else None;
     open_fault := fun _ => None;
     read_fault := fun _ => None;
     worker_fault := fun _ => None;
     done_at := order |}.

Definition in_order : nat -> nat := fun i => i.
Definition reversed : nat -> nat := fun i => (100 - i)%nat.

(** The same world in which the [k]-th call of [file.read] fails with [e]. *)
Definition with_read_fault (w : world) (k : nat) (e : exn) : world :=
  {| fs := fs w; open_fault := open_fault w;
     read_fault := fun j => if (j =? k)%nat then Some e else read_fault w j;
     worker_fault := worker_fault w; done_at := done_at w |}.

(** A run in which no call fails. *)
Definition no_fault (w : world) (p : path) : Prop :=
  open_fault w p = None /\ (forall k, read_fault w k = None) /\
  (forall i, worker_fault w i = None).

(** The same world in which the [i]-th worker fails with [e]. *)
Definition with_worker_fault (w : world) (i : nat) (e : exn) : world :=
  {| fs := fs w; open_fault := open_fault w; read_fault := read_fault w;
     worker_fault := fun k => if (k =? i)%nat then Some e else worker_fault w k;
     done_at := done_at w |}.

End Spec.

(* ===================================================================== *)
(** ** The process around the extractor: logging, standard output, MongoDB *)
(* ===================================================================== *)
Module Process.
Import Py.

(** *** Exceptions

    Besides the exceptions of the extractor, [main] can meet those of the
    driver ([pymongo.errors.PyMongoError] and its subclasses), the
    [TypeError] with which [insert_many] refuses an empty list, and the
    [AttributeError] of a method call on [None].  Every class is a subclass
    of [Exception]. *)
Inductive error :=
| Builtin (e : exn)
| PyMongoError (msg : string)
| TypeError (msg : string)
| AttributeError (msg : string).

(** [str(e)] *)
Definition error_str (e : error) : string :=
  match e with
  | Builtin e => exn_str e
  | PyMongoError m | TypeError m | AttributeError m => m
  end.

(** *** Documents and the server *)

Inductive value :=
| VStr (s : str)
| VObjectId (oid : N).

#[global] Instance value_eq_dec : EqDecision value.
Proof. solve_decision. Defined.

(** A document is a dict from field names to values; a collection is named
    by its database and its own name and holds its documents in insertion
    order.  A collection that was never written to is absent. *)
Abbreviation document := (gmap string value).
Abbreviation namespace := (string * string)%type.
Abbreviation server := (gmap namespace (list document)).

(** *** The state of the process and of the server

    [log] holds the records the root logger has emitted; [root_handlers]
    tells whether the root logger has a handler yet, [root_level] and
    [root_format] are its level and the format of its handler.  [clients]
    has one entry per [MongoClient] created so far, [true] while it has not
    been closed.  [next_oid] numbers the [ObjectId]s the driver generates and
    [slept] adds up the seconds spent in [time.sleep]. *)
Record state := {
  log : list log_record;
  root_handlers : bool;
  root_level : Z;
  root_format : string;
  stdout : list string;
  mongodb : server;
  clients : list bool;
  next_oid : N;
  slept : Z
}.

Definition set_log (l : list log_record) (st : state) : state :=
  {| log := l; root_handlers := root_handlers st; root_level := root_level st;
     root_format := root_format st; stdout := stdout st; mongodb := mongodb st;
     clients := clients st; next_oid := next_oid st; slept := slept st |}.

Definition set_root (handlers : bool) (lvl : Z) (fmt : string) (st : state) : state :=
  {| log := log st; root_handlers := handlers; root_level := lvl;
     root_format := fmt; stdout := stdout st; mongodb := mongodb st;
     clients := clients st; next_oid := next_oid st; slept := slept st |}.

Definition set_stdout (out : list string) (st : state) : state :=
  {| log := log st; root_handlers := root_handlers st; root_level := root_level st;
     root_format := root_format st; stdout := out; mongodb := mongodb st;
     clients := clients st; next_oid := next_oid st; slept := slept st |}.

Definition set_mongodb (s : server) (oid : N) (st : state) : state :=
  {| log := log st; root_handlers := root_handlers st; root_level := root_level st;
     root_format := root_format st; stdout := stdout st; mongodb := s;
     clients := clients st; next_oid := oid; slept := slept st |}.

Definition set_clients (cs : list bool) (st : state) : state :=
  {| log := log st; root_handlers := root_handlers st; root_level := root_level st;
     root_format := root_format st; stdout := stdout st; mongodb := mongodb st;
     clients := cs; next_oid := next_oid st; slept := slept st |}.

Definition set_slept (s : Z) (st : state) : state :=
  {| log := log st; root_handlers := root_handlers st; root_level := root_level st;
     root_format := root_format st; stdout := stdout st; mongodb := mongodb st;
     clients := clients st; next_oid := next_oid st; slept := s |}.

(** *** The monad of the program: state, and exceptions *)

Inductive Result (A : Type) :=
| Returned (a : A)
| Raised (e : error).
Arguments Returned {A} a.
Arguments Raised {A} e.

Definition Proc (A : Type) : Type := state -> Result A * state.

Definition pret {A} (a : A) : Proc A := fun st => (Returned a, st).
Definition praise {A} (e : error) : Proc A := fun st => (Raised e, st).
Definition pbind {A B} (m : Proc A) (f : A -> Proc B) : Proc B :=
  fun st => match m st with
            | (Returned a, st') => f a st'
            | (Raised e, st') => (Raised e, st')
            end.

(** [try: body except Exception as e: handler e] *)
Definition try_except {A} (body : Proc A) (handler : error -> Proc A) : Proc A :=
  fun st => match body st with
            | (Returned a, st') => (Returned a, st')
            | (Raised e, st') => handler e st'
            end.

(** Code of the extractor run inside the process: its records go to the
    root logger, which gets its default handler with the first of them if it
    had none. *)
Definition lift_M {A} (m : M A) : Proc A :=
  fun st =>
    let '(r, l) := m (log st) in
    let st' := set_root (root_handlers st || negb (length l =? length (log st))%nat)
                        (root_level st) (root_format st) (set_log l st) in
    match r with
    | Ret a => (Returned a, st')
    | Raise e => (Raised (Builtin e), st')
    end.

(** *** [logging] *)

Definition levelno (l : level) : Z :=
  match l with
  | ERROR => 40
  | INFO => 20
  end.

Definition WARNING : Z := 30.
Definition BASIC_FORMAT : string := "%(levelname)s:%(name)s:%(message)s".

(** [logging.basicConfig(level=..., format=...)]: does nothing when the root
    logger already has a handler. *)
Definition configured (lvl : option Z) (fmt : option string) (st : state) : state :=
  if root_handlers st then st
  else set_root true (default (root_level st) lvl) (default BASIC_FORMAT fmt) st.

Definition logging_basicConfig (lvl : option Z) (fmt : option string) : Proc unit :=
  fun st => (Returned tt, configured lvl fmt st).

(** The root logger emits a record when its level allows. *)
Definition emitted (l : level) (msg : string) (st : state) : state :=
  set_log (log st ++ if root_level st <=? levelno l then [(l, msg)] else []) st.

(** [logging.info] and [logging.error]: the module-level functions call
    [basicConfig()] when the root logger has no handler, then hand the record
    to the root logger. *)
Definition logging_log (l : level) (msg : string) : Proc unit :=
  fun st => (Returned tt, emitted l msg (configured None None st)).

Definition logging_info (msg : string) : Proc unit := logging_log INFO msg.
Definition logging_error (msg : string) : Proc unit := logging_log ERROR msg.

(** *** [print], [time.sleep], [len] in an f-string

    Standard output is taken to be writable and the process not to be
    interrupted: [print] and [time.sleep] do not fail. *)

Definition print (line : string) : Proc unit :=
  fun st => (Returned tt, set_stdout (stdout st ++ [line]) st).

Definition time_sleep (seconds : Z) : Proc unit :=
  fun st => (Returned tt, set_slept (slept st + seconds) st).

(** [str(n)] for a length *)
Definition str_of_nat (n : nat) : string := NilZero.string_of_uint (Nat.to_uint n).

End Process.

(* ===================================================================== *)
(** ** The driver: [pymongo] *)
(* ===================================================================== *)
Module Pymongo.
Import Py Process.

(** What the driver and the server do to one run of [main]: for each call,
    the exception it raises, if any.  A [delete_many] that raises is taken
    to have deleted nothing; an [insert_many] that raises has written the
    given number of leading documents (inserts are ordered). *)
Record driver := {
  (** [MongoClient(uri, server_api=ServerApi('1'))] *)
  client_fault : string -> option error;
  (** [client.admin.command('ping')] *)
  ping_fault : option error;
  (** [client[name]], for a database name the driver rejects *)
  database_fault : string -> option error;
  (** [db[name]], for a collection name the driver rejects *)
  collection_fault : string -> option error;
  delete_fault : namespace -> option error;
  insert_fault : namespace -> option (error * nat);
  close_fault : option error
}.

(** The objects of the driver: a client is known by its index in
    [clients], a database by its client and name, a collection by its client
    and namespace. *)
Record MongoClient_obj := { client_id : nat; client_uri : string }.
Record Database := { db_client : nat; db_name : string }.
Record Collection := { coll_client : nat; coll_ns : namespace }.

Definition MongoClient (d : driver) (uri : string) : Proc MongoClient_obj :=
  fun st =>
    match client_fault d uri with
    | Some e => (Raised e, st)
    | None => (Returned {| client_id := length (clients st); client_uri := uri |},
               set_clients (clients st ++ [true]) st)
    end.

(** [client.admin.command('ping')] *)
Definition command_ping (d : driver) (client : MongoClient_obj) : Proc unit :=
  match ping_fault d with
  | Some e => praise e
  | None => pret tt
  end.

(** [client[name]] *)
Definition client_getitem (d : driver) (client : MongoClient_obj) (name : string) : Proc Database :=
  match database_fault d name with
  | Some e => praise e
  | None => pret {| db_client := client_id client; db_name := name |}
  end.

(** [db[name]] *)
Definition database_getitem (d : driver) (db : Database) (name : string) : Proc Collection :=
  match collection_fault d name with
  | Some e => praise e
  | None => pret {| coll_client := db_client db; coll_ns := (db_name db, name) |}
  end.

(** A filter of field values selects the documents that have these values;
    the empty filter [{}] selects every document. *)
Definition selects (flt doc : document) : Prop :=
  map_Forall (fun k v => doc !! k = Some v) flt.

#[global] Instance selects_dec flt doc : Decision (selects flt doc).
Proof. unfold selects. apply _. Defined.

(** [coll.delete_many(flt)]: the number of documents deleted. *)
Definition delete_many (d : driver) (coll : Collection) (flt : document) : Proc nat :=
  fun st =>
    match delete_fault d (coll_ns coll) with
    | Some e => (Raised e, st)
    | None =>
      let docs := default [] (mongodb st !! coll_ns coll) in
      (Returned (length (filter (selects flt) docs)),
       set_mongodb (alter (filter (fun doc => ~ selects flt doc)) (coll_ns coll) (mongodb st))
                   (next_oid st) st)
    end.

(** The driver gives every document that has no [_id] a fresh [ObjectId]. *)
Fixpoint with_ids (oid : N) (docs : list document) : list document :=
  match docs with
  | [] => []
  | doc :: rest =>
    match doc !! "_id"%string with
    | Some _ => doc :: with_ids oid rest
    | None => <["_id"%string := VObjectId oid]> doc :: with_ids (oid + 1) rest
    end
  end.

Definition oids_used (docs : list document) : N :=
  N.of_nat (length (filter (fun doc => doc !! "_id"%string = None) docs)).

(** [coll.insert_many(docs)]: the ids of the documents inserted; a
    [TypeError] for an empty list. *)
Definition insert_many (d : driver) (coll : Collection) (docs : list document)
  : Proc (list (option value)) :=
  fun st =>
    if bool_decide (docs = []) then (Raised (TypeError "documents must be a non-empty list"), st)
    else
      let stored := with_ids (next_oid st) docs in
      let old := default [] (mongodb st !! coll_ns coll) in
      let oid := (next_oid st + oids_used docs)%N in
      match insert_fault d (coll_ns coll) with
      | Some (e, written) =>
        (Raised e,
         set_mongodb (if (written =? 0)%nat then mongodb st
                      else <[coll_ns coll := old ++ take written stored]> (mongodb st)) oid st)
      | None =>
        (Returned ((fun doc : document => doc !! "_id"%string) <$> stored),
         set_mongodb (<[coll_ns coll := old ++ stored]> (mongodb st)) oid st)
      end.

(** [client.close()] *)
Definition close (d : driver) (client : MongoClient_obj) : Proc unit :=
  fun st =>
    match close_fault d with
    | Some e => (Raised e, st)
    | None => (Returned tt, set_clients (<[client_id client := false]> (clients st)) st)
    end.

(** A method call [obj.attr(...)] on a value that may be [None]. *)
Definition method {A B} (obj : option A) (attr : string) (call : A -> Proc B) : Proc B :=
  match obj with
  | Some o => call o
  | None => praise (AttributeError ("'NoneType' object has no attribute '" ++ attr ++ "'"))
  end.

End Pymongo.

(* ===================================================================== *)
(** ** The module-level functions of [src/main.py] *)
(* ===================================================================== *)
Module Main.
Import Py Os IPExtractor Process Pymongo.

Definition DEFAULT_DATABASE : string := "ip_extraction".
Definition DEFAULT_PRIVATE_COLLECTION : string := "private_ips".
Definition DEFAULT_PUBLIC_COLLECTION : string := "public_ips".

Definition connect_to_mongodb (d : driver) (uri database private_collection
    public_collection : string)
  : Proc (option MongoClient_obj * option Collection * option Collection) :=
  try_except
    (pbind (MongoClient d uri) (fun client =>
     pbind (command_ping d client) (fun _ =>
     pbind (logging_info "Successfully connected to MongoDB!") (fun _ =>
     pbind (client_getitem d client database) (fun db =>
     pbind (database_getitem d db private_collection) (fun private_coll =>
     pbind (database_getitem d db public_collection) (fun public_coll =>
     pret (Some client, Some private_coll, Some public_coll))))))))
    (fun e =>
     pbind (logging_error ("Failed to connect to MongoDB: " ++ error_str e)) (fun _ =>
     pret (None, None, None))).

(** [[{'ip': ip} for ip in ips]] *)
Definition ip_documents (ips : list str) : list document :=
  (fun ip => {[ "ip"%string := VStr ip ]}) <$> ips.

Definition LOG_FORMAT : string := "%(asctime)s - %(levelname)s: %(message)s".

Definition main (w : world) (d : driver) (log_file : path) : Proc unit :=
  try_except
    (pbind (logging_basicConfig (Some (levelno INFO)) (Some LOG_FORMAT)) (fun _ =>
     let mongodb_uri := "mongodb://mongodb:27017"%string in
     pbind (connect_to_mongodb d mongodb_uri DEFAULT_DATABASE DEFAULT_PRIVATE_COLLECTION
              DEFAULT_PUBLIC_COLLECTION) (fun '(client, private_coll, public_coll) =>
     match client with
     | None =>
       pbind (logging_error "MongoDB connection failed. Exiting.") (fun _ => pret tt)
     | Some client =>
       pbind (lift_M (extract_ips_from_file w log_file DEFAULT_CHUNK_SIZE))
             (fun '(private_ips, public_ips) =>
       pbind (method private_coll "delete_many" (fun c => delete_many d c ∅)) (fun _ =>
       pbind (method public_coll "delete_many" (fun c => delete_many d c ∅)) (fun _ =>
       pbind (if bool_decide (private_ips = []) then pret tt
              else pbind (method private_coll "insert_many"
                            (fun c => insert_many d c (ip_documents private_ips)))
                         (fun _ => pret tt)) (fun _ =>
       pbind (if bool_decide (public_ips = []) then pret tt
              else pbind (method public_coll "insert_many"
                            (fun c => insert_many d c (ip_documents public_ips)))
                         (fun _ => pret tt)) (fun _ =>
       pbind (print ("Private IPs: " ++ str_of_nat (length private_ips))) (fun _ =>
       pbind (print ("Public IPs: " ++ str_of_nat (length public_ips))) (fun _ =>
       close d client)))))))
     end)))
    (fun e => logging_error ("Execution error: " ++ error_str e)).

(** One turn of the [while(True)] loop of the script. *)
Definition iteration (w : world) (d : driver) : Proc unit :=
  let log_file := "data/access.log"%string in
  pbind (print "Calling Main Function") (fun _ =>
  pbind (main w d log_file) (fun _ =>
  pbind (print "Sleeping for 10 seconds") (fun _ =>
  time_sleep 10))).

(** The first [n] turns of the loop, the [k]-th of them in the environment
    [env k]: the loop itself has no exit. *)
Fixpoint main_loop (n : nat) (env : nat -> world * driver) (k : nat) : Proc unit :=
  match n with
  | O => pret tt
  | S n' => pbind (iteration (env k).1 (env k).2) (fun _ => main_loop n' env (S k))
  end.

End Main.

(* ===================================================================== *)
(** ** Notions for the statements about [main] *)
(* ===================================================================== *)
Module MainSpec.
Import Py Os IPExtractor Spec Process Pymongo Main.

Definition MONGODB_URI : string := "mongodb://mongodb:27017".
Definition PRIVATE_NS : namespace := (DEFAULT_DATABASE, DEFAULT_PRIVATE_COLLECTION).
Definition PUBLIC_NS : namespace := (DEFAULT_DATABASE, DEFAULT_PUBLIC_COLLECTION).

(** The documents a query for everything finds in a collection, and their
    [ip] fields. *)
Definition find (s : server) (ns : namespace) : list document := default [] (s !! ns).
Definition ips_of (docs : list document) : list (option value) :=
  (fun doc : document => doc !! "ip"%string) <$> docs.
Definition stored_ips (st : state) (ns : namespace) : list (option value) :=
  ips_of (find (mongodb st) ns).

Definition as_values (ips : list str) : list (option value) := (fun ip => Some (VStr ip)) <$> ips.

(** What the extractor returns for a file, as [main] calls it. *)
Definition extracted (w : world) (log_file : path) : Exc (list str * list str) :=
  (run (extract_ips_from_file w log_file DEFAULT_CHUNK_SIZE)).1.

(** The server answers and accepts the names [main] uses. *)
Definition reachable (d : driver) : Prop :=
  client_fault d MONGODB_URI = None /\ ping_fault d = None /\
  database_fault d DEFAULT_DATABASE = None /\
  collection_fault d DEFAULT_PRIVATE_COLLECTION = None /\
  collection_fault d DEFAULT_PUBLIC_COLLECTION = None.

(** No call of the driver fails. *)
Definition healthy (d : driver) : Prop :=
  reachable d /\
  delete_fault d PRIVATE_NS = None /\ delete_fault d PUBLIC_NS = None /\
  insert_fault d PRIVATE_NS = None /\ insert_fault d PUBLIC_NS = None /\
  close_fault d = None.

(** The outcome of a computation from a state satisfies [Q]. *)
Definition wp {A} (m : Proc A) (Q : Result A -> state -> Prop) (st : state) : Prop :=
  Q (m st).1 (m st).2.

(** The root logger emits records of level [l]. *)
Definition enabled (l : level) (st : state) : Prop := root_level st <= levelno l.

(** A process that has not logged, printed or connected yet, with an empty
    server. *)
Definition fresh : state :=
  {| log := []; root_handlers := false; root_level := WARNING; root_format := BASIC_FORMAT;
     stdout := []; mongodb := ∅; clients := []; next_oid := 0; slept := 0 |}.

(** The same process in front of a server that holds [s]. *)
Definition fresh_with (s : server) : state := set_mongodb s 0 fresh.

(** A server with an address left in each of the two collections and a
    document in a third one. *)
Definition STALE : server :=
  {[ PRIVATE_NS := [ ({[ "ip"%string := VStr (u "10.9.9.9") ]} : document) ];
     PUBLIC_NS := [ ({[ "ip"%string := VStr (u "9.9.9.9") ]} : document) ];
     ("ip_extraction"%string, "notes"%string) :=
       [ ({[ "text"%string := VStr (u "keep") ]} : document) ] ]}.

(** A driver none of whose calls fails, and the same with one failing call. *)
Definition no_faults : driver :=
  {| client_fault := fun _ => None; ping_fault := None;
     database_fault := fun _ => None; collection_fault := fun _ => None;
     delete_fault := fun _ => None; insert_fault := fun _ => None;
     close_fault := None |}.

Definition ping_fails (e : error) : driver :=
  {| client_fault := fun _ => None; ping_fault := Some e;
     database_fault := fun _ => None; collection_fault := fun _ => None;
     delete_fault := fun _ => None; insert_fault := fun _ => None;
     close_fault := None |}.

Definition insert_fails (ns : namespace) (e : error) (written : nat) : driver :=
  {| client_fault := fun _ => None; ping_fault := None;
     database_fault := fun _ => None; collection_fault := fun _ => None;
     delete_fault := fun _ => None;
     insert_fault := fun ns' => if bool_decide (ns' = ns) then Some (e, written) else None;
     close_fault := None |}.

(** Environments of the loop: the server is down during the first two turns
    and answers from the third on, when the log file holds [data]. *)
Definition recovering (data : bytes) (k : nat) : world * driver :=
  if (k <? 2)%nat then (world_of [] in_order, ping_fails (PyMongoError "timed out"))
  else (world_of data in_order, no_faults).

End MainSpec.

(* ===================================================================== *)
(** ** Notions for further statements about the extractor *)
(* ===================================================================== *)
Module ExtractSpec.
Import Py Re Ipaddress Os IPExtractor Spec.

(** A group of digits with a leading zero: more than one digit, the first
    of them [0]. *)
Definition leading_zero (g : str) : bool :=
  (1 <? length g)%nat && bool_decide (head g = Some (code "0")).

Definition has_leading_zero (ip : str) : bool :=
  existsb leading_zero (split (code ".") ip).

(** The address a literal denotes when its groups are read as decimal
    numbers. *)
Definition value_of (ip : str) : Z :=
  match split (code ".") ip with
  | [g1; g2; g3; g4] => ipv4 (int10 g1) (int10 g2) (int10 g3) (int10 g4)
  | _ => 0
  end.

End ExtractSpec.

(* ===================================================================== *)
(** * Lemmas *)
(* ===================================================================== *)
Import Py Re Ipaddress Os IPExtractor Spec.
Local Open Scope nat_scope.

(** * The matcher and what patterns denote *)
Section Matcher.
Context (s : bytes).

Lemma matches_lit_inv c i j :
  matches s (Lit c) i j -> j = S i /\ s !! i = Some c.
Proof. by inversion 1. Qed.

Lemma matches_range_inv lo hi i j :
  matches s (Range lo hi) i j ->
  j = S i /\ exists x, s !! i = Some x /\ in_range lo hi x = true.
Proof. inversion 1; eauto. Qed.

Lemma matches_cat_inv r1 r2 i k :
  matches s (Cat r1 r2) i k -> exists j, matches s r1 i j /\ matches s r2 j k.
Proof. inversion 1; eauto. Qed.

Lemma matches_alt_inv r1 r2 i j :
  matches s (Alt r1 r2) i j -> matches s r1 i j \/ matches s r2 i j.
Proof. inversion 1; eauto. Qed.

Lemma matches_opt_inv r i j :
  matches s (Opt r) i j -> matches s r i j \/ j = i.
Proof. inversion 1; eauto. Qed.

Lemma matches_rep_O_inv r i j : matches s (Rep 0 r) i j -> j = i.
Proof. by inversion 1. Qed.

Lemma matches_rep_S_inv n r i k :
  matches s (Rep (S n) r) i k -> exists j, matches s r i j /\ matches s (Rep n r) j k.
Proof. inversion 1; eauto. Qed.

Lemma matches_wordb_inv i j :
  matches s WordB i j -> j = i /\ at_boundary s i = true.
Proof. by inversion 1. Qed.

Lemma rmatch_rep_O r i k : rmatch (Rep 0 r) s i k = k i.
Proof. reflexivity. Qed.

Lemma rmatch_rep_S n r i k :
  rmatch (Rep (S n) r) s i k = rmatch r s i (fun j => rmatch (Rep n r) s j k).
Proof. reflexivity. Qed.

Lemma rmatch_sound r : forall i k e,
  rmatch r s i k = Some e -> exists j, matches s r i j /\ k j = Some e.
Proof.
  induction r as [c|lo hi|r1 IH1 r2 IH2|r1 IH1 r2 IH2|r1 IH1|n r1 IH1|]; intros i k e H.
  - simpl in H. destruct (s !! i) as [x|] eqn:Hx; [|done].
    destruct (Byte.eqb x c) eqn:Hc; [|done].
    apply Byte.byte_dec_bl in Hc. subst x. exists (S i). split; [by constructor|done].
  - simpl in H. destruct (s !! i) as [x|] eqn:Hx; [|done].
    destruct (in_range lo hi x) eqn:Hc; [|done].
    exists (S i). split; [by econstructor|done].
  - simpl in H. apply IH1 in H as (j & Hj & H). apply IH2 in H as (j' & Hj' & H).
    exists j'. split; [by econstructor|done].
  - simpl in H. destruct (rmatch r1 s i k) as [e'|] eqn:H1.
    + apply IH1 in H1 as (j & Hj & H1). exists j. split; [by apply m_alt_l|congruence].
    + apply IH2 in H as (j & Hj & H). exists j. split; [by apply m_alt_r|done].
  - simpl in H. destruct (rmatch r1 s i k) as [e'|] eqn:H1.
    + apply IH1 in H1 as (j & Hj & H1). exists j. split; [by apply m_opt_some|congruence].
    + exists i. split; [apply m_opt_none|done].
  - revert i k e H. induction n as [|n IHn]; intros i k e H.
    + rewrite rmatch_rep_O in H. exists i. split; [apply m_rep_O|done].
    + rewrite rmatch_rep_S in H.
      apply IH1 in H as (j & Hj & H). apply IHn in H as (j' & Hj' & H).
      exists j'. split; [by econstructor|done].
  - simpl in H. destruct (at_boundary s i) eqn:Hb; [|done].
    exists i. split; [by constructor|done].
Qed.

Lemma rmatch_complete r : forall i k,
  rmatch r s i k = None -> forall j, matches s r i j -> k j = None.
Proof.
  induction r as [c|lo hi|r1 IH1 r2 IH2|r1 IH1 r2 IH2|r1 IH1|n r1 IH1|]; intros i k H j Hm.
  - apply matches_lit_inv in Hm as [-> Hx]. simpl in H. rewrite Hx in H.
    assert (Byte.eqb c c = true) as Hc by (by apply Byte.byte_dec_lb).
    by rewrite Hc in H.
  - apply matches_range_inv in Hm as [-> (x & Hx & Hr)]. simpl in H.
    by rewrite Hx, Hr in H.
  - apply matches_cat_inv in Hm as (m & Hm1 & Hm2). simpl in H.
    eapply IH2; [|done]. by eapply (IH1 _ _ H).
  - simpl in H. destruct (rmatch r1 s i k) eqn:H1; [done|].
    apply matches_alt_inv in Hm as [Hm|Hm]; [by eapply IH1|by eapply IH2].
  - simpl in H. destruct (rmatch r1 s i k) eqn:H1; [done|].
    apply matches_opt_inv in Hm as [Hm| ->]; [by eapply IH1|done].
  - revert i k H j Hm. induction n as [|n IHn]; intros i k H j Hm.
    + rewrite rmatch_rep_O in H. by apply matches_rep_O_inv in Hm as ->.
    + rewrite rmatch_rep_S in H. apply matches_rep_S_inv in Hm as (m & Hm1 & Hm2).
      eapply IHn; [|done]. by eapply (IH1 _ _ H).
  - apply matches_wordb_inv in Hm as [-> Hb]. simpl in H. by rewrite Hb in H.
Qed.

Lemma matches_le r i j : matches s r i j -> i <= j.
Proof. induction 1; lia. Qed.

Lemma matches_bound r i j : matches s r i j -> i <= length s -> j <= length s.
Proof.
  induction 1 as [c i Hx|lo hi x i Hx ?| | | | | | | |]; intros Hi;
    try (apply lookup_lt_Some in Hx); auto with lia.
Qed.

End Matcher.

(** * Slices and [split] *)
Section Slices.
Context {A : Type}.
Implicit Types s : list A.

Lemma slice_app_mid s i m j :
  i <= m <= j -> slice s i j = slice s i m ++ slice s m j.
Proof.
  intros [Him Hmj]. unfold slice.
  replace (j - i) with ((m - i) + (j - m)) by lia.
  rewrite <- take_take_drop. f_equal.
  rewrite drop_drop. f_equal. f_equal. lia.
Qed.

Lemma slice_one s i x : s !! i = Some x -> slice s i (S i) = [x].
Proof.
  intros Hx. unfold slice. replace (S i - i) with 1 by lia.
  by rewrite (drop_S _ _ _ Hx).
Qed.

Lemma slice_nil s i : slice s i i = [].
Proof. unfold slice. by rewrite Nat.sub_diag. Qed.

Lemma slice_length s i j : j <= length s -> length (slice s i j) = j - i.
Proof. intros Hj. unfold slice. rewrite length_take, length_drop. lia. Qed.

Lemma slice_lookup s i j k : k < j - i -> slice s i j !! k = s !! (i + k).
Proof. intros Hk. unfold slice. by rewrite lookup_take_lt, lookup_drop. Qed.

Lemma slice_app_l s1 s2 i j : j <= length s1 -> slice (s1 ++ s2) i j = slice s1 i j.
Proof.
  intros Hj. unfold slice.
  destruct (decide (i <= length s1)) as [Hi|Hi].
  - rewrite drop_app_le by done. rewrite take_app_le; [done|].
    rewrite length_drop. lia.
  - by replace (j - i) with 0 by lia.
Qed.

Lemma slice_app_r s1 s2 i j :
  slice (s1 ++ s2) (length s1 + i) (length s1 + j) = slice s2 i j.
Proof.
  unfold slice. rewrite drop_app_ge by lia.
  f_equal; [lia|]. f_equal. lia.
Qed.

End Slices.

Section Split.
Implicit Types (g u : str) (sep : N).

Lemma split_nonempty sep u : split sep u <> [].
Proof.
  destruct u as [|c u]; simpl; [done|].
  destruct (c =? sep)%N; [done|]. by destruct (split sep u).
Qed.

Lemma split_no_sep sep g : sep ∉ g -> split sep g = [g].
Proof.
  induction g as [|c g IH]; intros Hg; simpl; [done|].
  apply not_elem_of_cons in Hg as [Hc Hg].
  destruct (N.eqb_spec c sep) as [->|_]; [done|]. by rewrite IH.
Qed.

Lemma split_app sep g rest :
  sep ∉ g -> split sep (g ++ sep :: rest) = g :: split sep rest.
Proof.
  induction g as [|c g IH]; intros Hg; simpl.
  - by rewrite N.eqb_refl.
  - apply not_elem_of_cons in Hg as [Hc Hg].
    destruct (N.eqb_spec c sep) as [->|_]; [done|]. by rewrite IH.
Qed.

Lemma split_inv sep u g gs :
  split sep u = g :: gs ->
  (sep ∉ g) /\ (gs = [] /\ u = g \/ exists rest, u = g ++ sep :: rest /\ split sep rest = gs).
Proof.
  revert g gs. induction u as [|c u IH]; intros g gs H; simpl in H.
  - injection H as <- <-. split; [apply not_elem_of_nil|by left].
  - destruct (N.eqb_spec c sep) as [->|Hc].
    + injection H as <- <-. split; [apply not_elem_of_nil|]. right. by exists u.
    + destruct (split sep u) as [|g' gs'] eqn:Hs; [by apply split_nonempty in Hs|].
      injection H as <- <-. destruct (IH _ _ eq_refl) as [Hg' Hu]. split.
      * apply not_elem_of_cons. done.
      * destruct Hu as [[-> ->]|(rest & -> & Hrest)]; [by left|right].
        by exists rest.
Qed.

End Split.

(** * The structure of the matches of [IP_PATTERN] *)
Section Literals.
Context (s : bytes).



Ltac invert_matches :=
  repeat match goal with
  | H : matches _ (Cat _ _) _ _ |- _ => apply matches_cat_inv in H as (? & ? & ?)
  | H : matches _ (Alt _ _) _ _ |- _ => apply matches_alt_inv in H as [?|?]
  | H : matches _ (Opt _) _ _ |- _ => apply matches_opt_inv in H as [?|?]
  | H : matches _ (Lit _) _ _ |- _ => apply matches_lit_inv in H as [? ?]
  | H : matches _ (Range _ _) _ _ |- _ => apply matches_range_inv in H as [? (? & ? & ?)]
  | H : matches _ (Rep (S _) _) _ _ |- _ => apply matches_rep_S_inv in H as (? & ? & ?)
  | H : matches _ (Rep 0 _) _ _ |- _ => apply matches_rep_O_inv in H
  end; subst.

Lemma in_range_ord lo hi c :
  in_range lo hi c = true <-> (ord lo <= ord c <= ord hi)%N.
Proof. unfold in_range. rewrite andb_true_iff, !N.leb_le. done. Qed.

Lemma is_digit_ascii c : is_digit c = is_ascii_digit (ord c).
Proof. reflexivity. Qed.

Lemma is_digit_word c : is_digit c = true -> is_word c = true.
Proof. unfold is_word, is_digit. intros ->. by rewrite !orb_true_r. Qed.

(** The span [i, j) holds one octet of the grammar. *)

Lemma slice_two i x y :
  s !! i = Some x -> s !! S i = Some y -> slice s i (S (S i)) = [x; y].
Proof.
  intros Hx Hy. rewrite (slice_app_mid s i (S i)) by lia.
  by rewrite (slice_one _ _ _ Hx), (slice_one _ _ _ Hy).
Qed.

Lemma slice_three i x y z :
  s !! i = Some x -> s !! S i = Some y -> s !! S (S i) = Some z ->
  slice s i (S (S (S i))) = [x; y; z].
Proof.
  intros Hx Hy Hz. rewrite (slice_app_mid s i (S (S i))) by lia.
  by rewrite (slice_two _ _ _ Hx Hy), (slice_one _ _ _ Hz).
Qed.

Lemma octet_group_digits (ds : list byte) :
  Forall (fun c => is_digit c = true) ds ->
  (1 <= length ds <= 3)%nat ->
  (int10 (map ord ds) <= 255)%Z ->
  octet_group (map ord ds) = true.
Proof.
  intros Hd Hl Hv. unfold octet_group. rewrite length_map.
  rewrite !andb_true_iff, !Nat.leb_le, Z.leb_le. repeat split; [lia|lia| |done].
  apply forallb_forall. intros c Hc. apply in_map_iff in Hc as (x & <- & Hx).
  rewrite Forall_forall in Hd. rewrite <- is_digit_ascii. apply Hd.
  by apply list_elem_of_In.
Qed.

Ltac ord_consts :=
  change (ord "0"%byte) with 48%N in *; change (ord "1"%byte) with 49%N in *;
  change (ord "2"%byte) with 50%N in *; change (ord "4"%byte) with 52%N in *;
  change (ord "5"%byte) with 53%N in *; change (ord "9"%byte) with 57%N in *;
  change (ord "."%byte) with 46%N in *;
  change (code "0") with 48%N in *; change (code "9") with 57%N in *;
  change (code ".") with 46%N in *.

Lemma matches_octet_span i j : matches s octet i j -> octet_span s i j.
Proof.
  unfold octet. intros H. invert_matches;
    repeat match goal with
    | H : in_range _ _ _ = true |- _ => apply in_range_ord in H
    end;
    match goal with
    | H1 : s !! i = Some ?a, H2 : s !! S i = Some ?b, H3 : s !! S (S i) = Some ?c |- _ =>
      pose proof (lookup_lt_Some _ _ _ H3);
      split; [lia|split; [lia|]]; rewrite (slice_three _ _ _ _ H1 H2 H3)
    | H1 : s !! i = Some ?a, H2 : s !! S i = Some ?b |- _ =>
      pose proof (lookup_lt_Some _ _ _ H2);
      split; [lia|split; [lia|]]; rewrite (slice_two _ _ _ H1 H2)
    | H1 : s !! i = Some ?a |- _ =>
      pose proof (lookup_lt_Some _ _ _ H1);
      split; [lia|split; [lia|]]; rewrite (slice_one _ _ _ H1)
    end.
  all: apply octet_group_digits;
    [ repeat constructor; apply in_range_ord; ord_consts; lia
    | simpl; lia
    | unfold int10; simpl fold_left; ord_consts; lia ].
Qed.

End Literals.

Section Core.
Context (s : bytes).

Lemma matches_core_spans i j :
  matches s ip_core i j -> exists a1 a2 a3, ip_spans s i a1 a2 a3 j.
Proof.
  unfold ip_core. intros H.
  apply matches_cat_inv in H as (p & H & H4).
  apply matches_rep_S_inv in H as (p1 & H1 & H).
  apply matches_rep_S_inv in H as (p2 & H2 & H).
  apply matches_rep_S_inv in H as (p3 & H3 & H).
  apply matches_rep_O_inv in H as ->.
  apply matches_cat_inv in H1 as (a1 & H1 & D1). apply matches_lit_inv in D1 as [-> D1].
  apply matches_cat_inv in H2 as (a2 & H2 & D2). apply matches_lit_inv in D2 as [-> D2].
  apply matches_cat_inv in H3 as (a3 & H3 & D3). apply matches_lit_inv in D3 as [-> D3].
  exists a1, a2, a3. unfold ip_spans.
  pose proof (matches_octet_span s).
  split; [auto|]. split; [done|]. split; [auto|]. split; [done|].
  split; [auto|]. split; [done|]. auto.
Qed.

Lemma octet_span_digit i j p :
  octet_span s i j -> i <= p < j -> exists c, s !! p = Some c /\ is_digit c = true.
Proof.
  intros (Hij & Hj & Hg) Hp. unfold octet_group in Hg.
  rewrite !andb_true_iff in Hg. destruct Hg as [[_ Hd] _].
  rewrite forallb_forall in Hd.
  destruct (lookup_lt_is_Some_2 s p) as [c Hc]; [lia|]. exists c. split; [done|].
  rewrite is_digit_ascii. apply Hd. apply in_map. apply list_elem_of_In.
  apply list_elem_of_lookup. exists (p - i).
  rewrite slice_lookup by lia. rewrite <- Hc. f_equal. lia.
Qed.

Lemma octet_group_no_dot g : octet_group g = true -> code "." ∉ g.
Proof.
  unfold octet_group. rewrite !andb_true_iff. intros [[_ Hd] _] Hin.
  rewrite forallb_forall in Hd. apply list_elem_of_In, Hd in Hin. done.
Qed.

Lemma spans_literal i a1 a2 a3 j : ip_spans s i a1 a2 a3 j -> literal_at s i j.
Proof.
  intros ((L1 & U1 & G1) & D1 & (L2 & U2 & G2) & D2 & (L3 & U3 & G3) & D3 & (L4 & U4 & G4)).
  split; [lia|].
  rewrite (slice_app_mid s i a1 j), (slice_app_mid s a1 (S a1) j) by lia.
  rewrite (slice_app_mid s (S a1) a2 j), (slice_app_mid s a2 (S a2) j) by lia.
  rewrite (slice_app_mid s (S a2) a3 j), (slice_app_mid s a3 (S a3) j) by lia.
  rewrite (slice_one _ _ _ D1), (slice_one _ _ _ D2), (slice_one _ _ _ D3).
  rewrite !map_app. simpl map. unfold ipv4_literal.
  change (ord "."%byte) with (code "."). simpl app.
  rewrite !split_app by (by apply octet_group_no_dot).
  rewrite split_no_sep by (by apply octet_group_no_dot).
  by rewrite G1, G2, G3, G4.
Qed.

Lemma is_digit_not_dot c : is_digit c = true -> c <> "."%byte.
Proof. by intros H ->. Qed.

Lemma dot_not_digit p :
  s !! p = Some "."%byte -> forall c, s !! p = Some c -> is_digit c = false.
Proof. intros Hp c Hc. rewrite Hp in Hc. by injection Hc as <-. Qed.

Lemma octet_end_unique i j j' :
  octet_span s i j -> octet_span s i j' ->
  (forall c, s !! j = Some c -> is_digit c = false) ->
  (forall c, s !! j' = Some c -> is_digit c = false) ->
  j = j'.
Proof.
  intros H H' Hj Hj'.
  destruct (Nat.lt_total j j') as [Hlt|[->|Hlt]]; [|done|].
  - destruct (octet_span_digit i j' j H') as (c & Hc & Hd); [destruct H; lia|].
    rewrite (Hj _ Hc) in Hd. done.
  - destruct (octet_span_digit i j j' H) as (c & Hc & Hd); [destruct H'; lia|].
    rewrite (Hj' _ Hc) in Hd. done.
Qed.

Lemma spans_unique i a1 a2 a3 j b1 b2 b3 j' :
  ip_spans s i a1 a2 a3 j -> ip_spans s i b1 b2 b3 j' ->
  (forall c, s !! j = Some c -> is_digit c = false) ->
  (forall c, s !! j' = Some c -> is_digit c = false) ->
  j = j'.
Proof.
  intros (A1 & D1 & A2 & D2 & A3 & D3 & A4) (B1 & E1 & B2 & E2 & B3 & E3 & B4) Hj Hj'.
  assert (a1 = b1) as <-.
  { eapply octet_end_unique; [done|done| |]; by apply dot_not_digit. }
  assert (a2 = b2) as <-.
  { eapply octet_end_unique; [done|done| |]; by apply dot_not_digit. }
  assert (a3 = b3) as <-.
  { eapply octet_end_unique; [done|done| |]; by apply dot_not_digit. }
  by eapply octet_end_unique.
Qed.

End Core.

Section Occurrences.
Context (s : bytes).

Lemma at_boundary_eq i : at_boundary s i = xorb (word_before s i) (word_at s i).
Proof. by destruct i. Qed.

Lemma ip_pattern_iff i j : matches s IP_PATTERN i j <-> ip_at s i j.
Proof.
  unfold IP_PATTERN, ip_at, ip_core. split.
  - intros H. apply matches_cat_inv in H as (p & Hb & H).
    apply matches_wordb_inv in Hb as [-> Hb].
    apply matches_cat_inv in H as (p & H3 & H).
    apply matches_cat_inv in H as (q & H4 & He).
    apply matches_wordb_inv in He as [-> He].
    split; [done|]. split; [|done]. by econstructor.
  - intros (Hb & H & He). apply matches_cat_inv in H as (p & H3 & H4).
    econstructor; [by constructor|]. econstructor; [done|].
    econstructor; [done|]. by constructor.
Qed.

Lemma word_at_digit p c : s !! p = Some c -> is_digit c = true -> word_at s p = true.
Proof. intros Hc Hd. unfold word_at. rewrite Hc. by apply is_digit_word. Qed.

Lemma not_word_not_digit p :
  word_at s p = false -> forall c, s !! p = Some c -> is_digit c = false.
Proof.
  unfold word_at. intros Hw c Hc. rewrite Hc in Hw.
  destruct (is_digit c) eqn:Hd; [|done]. apply is_digit_word in Hd. congruence.
Qed.

Lemma spans_first_digit i a1 a2 a3 j :
  ip_spans s i a1 a2 a3 j -> word_at s i = true.
Proof.
  intros (A1 & _). destruct (octet_span_digit s i a1 i A1) as (c & Hc & Hd).
  { destruct A1; lia. }
  by eapply word_at_digit.
Qed.

Lemma spans_last_digit i a1 a2 a3 j :
  ip_spans s i a1 a2 a3 j -> word_before s j = true.
Proof.
  intros (_ & _ & _ & _ & _ & _ & A4).
  destruct (octet_span_digit s (S a3) j (j - 1) A4) as (c & Hc & Hd).
  { destruct A4; lia. }
  destruct j as [|j]; [destruct A4; lia|]. simpl.
  replace (S j - 1) with j in Hc by lia. by eapply word_at_digit.
Qed.

Lemma ip_at_delimited i j : ip_at s i j -> delimited_literal_at s i j.
Proof.
  intros (Hb & H & He). apply matches_core_spans in H as (a1 & a2 & a3 & H).
  split; [by eapply spans_literal|].
  rewrite at_boundary_eq in Hb, He.
  rewrite (spans_first_digit _ _ _ _ _ H) in Hb.
  rewrite (spans_last_digit _ _ _ _ _ H) in He.
  split; [by destruct (word_before s i)|by destruct (word_at s j)].
Qed.

Lemma ip_at_lt i j : ip_at s i j -> i < j <= length s.
Proof. intros H. by destruct (ip_at_delimited _ _ H) as [[? _] _]. Qed.

Lemma ip_at_unique i j j' : ip_at s i j -> ip_at s i j' -> j = j'.
Proof.
  intros H H'.
  destruct (ip_at_delimited _ _ H) as (_ & _ & Hj).
  destruct (ip_at_delimited _ _ H') as (_ & _ & Hj').
  destruct H as (_ & H & _), H' as (_ & H' & _).
  apply matches_core_spans in H as (a1 & a2 & a3 & H).
  apply matches_core_spans in H' as (b1 & b2 & b3 & H').
  eapply spans_unique; eauto using not_word_not_digit.
Qed.

Lemma match_at_iff i j : match_at IP_PATTERN s i = Some j <-> ip_at s i j.
Proof.
  unfold match_at. split.
  - intros H. apply rmatch_sound in H as (j' & H & [= ->]). by apply ip_pattern_iff.
  - intros H. destruct (rmatch IP_PATTERN s i Some) as [e|] eqn:He.
    + apply rmatch_sound in He as (j' & He & [= ->]). apply ip_pattern_iff in He.
      f_equal. by eapply ip_at_unique.
    + apply ip_pattern_iff in H. by apply (rmatch_complete _ _ _ _ He) in H.
Qed.

Lemma match_at_None i : match_at IP_PATTERN s i = None <-> forall j, ~ ip_at s i j.
Proof.
  split.
  - intros H j Hj. apply match_at_iff in Hj. congruence.
  - intros H. destruct (match_at IP_PATTERN s i) as [e|] eqn:He; [|done].
    apply match_at_iff in He. by apply H in He.
Qed.

End Occurrences.

(** * Matches of a subject and of its two halves *)
Section Halves.
Context (c1 c2 : bytes).
Let n := length c1.

Lemma matches_app_l r i j :
  matches c1 r i j -> wordb_free r = true -> matches (c1 ++ c2) r i j.
Proof.
  induction 1 as [c i Hx|lo hi x i Hx Hr|r1 r2 i j k _ IH1 _ IH2|r1 r2 i j _ IH
                 |r1 r2 i j _ IH|r i j _ IH|r i|r i|m r i j k _ IH1 _ IH2|i Hb];
    simpl; intros Hf; try (apply andb_true_iff in Hf as [Hf1 Hf2]).
  - constructor. by apply lookup_app_l_Some.
  - econstructor; [|done]. by apply lookup_app_l_Some.
  - econstructor; eauto.
  - apply m_alt_l; auto.
  - apply m_alt_r; auto.
  - apply m_opt_some; auto.
  - apply m_opt_none.
  - apply m_rep_O.
  - econstructor; eauto.
  - done.
Qed.

Lemma matches_app_l_inv r i j :
  matches (c1 ++ c2) r i j -> wordb_free r = true -> j <= n -> matches c1 r i j.
Proof.
  induction 1 as [c i Hx|lo hi x i Hx Hr|r1 r2 i j k H1 IH1 H2 IH2|r1 r2 i j _ IH
                 |r1 r2 i j _ IH|r i j _ IH|r i|r i|m r i j k H1 IH1 H2 IH2|i Hb];
    simpl; intros Hf Hj; try (apply andb_true_iff in Hf as [Hf1 Hf2]).
  - constructor. rewrite lookup_app_l in Hx by (unfold n in Hj; lia). done.
  - econstructor; [|done]. rewrite lookup_app_l in Hx by (unfold n in Hj; lia). done.
  - pose proof (matches_le _ _ _ _ H2). econstructor; eauto with lia.
  - apply m_alt_l; auto.
  - apply m_alt_r; auto.
  - apply m_opt_some; auto.
  - apply m_opt_none.
  - apply m_rep_O.
  - pose proof (matches_le _ _ _ _ H2). econstructor; eauto with lia.
  - done.
Qed.

Lemma matches_app_r r i j :
  matches c2 r i j -> wordb_free r = true -> matches (c1 ++ c2) r (n + i) (n + j).
Proof.
  induction 1 as [c i Hx|lo hi x i Hx Hr|r1 r2 i j k _ IH1 _ IH2|r1 r2 i j _ IH
                 |r1 r2 i j _ IH|r i j _ IH|r i|r i|m r i j k _ IH1 _ IH2|i Hb];
    simpl; intros Hf; try (apply andb_true_iff in Hf as [Hf1 Hf2]).
  - rewrite Nat.add_succ_r. constructor. by rewrite lookup_app_r, Nat.add_comm, Nat.add_sub by (unfold n; lia).
  - rewrite Nat.add_succ_r. econstructor; [|done].
    by rewrite lookup_app_r, Nat.add_comm, Nat.add_sub by (unfold n; lia).
  - econstructor; eauto.
  - apply m_alt_l; auto.
  - apply m_alt_r; auto.
  - apply m_opt_some; auto.
  - apply m_opt_none.
  - apply m_rep_O.
  - econstructor; eauto.
  - done.
Qed.

Lemma matches_app_r_inv r i j :
  matches (c1 ++ c2) r i j -> wordb_free r = true -> n <= i ->
  matches c2 r (i - n) (j - n).
Proof.
  induction 1 as [c i Hx|lo hi x i Hx Hr|r1 r2 i j k H1 IH1 H2 IH2|r1 r2 i j _ IH
                 |r1 r2 i j _ IH|r i j _ IH|r i|r i|m r i j k H1 IH1 H2 IH2|i Hb];
    simpl; intros Hf Hi; try (apply andb_true_iff in Hf as [Hf1 Hf2]).
  - rewrite Nat.sub_succ_l by done. constructor. by rewrite lookup_app_r in Hx.
  - rewrite Nat.sub_succ_l by done. econstructor; [|done]. by rewrite lookup_app_r in Hx.
  - pose proof (matches_le _ _ _ _ H1). econstructor; eauto with lia.
  - apply m_alt_l; auto.
  - apply m_alt_r; auto.
  - apply m_opt_some; auto.
  - apply m_opt_none.
  - apply m_rep_O.
  - pose proof (matches_le _ _ _ _ H1). econstructor; eauto with lia.
  - done.
Qed.

Lemma word_at_app_l p : p < n -> word_at (c1 ++ c2) p = word_at c1 p.
Proof. intros Hp. unfold word_at. by rewrite lookup_app_l. Qed.

Lemma word_at_app_r p : word_at (c1 ++ c2) (n + p) = word_at c2 p.
Proof.
  unfold word_at. by rewrite lookup_app_r, Nat.add_comm, Nat.add_sub by (unfold n; lia).
Qed.

Lemma word_at_end : word_at c1 n = false.
Proof. unfold word_at. by rewrite lookup_ge_None_2. Qed.

Lemma word_before_app_l p : p <= n -> word_before (c1 ++ c2) p = word_before c1 p.
Proof. destruct p; [done|]. intros Hp. simpl. apply word_at_app_l. lia. Qed.

Lemma word_before_app_r p : word_before (c1 ++ c2) (n + S p) = word_before c2 (S p).
Proof. rewrite Nat.add_succ_r. simpl. apply word_at_app_r. Qed.

End Halves.

Section Delimited.
Context (s : bytes).

Lemma ip_at_core i j :
  ip_at s i j <->
  matches s ip_core i j /\ word_before s i = false /\ word_at s j = false.
Proof.
  split.
  - intros H. destruct (ip_at_delimited _ _ _ H) as (_ & Hb & He).
    by destruct H as (_ & H & _).
  - intros (H & Hb & He). split; [|split; [done|]].
    + destruct (matches_core_spans _ _ _ H) as (a1 & a2 & a3 & Hs).
      rewrite at_boundary_eq, Hb, (spans_first_digit _ _ _ _ _ _ Hs). done.
    + destruct (matches_core_spans _ _ _ H) as (a1 & a2 & a3 & Hs).
      rewrite at_boundary_eq, He, (spans_last_digit _ _ _ _ _ _ Hs). done.
Qed.

Lemma ip_at_first_word i j : ip_at s i j -> word_at s i = true.
Proof.
  intros (_ & H & _). destruct (matches_core_spans _ _ _ H) as (a1 & a2 & a3 & Hs).
  by eapply spans_first_digit.
Qed.

Lemma ip_at_last_word i j : ip_at s i j -> word_before s j = true.
Proof.
  intros (_ & H & _). destruct (matches_core_spans _ _ _ H) as (a1 & a2 & a3 & Hs).
  by eapply spans_last_digit.
Qed.

End Delimited.

Section Cut.
Context (c1 c2 : bytes).
Let n := length c1.
Context (Hcut : clean_cut (c1 ++ c2) n || negb (touches_cut c1 c2) = true).

Lemma ip_core_free : wordb_free ip_core = true.
Proof. reflexivity. Qed.

(** Either the two bytes at the cut are not both word characters, or no
    occurrence of a half touches the cut. *)
Lemma cut_cases :
  (word_before (c1 ++ c2) n = false \/ word_at (c1 ++ c2) n = false) \/
  ((forall i, ~ ip_at c1 i n) /\ (forall j, ~ ip_at c2 0 j)).
Proof.
  apply orb_true_iff in Hcut as [Hc|Hc].
  - left. unfold clean_cut in Hc. by apply negb_true_iff, andb_false_iff in Hc.
  - right. apply negb_true_iff, orb_false_iff in Hc as [Hl Hr]. split.
    + intros i Hi. pose proof (ip_at_lt _ _ _ Hi) as Hlt.
      apply match_at_iff in Hi.
      assert (existsb (fun i => bool_decide (match_at IP_PATTERN c1 i = Some (length c1)))
                      (seq 0 (length c1)) = true) as Hex; [|congruence].
      apply existsb_exists. exists i. split; [apply in_seq; fold n; lia|].
      by apply bool_decide_eq_true_2.
    + intros j Hj. apply match_at_iff in Hj.
      apply bool_decide_eq_false in Hr. apply Hr. congruence.
Qed.

(** Occurrences that end before the cut are those of the first half. *)
Lemma ip_at_app_l i j : j <= n -> ip_at (c1 ++ c2) i j <-> ip_at c1 i j.
Proof.
  intros Hj. split.
  - intros H. pose proof (ip_at_lt _ _ _ H) as Hij.
    apply ip_at_core in H as (H & Hb & He). apply ip_at_core.
    split; [by apply (matches_app_l_inv c1 c2)|]. split.
    + rewrite <- (word_before_app_l c1 c2) by (fold n; lia). done.
    + destruct (decide (j = n)) as [->|Hn]; [apply word_at_end|].
      rewrite <- (word_at_app_l c1 c2) by (fold n; lia). done.
  - intros H. pose proof (ip_at_lt _ _ _ H) as Hij.
    pose proof (ip_at_last_word _ _ _ H) as Hl. pose proof H as Hip.
    apply ip_at_core in H as (H & Hb & He). apply ip_at_core.
    split; [by apply matches_app_l|]. split.
    + rewrite (word_before_app_l c1 c2) by (fold n; lia). done.
    + destruct (decide (j = n)) as [->|Hn].
      * destruct cut_cases as [[Hc|Hc]|[Hc _]]; [|done|by destruct (Hc i)].
        rewrite (word_before_app_l c1 c2) in Hc by done. congruence.
      * rewrite (word_at_app_l c1 c2) by (fold n; lia). done.
Qed.

(** Occurrences that start after the cut are those of the second half. *)
Lemma ip_at_app_r i j : ip_at (c1 ++ c2) (n + i) (n + j) <-> ip_at c2 i j.
Proof.
  split.
  - intros H. pose proof (ip_at_first_word _ _ _ H) as Hf.
    pose proof (ip_at_lt _ _ _ H) as Hij.
    apply ip_at_core in H as (H & Hb & He). apply ip_at_core.
    apply (matches_app_r_inv c1 c2) in H; [|done|fold n; lia].
    fold n in H. rewrite !(Nat.add_comm n), !Nat.add_sub in H.
    split; [done|]. split.
    + destruct i as [|i]; [done|]. by rewrite <- (word_before_app_r c1 c2).
    + by rewrite <- (word_at_app_r c1 c2).
  - intros H. pose proof (ip_at_first_word _ _ _ H) as Hf. pose proof H as Hip.
    apply ip_at_core in H as (H & Hb & He). apply ip_at_core.
    split; [by apply matches_app_r|]. split.
    + destruct i as [|i].
      * rewrite Nat.add_0_r.
        destruct cut_cases as [[Hc|Hc]|[_ Hc]]; [done| |by destruct (Hc j)].
        rewrite <- (Nat.add_0_r n), (word_at_app_r c1 c2) in Hc. congruence.
      * by rewrite (word_before_app_r c1 c2).
    + by rewrite (word_at_app_r c1 c2).
Qed.

End Cut.

(** * The scan of [finditer] *)
Section Scan.
Context (s : bytes).

Lemma scan_from_S fuel pos :
  scan_from (S fuel) IP_PATTERN s pos =
  if bool_decide (pos <= length s) then
    match match_at IP_PATTERN s pos with
    | Some e => (pos, e) :: scan_from fuel IP_PATTERN s (if e =? pos then S pos else e)
    | None => scan_from fuel IP_PATTERN s (S pos)
    end
  else [].
Proof. reflexivity. Qed.

Lemma scan_from_past fuel pos : length s < pos -> scan_from fuel IP_PATTERN s pos = [].
Proof.
  intros Hp. destruct fuel; [done|]. rewrite scan_from_S.
  by rewrite bool_decide_eq_false_2 by lia.
Qed.

(** Every step advances, so the result does not depend on the fuel once
    there is enough of it. *)
Lemma scan_from_fuel f1 : forall f2 pos,
  S (length s) <= f1 + pos -> S (length s) <= f2 + pos ->
  scan_from f1 IP_PATTERN s pos = scan_from f2 IP_PATTERN s pos.
Proof.
  induction f1 as [|f1 IH]; intros f2 pos H1 H2.
  - rewrite !scan_from_past by lia. done.
  - destruct f2 as [|f2]; [by rewrite !scan_from_past by lia|].
    rewrite !scan_from_S. case_bool_decide; [|done].
    destruct (match_at IP_PATTERN s pos) as [e|] eqn:He.
    + apply match_at_iff, ip_at_lt in He.
      rewrite (proj2 (Nat.eqb_neq e pos)) by lia. f_equal. apply IH; lia.
    + apply IH; lia.
Qed.

Lemma scan_from_sound fuel : forall pos i j,
  (i, j) ∈ scan_from fuel IP_PATTERN s pos -> ip_at s i j /\ pos <= i.
Proof.
  induction fuel as [|fuel IH]; intros pos i j H; [by apply elem_of_nil in H|].
  rewrite scan_from_S in H. case_bool_decide; [|by apply elem_of_nil in H].
  destruct (match_at IP_PATTERN s pos) as [e|] eqn:He.
  - apply match_at_iff in He. pose proof (ip_at_lt _ _ _ He).
    apply elem_of_cons in H as [[= -> ->]|H]; [done|].
    rewrite (proj2 (Nat.eqb_neq e pos)) in H by lia.
    apply IH in H as [? ?]. split; [done|lia].
  - apply IH in H as [? ?]. split; [done|lia].
Qed.

Lemma scan_from_complete fuel : forall pos i j,
  S (length s) <= fuel + pos -> pos <= i -> ip_at s i j ->
  (i, j) ∈ scan_from fuel IP_PATTERN s pos \/
  exists i' j', (i', j') ∈ scan_from fuel IP_PATTERN s pos /\ i' < i < j'.
Proof.
  induction fuel as [|fuel IH]; intros pos i j Hf Hp H.
  - apply ip_at_lt in H. lia.
  - pose proof (ip_at_lt _ _ _ H) as Hij. rewrite scan_from_S.
    rewrite bool_decide_eq_true_2 by lia.
    destruct (match_at IP_PATTERN s pos) as [e|] eqn:He.
    + apply match_at_iff in He. pose proof (ip_at_lt _ _ _ He).
      rewrite (proj2 (Nat.eqb_neq e pos)) by lia.
      destruct (decide (pos = i)) as [->|Hne].
      { left. rewrite (ip_at_unique _ _ _ _ H He). apply elem_of_cons. by left. }
      destruct (decide (i < e)) as [Hie|Hie].
      { right. exists pos, e. split; [apply elem_of_cons; by left|lia]. }
      destruct (IH e i j) as [Hin|(i' & j' & Hin & Hlt)]; [lia|lia|done| |].
      * left. apply elem_of_cons. by right.
      * right. exists i', j'. split; [apply elem_of_cons; by right|done].
    + destruct (decide (pos = i)) as [->|Hne].
      { apply match_at_iff in H. congruence. }
      destruct (IH (S pos) i j) as [Hin|(i' & j' & Hin & Hlt)]; [lia|lia|done| |].
      * by left.
      * right. by exists i', j'.
Qed.

End Scan.

Section ScanCut.
Context (c1 c2 : bytes).
Context (Hcut : clean_cut (c1 ++ c2) (length c1) || negb (touches_cut c1 c2) = true).

Lemma match_at_app_r pos :
  match_at IP_PATTERN (c1 ++ c2) ((length c1) + pos) = (fun e => (length c1) + e) <$> match_at IP_PATTERN c2 pos.
Proof.
  destruct (match_at IP_PATTERN c2 pos) as [e|] eqn:He; simpl.
  - apply match_at_iff. apply (ip_at_app_r c1 c2 Hcut). by apply match_at_iff.
  - apply match_at_None. intros j Hj. pose proof (ip_at_lt _ _ _ Hj) as Hlt.
    replace j with ((length c1) + (j - (length c1))) in Hj by lia.
    apply (ip_at_app_r c1 c2 Hcut), match_at_iff in Hj. congruence.
Qed.

Lemma scan_from_app_r fuel : forall pos,
  scan_from fuel IP_PATTERN (c1 ++ c2) ((length c1) + pos) = shift (length c1) <$> scan_from fuel IP_PATTERN c2 pos.
Proof.
  induction fuel as [|fuel IH]; intros pos; [done|].
  rewrite !scan_from_S, match_at_app_r, length_app.
  destruct (decide (pos <= length c2)) as [Hp|Hp].
  - rewrite !bool_decide_eq_true_2 by lia.
    destruct (match_at IP_PATTERN c2 pos) as [e|]; simpl.
    + change (list_fmap _ _ (shift (length c1)) ?l) with (shift (length c1) <$> l).
      f_equal. destruct (Nat.eqb_spec e pos) as [->|Hne].
      * rewrite Nat.eqb_refl, <- IH. f_equal. lia.
      * rewrite (proj2 (Nat.eqb_neq ((length c1) + e) ((length c1) + pos))) by lia. apply IH.
    + rewrite <- IH. f_equal. lia.
  - by rewrite !bool_decide_eq_false_2 by lia.
Qed.

Lemma scan_from_app_l fuel : forall pos,
  pos <= (length c1) -> S (length (c1 ++ c2)) <= fuel + pos ->
  (forall sp, sp ∈ scan_from fuel IP_PATTERN (c1 ++ c2) pos -> straddles (length c1) sp = false) ->
  scan_from fuel IP_PATTERN (c1 ++ c2) pos =
  scan_from fuel IP_PATTERN c1 pos ++ (shift (length c1) <$> finditer IP_PATTERN c2).
Proof.
  induction fuel as [|fuel IH]; intros pos Hp Hf Hs.
  - rewrite length_app in Hf. lia.
  - destruct (decide (pos = (length c1))) as [->|Hne].
    + rewrite <- (Nat.add_0_r (length c1)) at 1. rewrite scan_from_app_r.
      rewrite (scan_from_S c1). rewrite bool_decide_eq_true_2 by done.
      assert (match_at IP_PATTERN c1 (length c1) = None) as ->.
      { apply match_at_None. intros j Hj. apply ip_at_lt in Hj. lia. }
      rewrite (scan_from_past c1) by lia. rewrite app_nil_l. f_equal.
      unfold finditer. apply scan_from_fuel; rewrite length_app in Hf; lia.
    + rewrite scan_from_S in Hs. rewrite !scan_from_S.
      rewrite length_app in *.
      rewrite bool_decide_eq_true_2 in Hs by lia.
      rewrite !bool_decide_eq_true_2 by lia.
      destruct (match_at IP_PATTERN (c1 ++ c2) pos) as [e|] eqn:He.
      * apply match_at_iff in He. pose proof (ip_at_lt _ _ _ He) as Hlt.
        assert (e <= (length c1)) as Hen.
        { specialize (Hs (pos, e) ltac:(apply elem_of_cons; by left)).
          unfold straddles in Hs. simpl in Hs.
          apply andb_false_iff in Hs as [Hs|Hs]; apply Nat.ltb_ge in Hs; lia. }
        apply (ip_at_app_l c1 c2 Hcut) in He; [|done].
        apply match_at_iff in He. rewrite He.
        rewrite (proj2 (Nat.eqb_neq e pos)) in * by lia.
        simpl. f_equal. apply IH; [done|lia|].
        intros sp Hsp. apply Hs. apply elem_of_cons. by right.
      * assert (match_at IP_PATTERN c1 pos = None) as ->.
        { apply match_at_None. intros j Hj. pose proof (ip_at_lt _ _ _ Hj).
          apply (ip_at_app_l c1 c2 Hcut) in Hj; [|lia].
          apply match_at_iff in Hj. congruence. }
        apply IH; [lia|lia|done].
Qed.

(** Scanning a subject cut at a clean position that no match straddles
    gives the matches of the two halves. *)
Lemma finditer_app :
  (forall sp, sp ∈ finditer IP_PATTERN (c1 ++ c2) -> straddles (length c1) sp = false) ->
  finditer IP_PATTERN (c1 ++ c2) =
  finditer IP_PATTERN c1 ++ (shift (length c1) <$> finditer IP_PATTERN c2).
Proof.
  intros Hs. unfold finditer at 1. rewrite scan_from_app_l; [|lia|lia|done].
  f_equal. apply scan_from_fuel; rewrite ?length_app; lia.
Qed.

End ScanCut.

Section ScanOrder.
Context (s : bytes).

(** The spans come out from left to right and do not overlap. *)
Lemma scan_from_sorted fuel : forall pos,
  StronglySorted (fun sp1 sp2 : nat * nat => sp1.2 <= sp2.1) (scan_from fuel IP_PATTERN s pos).
Proof.
  induction fuel as [|fuel IH]; intros pos; [constructor|].
  rewrite scan_from_S. case_bool_decide; [|constructor].
  destruct (match_at IP_PATTERN s pos) as [e|] eqn:He; [|apply IH].
  apply match_at_iff, ip_at_lt in He.
  rewrite (proj2 (Nat.eqb_neq e pos)) by lia.
  constructor; [apply IH|]. apply Forall_forall. intros [i j] Hin.
  apply scan_from_sound in Hin as [_ Hin]. done.
Qed.

End ScanOrder.

(** * [ipaddress]: parsing raises nothing but [ValueError] *)
Section OnlyValueError.

Lemma rov_ebind {A B} (m : Exc A) (f : A -> Exc B) :
  raises_only_ValueError m -> (forall a, raises_only_ValueError (f a)) ->
  raises_only_ValueError (ebind m f).
Proof. destruct m; simpl; auto. Qed.

Lemma rov_emap {A B} (f : A -> Exc B) xs :
  (forall x, raises_only_ValueError (f x)) -> raises_only_ValueError (emap f xs).
Proof.
  intros Hf. induction xs as [|x xs IH]; simpl; [done|].
  apply rov_ebind; [done|]. intros y. apply rov_ebind; [done|]. by intros ys.
Qed.

(** Re-raising a [ValueError] as an [AddressValueError]. *)
Lemma rov_reraise {A B} (m : Exc A) (g : A -> B) :
  raises_only_ValueError m ->
  raises_only_ValueError
    (match m with
     | Ret a => Ret (g a)
     | Raise e =>
       if isinstance_ValueError e then Raise (AddressValueError (exn_str e)) else Raise e
     end).
Proof. destruct m as [a|e]; simpl; [done|]. by intros ->. Qed.

Ltac rov :=
  repeat first
    [ progress simpl raises_only_ValueError
    | done
    | apply rov_reraise
    | apply rov_ebind; [|intros ?]
    | apply rov_emap; intros ?
    | match goal with
      | |- raises_only_ValueError (if ?c then _ else _) => destruct c
      | |- raises_only_ValueError (match ?x with _ => _ end) => destruct x
      | |- raises_only_ValueError (let '(_, _) := ?p in _) => destruct p
      end ].

Lemma rov_parse_octet o : raises_only_ValueError (_parse_octet o).
Proof. unfold _parse_octet. rov. Qed.

Lemma rov_ipv4_int_from_string a : raises_only_ValueError (ipv4_int_from_string a).
Proof. unfold ipv4_int_from_string. rov. apply rov_parse_octet. Qed.

Lemma rov_IPv4Address_of_str a : raises_only_ValueError (IPv4Address_of_str a).
Proof. unfold IPv4Address_of_str. rov. apply rov_ipv4_int_from_string. Qed.

Lemma rov_parse_hextet h : raises_only_ValueError (_parse_hextet h).
Proof. unfold _parse_hextet, int16. rov. Qed.

Lemma rov_hextets_from acc ps : raises_only_ValueError (hextets_from acc ps).
Proof. unfold hextets_from. rov. apply rov_parse_hextet. Qed.

Lemma rov_find_skip ps : forall i last sk, raises_only_ValueError (find_skip ps i last sk).
Proof. induction ps as [|p ps IH]; intros i last sk; simpl; rov. Qed.

Lemma rov_ipv6_int_from_string a : raises_only_ValueError (ipv6_int_from_string a).
Proof.
  unfold ipv6_int_from_string.
  destruct (bool_decide (a = [])); [done|].
  destruct (_ <? 3)%nat; [done|].
  apply rov_ebind.
  - destruct (contains _ _); [|done].
    pose proof (rov_IPv4Address_of_str (List.last (split (code ":") a) [])) as H.
    by destruct (IPv4Address_of_str _).
  - intros parts. destruct (9 <? _)%nat; [done|].
    apply rov_ebind; [apply rov_find_skip|]. intros sk.
    apply rov_ebind.
    + destruct sk as [si|]; rov.
    + intros [[hi lo] skipped]. apply rov_reraise.
      apply rov_ebind; [apply rov_hextets_from|]. intros ?. apply rov_hextets_from.
Qed.

Lemma rov_split_scope_id a : raises_only_ValueError (_split_scope_id a).
Proof. unfold _split_scope_id. rov. Qed.

Lemma rov_IPv6Address_of_str a : raises_only_ValueError (IPv6Address_of_str a).
Proof.
  unfold IPv6Address_of_str. rov;
    [apply rov_split_scope_id|apply rov_ipv6_int_from_string].
Qed.

Lemma rov_ip_address a : raises_only_ValueError (ip_address a).
Proof.
  unfold ip_address, try_except_AddressOrNetmask.
  pose proof (rov_IPv4Address_of_str a) as H4.
  pose proof (rov_IPv6Address_of_str a) as H6.
  destruct (IPv4Address_of_str a) as [o|e]; [done|]. simpl in H4.
  destruct (isinstance_AddressOrNetmask e); [|done].
  destruct (IPv6Address_of_str a) as [o|e']; [done|]. simpl in H6.
  by destruct (isinstance_AddressOrNetmask e').
Qed.

Lemma validate_ip_is_private ip : validate_ip ip = Ret (is_private ip).
Proof.
  unfold is_private.
  assert (exists v, validate_ip ip = Ret v) as [v ->]; [|done].
  unfold validate_ip, try_except_ValueError.
  pose proof (rov_ip_address ip) as H.
  destruct (ip_address ip) as [o|e]; simpl; [by eexists|].
  simpl in H. rewrite H. by eexists.
Qed.

End OnlyValueError.

(** * [ipaddress]: the integer of an IPv4 address and network membership *)
Section Numeric.
Local Open Scope Z_scope.

Lemma int10_acc_nonneg ds : forall acc,
  forallb is_ascii_digit ds = true -> 0 <= acc ->
  0 <= fold_left (fun acc c => 10 * acc + (Z.of_N c - Z.of_N (code "0"))) ds acc.
Proof.
  induction ds as [|c ds IH]; intros acc Hd Hacc; simpl; [done|].
  simpl in Hd. apply andb_true_iff in Hd as [Hc Hd]. apply IH; [done|].
  unfold is_ascii_digit in Hc. apply andb_true_iff in Hc as [Hc _].
  apply N.leb_le in Hc. change (code "0") with 48%N in Hc. lia.
Qed.

Lemma parse_octet_range o v : _parse_octet o = Ret v -> 0 <= v <= 255.
Proof.
  unfold _parse_octet. intros H.
  repeat match type of H with
         | (if ?c then _ else _) = _ => destruct c eqn:?; [done|]
         end.
  destruct (255 <? int10 o) eqn:Hle; [done|]. injection H as <-.
  apply Z.ltb_ge in Hle. split; [|done].
  apply int10_acc_nonneg; [|done].
  unfold isascii_isdigit in *. destruct (forallb is_ascii_digit o); [done|].
  by rewrite andb_false_r in *.
Qed.

Lemma emap_Forall2 {A B} (f : A -> Exc B) xs ys :
  emap f xs = Ret ys -> Forall2 (fun x y => f x = Ret y) xs ys.
Proof.
  revert ys. induction xs as [|x xs IH]; intros ys H; simpl in H.
  - injection H as <-. constructor.
  - destruct (f x) as [y|] eqn:Hy; [|done]. simpl in H.
    destruct (emap f xs) as [ys'|]; [|done]. simpl in H. injection H as <-.
    constructor; auto.
Qed.

Lemma lor_shiftl_8 a o : 0 <= o < 256 -> Z.lor (Z.shiftl a 8) o = a * 256 + o.
Proof.
  intros Ho. rewrite Z.shiftl_mul_pow2 by lia. change (2 ^ 8) with 256.
  rewrite <- Z.add_lor_land.
  assert (Z.land (a * 256) o = 0) as ->; [|lia].
  replace o with (Z.land o (Z.ones 8)) at 1.
  2:{ rewrite Z.land_ones by lia. apply Z.mod_small. change (2 ^ 8) with 256. lia. }
  rewrite (Z.land_comm o), Z.land_assoc, Z.land_ones by lia.
  change (2 ^ 8) with 256. by rewrite Z.mod_mul.
Qed.

Lemma ipv4_value a b c d :
  0 <= a <= 255 -> 0 <= b <= 255 -> 0 <= c <= 255 -> 0 <= d <= 255 ->
  ipv4 a b c d = ((a * 256 + b) * 256 + c) * 256 + d.
Proof.
  intros. unfold ipv4, int_from_bytes_big. simpl.
  rewrite !lor_shiftl_8 by lia. lia.
Qed.

Lemma ipv4_int_range s n : ipv4_int_from_string s = Ret n -> 0 <= n < 2 ^ 32.
Proof.
  unfold ipv4_int_from_string. intros H.
  destruct (bool_decide (s = [])); [done|].
  destruct (length (split (code ".") s) =? 4)%nat eqn:Hl; [|done]. simpl in H.
  destruct (emap _parse_octet (split (code ".") s)) as [os|e] eqn:Ho.
  - injection H as <-. apply emap_Forall2 in Ho.
    apply Nat.eqb_eq in Hl. pose proof (Forall2_length _ _ _ Ho) as Hlen.
    rewrite Hl in Hlen.
    destruct os as [|a [|b [|c [|d [|]]]]]; try done.
    destruct (split (code ".") s) as [|sa [|sb [|sc [|sd [|]]]]]; try done.
    apply Forall2_cons in Ho as [Ha Ho]. apply Forall2_cons in Ho as [Hb Ho].
    apply Forall2_cons in Ho as [Hc Ho]. apply Forall2_cons in Ho as [Hd _].
    apply parse_octet_range in Ha, Hb, Hc, Hd.
    change (int_from_bytes_big [a; b; c; d]) with (ipv4 a b c d).
    rewrite ipv4_value by done. change (2 ^ 32) with 4294967296. lia.
  - by destruct (isinstance_ValueError e).
Qed.

Lemma IPv6Address_of_str_version a o :
  IPv6Address_of_str a = Ret o -> exists ip, o = IPv6Address ip.
Proof.
  unfold IPv6Address_of_str. destruct (contains _ _); [done|].
  destruct (_split_scope_id a) as [x|]; [|done]. simpl.
  destruct (ipv6_int_from_string x) as [ip|]; [|done]. simpl.
  intros [= <-]. by exists ip.
Qed.

Lemma ip_address_IPv4 s n :
  ip_address s = Ret (IPv4Address n) <-> IPv4Address_of_str s = Ret (IPv4Address n).
Proof.
  unfold ip_address, try_except_AddressOrNetmask. split.
  - destruct (IPv4Address_of_str s) as [o|e]; [done|].
    destruct (isinstance_AddressOrNetmask e); [|done].
    destruct (IPv6Address_of_str s) as [o|e'] eqn:H6.
    + apply IPv6Address_of_str_version in H6 as [ip ->]. done.
    + by destruct (isinstance_AddressOrNetmask e').
  - by intros ->.
Qed.

Lemma ip_address_range s n : ip_address s = Ret (IPv4Address n) -> 0 <= n < 2 ^ 32.
Proof.
  rewrite ip_address_IPv4. unfold IPv4Address_of_str.
  destruct (contains _ _); [done|].
  destruct (ipv4_int_from_string s) as [ip|] eqn:Hip; [|done]. simpl.
  intros [= <-]. by eapply ipv4_int_range.
Qed.

(** Masking with the netmask of a [/len] network keeps the leading [len]
    bits: the mask is [2^32 - 2^k] with [k = 32 - len]. *)
Lemma land_netmask n k mask :
  0 <= n < 2 ^ 32 -> 0 <= k ->
  mask = Z.land (Z.ones 32) (Z.lnot (Z.ones k)) ->
  Z.land n mask = n / 2 ^ k * 2 ^ k.
Proof.
  intros Hn Hk ->. rewrite Z.land_assoc, Z.land_ones by lia.
  rewrite Z.mod_small by done.
  rewrite <- Z.ldiff_land, Z.ldiff_ones_r by done.
  rewrite Z.shiftr_div_pow2, Z.shiftl_mul_pow2 by done. done.
Qed.

Lemma net_contains_block base len k n :
  0 <= n < 2 ^ 32 -> 0 <= k -> 32 - len = k ->
  ip_int_from_prefix IPV4_ALL_ONES len = Z.land (Z.ones 32) (Z.lnot (Z.ones k)) ->
  base / 2 ^ k * 2 ^ k = base ->
  net_contains {| net_version := 4; network_address := base;
                  netmask := ip_int_from_prefix IPV4_ALL_ONES len |} (IPv4Address n) = true
  <-> in_block base len n.
Proof.
  intros Hn Hk Hlen Hmask Hbase. unfold net_contains, in_block. simpl.
  rewrite (land_netmask n k) by done. rewrite Z.eqb_eq, Hlen.
  assert (0 < 2 ^ k) as Hp by (apply Z.pow_pos_nonneg; lia).
  set (p := 2 ^ k) in *. set (q := base / p) in *.
  pose proof (Z.div_mod n p ltac:(lia)) as Hdm.
  pose proof (Z.mod_pos_bound n p Hp) as Hmb.
  split.
  - intros Hq. rewrite Z.mul_comm in Hq. rewrite Hq in Hdm. lia.
  - intros Hb. assert (q = n / p) as <-; [|done].
    apply Z.div_unique with (r := n - base); [lia|].
    rewrite Z.mul_comm, Hbase. lia.
Qed.

End Numeric.

(** * Classification of a parsed IPv4 address *)
Section Classification.
Local Open Scope Z_scope.

Lemma PRIVATE_NETWORKS_eq :
  PRIVATE_NETWORKS =
  [ {| net_version := 4; network_address := ipv4 10 0 0 0;
       netmask := ip_int_from_prefix IPV4_ALL_ONES 8 |};
    {| net_version := 4; network_address := ipv4 172 16 0 0;
       netmask := ip_int_from_prefix IPV4_ALL_ONES 12 |};
    {| net_version := 4; network_address := ipv4 192 168 0 0;
       netmask := ip_int_from_prefix IPV4_ALL_ONES 16 |} ].
Proof. reflexivity. Qed.

Lemma in_private_networks n :
  0 <= n < 2 ^ 32 ->
  existsb (fun network => net_contains network (IPv4Address n)) PRIVATE_NETWORKS = true
  <-> rfc1918 n.
Proof.
  intros Hn. rewrite PRIVATE_NETWORKS_eq. simpl existsb.
  rewrite orb_false_r, !orb_true_iff. unfold rfc1918.
  rewrite (net_contains_block _ 8 24), (net_contains_block _ 12 20),
    (net_contains_block _ 16 16) by (done || lia).
  tauto.
Qed.

Lemma is_unspecified_spec n : is_unspecified (IPv4Address n) = true <-> unspecified n.
Proof. unfold is_unspecified, unspecified. simpl. apply Z.eqb_eq. Qed.

Lemma is_reserved_spec n :
  0 <= n < 2 ^ 32 -> is_reserved (IPv4Address n) = true <-> reserved n.
Proof.
  intros Hn. unfold is_reserved, reserved, IPV4_RESERVED_NETWORK.
  by rewrite (net_contains_block _ 4 28) by (done || lia).
Qed.

Lemma is_multicast_spec n :
  0 <= n < 2 ^ 32 -> is_multicast (IPv4Address n) = true <-> multicast n.
Proof.
  intros Hn. unfold is_multicast, multicast, IPV4_MULTICAST_NETWORK.
  by rewrite (net_contains_block _ 4 28) by (done || lia).
Qed.

Lemma is_private_IPv4 ip n :
  ip_address ip = Ret (IPv4Address n) ->
  is_private ip =
  negb (is_unspecified (IPv4Address n) || is_reserved (IPv4Address n)
        || is_multicast (IPv4Address n))
  && existsb (fun network => net_contains network (IPv4Address n)) PRIVATE_NETWORKS.
Proof. intros H. unfold is_private, validate_ip. by rewrite H. Qed.

Lemma is_private_rfc1918 ip n :
  ip_address ip = Ret (IPv4Address n) ->
  ~ unspecified n -> ~ reserved n -> ~ multicast n ->
  is_private ip = true <-> rfc1918 n.
Proof.
  intros H Hu Hr Hm. pose proof (ip_address_range _ _ H) as Hn.
  rewrite (is_private_IPv4 _ _ H), andb_true_iff, negb_true_iff.
  rewrite in_private_networks by done.
  rewrite <- is_unspecified_spec in Hu. rewrite <- is_reserved_spec in Hr by done.
  rewrite <- is_multicast_spec in Hm by done.
  destruct (is_unspecified _), (is_reserved _), (is_multicast _); simpl; tauto.
Qed.

Lemma blocks_apart n :
  (loopback n \/ link_local n) ->
  ~ unspecified n /\ ~ reserved n /\ ~ multicast n /\ ~ rfc1918 n.
Proof.
  unfold loopback, link_local, unspecified, reserved, multicast, rfc1918, in_block.
  change (ipv4 127 0 0 0) with 2130706432. change (ipv4 169 254 0 0) with 2851995648.
  change (ipv4 240 0 0 0) with 4026531840. change (ipv4 224 0 0 0) with 3758096384.
  change (ipv4 10 0 0 0) with 167772160. change (ipv4 172 16 0 0) with 2886729728.
  change (ipv4 192 168 0 0) with 3232235520.
  change (2 ^ (32 - 8)) with 16777216. change (2 ^ (32 - 16)) with 65536.
  change (2 ^ (32 - 4)) with 268435456. change (2 ^ (32 - 12)) with 1048576.
  lia.
Qed.

End Classification.

(** * Candidates and the sets of a chunk *)
Section Chunk.
Local Open Scope nat_scope.

Lemma decode_ascii t :
  Forall (fun c => (ord c < 128)%N) t -> decode_utf8_ignore t = map ord t.
Proof.
  unfold decode_utf8_ignore. induction 1 as [|c t Hc _ IH]; [done|].
  simpl. apply N.ltb_lt in Hc. rewrite Hc. simpl. by rewrite IH.
Qed.

Lemma literal_groups (x : str) :
  ipv4_literal x = true ->
  exists g1 g2 g3 g4,
    x = g1 ++ code "." :: g2 ++ code "." :: g3 ++ code "." :: g4 /\
    octet_group g1 = true /\ octet_group g2 = true /\
    octet_group g3 = true /\ octet_group g4 = true.
Proof.
  unfold ipv4_literal. intros H.
  destruct (split (code ".") x) as [|g1 [|g2 [|g3 [|g4 [|]]]]] eqn:Hs; try done.
  rewrite !andb_true_iff in H. destruct H as [[[G1 G2] G3] G4].
  apply split_inv in Hs as [_ [[? _]|(r1 & -> & Hs)]]; [done|].
  apply split_inv in Hs as [_ [[? _]|(r2 & -> & Hs)]]; [done|].
  apply split_inv in Hs as [_ [[? _]|(r3 & -> & Hs)]]; [done|].
  apply split_inv in Hs as [_ [[_ ->]|(r4 & _ & Hs)]].
  - by exists g1, g2, g3, g4.
  - by apply split_nonempty in Hs.
Qed.

Lemma octet_group_ascii g : octet_group g = true -> Forall (fun c => (c < 128)%N) g.
Proof.
  unfold octet_group. rewrite !andb_true_iff. intros [[_ Hd] _].
  rewrite forallb_forall in Hd. apply Forall_forall. intros c Hc.
  apply list_elem_of_In, Hd in Hc. unfold is_ascii_digit in Hc.
  apply andb_true_iff in Hc as [_ Hc]. apply N.leb_le in Hc.
  change (code "9") with 57%N in Hc. lia.
Qed.

Lemma literal_ascii (x : str) : ipv4_literal x = true -> Forall (fun c => (c < 128)%N) x.
Proof.
  intros H. apply literal_groups in H as (g1 & g2 & g3 & g4 & -> & G1 & G2 & G3 & G4).
  apply octet_group_ascii in G1, G2, G3, G4.
  repeat (apply Forall_app; split; [done|]; apply Forall_cons; split; [done|]). done.
Qed.

Lemma decode_literal (t : bytes) :
  ipv4_literal (map ord t) = true -> decode_utf8_ignore t = map ord t.
Proof.
  intros H. apply decode_ascii. apply literal_ascii in H.
  rewrite Forall_forall in H. apply Forall_forall. intros c Hc. apply H.
  apply list_elem_of_fmap. by exists c.
Qed.

(** The candidates of a chunk are the decoded slices of the spans found. *)
Lemma elem_of_candidates chunk x :
  x ∈ candidates chunk <->
  exists i j, (i, j) ∈ finditer IP_PATTERN chunk /\ x = map ord (slice chunk i j).
Proof.
  unfold candidates, findall. rewrite elem_of_list_to_set, list_elem_of_fmap. split.
  - intros (t & -> & Ht). apply list_elem_of_fmap in Ht as ([i j] & -> & Hsp).
    exists i, j. split; [done|]. apply decode_literal.
    apply scan_from_sound in Hsp as [Hsp _]. by apply ip_at_delimited in Hsp as [[_ ?] _].
  - intros (i & j & Hsp & ->). exists (slice chunk i j). split.
    + symmetry. apply decode_literal.
      apply scan_from_sound in Hsp as [Hsp _]. by apply ip_at_delimited in Hsp as [[_ ?] _].
    + apply list_elem_of_fmap. by exists (i, j).
Qed.

Lemma candidates_literal chunk x : x ∈ candidates chunk -> ipv4_literal x = true.
Proof.
  rewrite elem_of_candidates. intros (i & j & Hsp & ->).
  apply scan_from_sound in Hsp as [Hsp _]. by apply ip_at_delimited in Hsp as [[_ ?] _].
Qed.

Lemma fold_classify l : forall P Q,
  fold_left classify_step l (Ret (P, Q)) =
  Ret (list_to_set (filter (fun ip => is_private ip = true) l) ∪ P,
       list_to_set (filter (fun ip => is_private ip = false) l) ∪ Q).
Proof.
  induction l as [|ip l IH]; intros P Q.
  - cbn [fold_left]. by rewrite !filter_nil, !list_to_set_nil, !union_empty_l_L.
  - simpl. rewrite validate_ip_is_private. simpl. rewrite !filter_cons.
    destruct (is_private ip) eqn:Hp; rewrite IH.
    + rewrite decide_True, decide_False by done. rewrite list_to_set_cons.
      f_equal. f_equal; apply set_eq; intros x; rewrite ?elem_of_union; tauto.
    + rewrite decide_False, decide_True by done. rewrite list_to_set_cons.
      f_equal. f_equal; apply set_eq; intros x; rewrite ?elem_of_union; tauto.
Qed.

Lemma process_chunk_eq chunk :
  _process_chunk chunk =
  Ret (private_of (candidates chunk), public_of (candidates chunk)).
Proof.
  unfold _process_chunk. rewrite fold_classify. f_equal.
  unfold private_of, public_of. f_equal; apply set_eq; intros x;
    rewrite elem_of_union, elem_of_list_to_set, list_elem_of_filter,
      elem_of_elements, elem_of_filter, elem_of_empty; tauto.
Qed.

Lemma private_of_union X Y : private_of (X ∪ Y) = private_of X ∪ private_of Y.
Proof.
  unfold private_of. apply set_eq. intros x.
  rewrite elem_of_union, !elem_of_filter, elem_of_union. tauto.
Qed.

Lemma public_of_union X Y : public_of (X ∪ Y) = public_of X ∪ public_of Y.
Proof.
  unfold public_of. apply set_eq. intros x.
  rewrite elem_of_union, !elem_of_filter, elem_of_union. tauto.
Qed.

Lemma private_of_empty : private_of ∅ = ∅.
Proof.
  unfold private_of. apply set_eq. intros x. rewrite elem_of_filter, elem_of_empty. tauto.
Qed.

Lemma public_of_empty : public_of ∅ = ∅.
Proof.
  unfold public_of. apply set_eq. intros x. rewrite elem_of_filter, elem_of_empty. tauto.
Qed.

Lemma private_public_disjoint X : private_of X ## public_of X.
Proof.
  unfold private_of, public_of. intros x H1 H2.
  apply elem_of_filter in H1 as [H1 _]. apply elem_of_filter in H2 as [H2 _]. congruence.
Qed.

Lemma private_public_cover X : private_of X ∪ public_of X = X.
Proof.
  unfold private_of, public_of. apply set_eq. intros x.
  rewrite elem_of_union, !elem_of_filter. destruct (is_private x); intuition congruence.
Qed.

Lemma all_candidates_cons c cs : all_candidates (c :: cs) = candidates c ∪ all_candidates cs.
Proof. reflexivity. Qed.

Lemma all_candidates_perm cs1 cs2 : cs1 ≡ₚ cs2 -> all_candidates cs1 = all_candidates cs2.
Proof.
  intros Hp. unfold all_candidates. apply set_eq. intros x.
  rewrite !elem_of_union_list. by setoid_rewrite Hp.
Qed.

End Chunk.

(** * The collection loop *)
Section Collect.
Context (w : world).

Lemma collect_Ret futures : forall acc r,
  collect w futures acc = Ret r ->
  r = merge acc (private_of (all_candidates futures.*2),
                 public_of (all_candidates futures.*2)).
Proof.
  induction futures as [|[i chunk] futures IH]; intros [P Q] r H; simpl in H.
  - injection H as <-. unfold merge, all_candidates. simpl.
    by rewrite private_of_empty, public_of_empty, !union_empty_r_L.
  - unfold future_result in H. simpl in H.
    destruct (worker_fault w i); [done|]. rewrite process_chunk_eq in H. simpl in H.
    apply IH in H as ->. unfold merge. simpl.
    rewrite all_candidates_cons, private_of_union, public_of_union.
    by rewrite !(assoc_L (∪)).
Qed.

Lemma collect_no_fault futures : forall acc,
  (forall f, f ∈ futures -> worker_fault w f.1 = None) ->
  exists r, collect w futures acc = Ret r.
Proof.
  induction futures as [|[i chunk] futures IH]; intros acc Hf; simpl; [by eexists|].
  unfold future_result. simpl.
  pose proof (Hf (i, chunk) ltac:(apply elem_of_cons; by left)) as Hi.
  simpl in Hi. rewrite Hi, process_chunk_eq. simpl. apply IH. intros f Hin. apply Hf.
  apply elem_of_cons. by right.
Qed.

(** When a task has failed, the loop over the completed futures ends with
    the exception of a failed task: that of the first one it meets. *)
Lemma collect_fault futures : forall acc f e,
  f ∈ futures -> worker_fault w f.1 = Some e ->
  exists f' e', f' ∈ futures /\ worker_fault w f'.1 = Some e' /\
                collect w futures acc = Raise e'.
Proof.
  induction futures as [|[i chunk] futures IH]; intros acc f e Hin He;
    [by apply elem_of_nil in Hin|].
  simpl. unfold future_result. simpl.
  destruct (worker_fault w i) as [e0|] eqn:Hi.
  { exists (i, chunk), e0. split; [apply elem_of_cons; by left|done]. }
  rewrite process_chunk_eq. simpl.
  apply elem_of_cons in Hin as [->|Hin]; [simpl in He; congruence|].
  destruct (IH (merge acc (private_of (candidates chunk), public_of (candidates chunk)))
               f e Hin He) as (f' & e' & Hin' & He' & Hc).
  exists f', e'. split; [apply elem_of_cons; by right|done].
Qed.

Lemma as_completed_perm futures : as_completed w futures ≡ₚ futures.
Proof. unfold as_completed. apply merge_sort_Permutation. Qed.

Lemma futures_chunks (chunks : list bytes) :
  (imap (fun i chunk => (i, chunk)) chunks).*2 = chunks.
Proof.
  rewrite fmap_imap. rewrite <- (list_fmap_id chunks) at 2.
  induction chunks as [|c cs IH] using rev_ind; [done|].
  rewrite imap_app, fmap_app, IH. simpl. done.
Qed.

End Collect.

(** * The read loop *)
Section Read.
Context (w : world).
Local Open Scope nat_scope.

Lemma read_bytes_prefix file n : file = read_bytes file n ++ drop (length (read_bytes file n)) file.
Proof.
  unfold read_bytes. destruct (n <? 0)%Z.
  - by rewrite drop_all, app_nil_r.
  - rewrite length_take. destruct (decide (Z.to_nat n <= length file)).
    + rewrite Nat.min_l by done. by rewrite take_drop.
    + rewrite Nat.min_r by lia. rewrite take_ge, drop_all by lia. by rewrite app_nil_r.
Qed.

Lemma read_bytes_length file n : length (read_bytes file n) <= length file.
Proof. rewrite (read_bytes_prefix file n) at 2. rewrite length_app. lia. Qed.

Lemma file_read_Ret file n chunk :
  file_read file n = Ret chunk <-> (-1 <= n)%Z /\ chunk = read_bytes file n.
Proof.
  unfold file_read. destruct (Z.ltb_spec n (-1)); split.
  - done.
  - intros [? _]. lia.
  - intros [= <-]. split; [lia|done].
  - by intros [_ ->].
Qed.

Lemma file_read_fits file n : (-1 <= n)%Z -> file_read file n = Ret (read_bytes file n).
Proof. intros Hn. by apply file_read_Ret. Qed.

Lemma file_read_Raise file n e :
  file_read file n = Raise e <->
  (n < -1)%Z /\ e = ValueError "read length must be non-negative or -1".
Proof.
  unfold file_read. destruct (Z.ltb_spec n (-1)); split.
  - intros [= <-]. done.
  - by intros [_ ->].
  - done.
  - intros [? _]. lia.
Qed.

(** One turn of the loop, for a size that [file.read] accepts. *)
Lemma read_chunks_step fuel file n k :
  (-1 <= n)%Z ->
  read_chunks w (S fuel) file n k =
  match read_fault w k with
  | Some e => Some (Raise e)
  | None =>
    if bool_decide (read_bytes file n = []) then Some (Ret [])
    else
      match read_chunks w fuel (drop (length (read_bytes file n)) file) n (S k) with
      | Some (Ret chunks) => Some (Ret (read_bytes file n :: chunks))
      | r => r
      end
  end.
Proof. intros Hn. simpl. by rewrite file_read_fits. Qed.

(** A size that [file.read] refuses ends the loop at its first turn. *)
Lemma read_chunks_bad_size fuel file n k :
  (n < -1)%Z ->
  read_chunks w (S fuel) file n k =
  Some (Raise (ValueError "read length must be non-negative or -1")).
Proof.
  intros Hn. simpl. by rewrite (proj2 (file_read_Raise file n _) (conj Hn eq_refl)).
Qed.

(** The loop terminates: fuel beyond the length of the file is never used up. *)
Lemma read_chunks_terminates fuel : forall file n k,
  length file < fuel -> read_chunks w fuel file n k <> None.
Proof.
  induction fuel as [|fuel IH]; intros file n k Hf; [lia|].
  destruct (Z.ltb_spec n (-1)) as [Hn|Hn]; [by rewrite read_chunks_bad_size|].
  rewrite read_chunks_step by done.
  destruct (read_fault w k); [done|]. case_bool_decide as Hc; [done|].
  pose proof (read_bytes_length file n).
  assert (length (read_bytes file n) <> 0) by (by destruct (read_bytes file n)).
  specialize (IH (drop (length (read_bytes file n)) file) n (S k)).
  rewrite length_drop in IH.
  destruct (read_chunks w fuel _ n (S k)) as [[?|?]|]; [done|done|].
  apply IH. lia.
Qed.

(** A loop that returns was given a size that [file.read] accepts. *)
Lemma read_chunks_Ret_fits fuel file n k chunks :
  read_chunks w fuel file n k = Some (Ret chunks) -> (-1 <= n)%Z.
Proof.
  destruct fuel as [|fuel]; [done|].
  destruct (Z.ltb_spec n (-1)) as [Hn|Hn]; [by rewrite read_chunks_bad_size|done].
Qed.

Lemma read_chunks_concat fuel : forall file n k chunks,
  read_chunks w fuel file n k = Some (Ret chunks) -> n <> 0%Z -> concat chunks = file.
Proof.
  induction fuel as [|fuel IH]; intros file n k chunks H Hn; [done|].
  pose proof (read_chunks_Ret_fits _ _ _ _ _ H) as Hfit.
  rewrite read_chunks_step in H by done.
  destruct (read_fault w k); [done|]. case_bool_decide as Hc.
  - injection H as <-. simpl. unfold read_bytes in Hc.
    destruct (n <? 0)%Z eqn:Hlt; [done|]. apply Z.ltb_ge in Hlt.
    destruct file as [|x file]; [done|].
    destruct (Z.to_nat n) eqn:Hz; [lia|done].
  - destruct (read_chunks w fuel _ n (S k)) as [[rest|?]|] eqn:Hr; try done.
    injection H as <-. simpl. rewrite (IH _ _ _ _ Hr Hn).
    symmetry. apply read_bytes_prefix.
Qed.

End Read.

(** * Candidates of a subject read in chunks *)
Section Chunking.
Local Open Scope nat_scope.

Lemma no_straddle_spec s b :
  no_straddle s b = true <->
  forall sp, sp ∈ finditer IP_PATTERN s -> straddles b sp = false.
Proof.
  unfold no_straddle. rewrite forallb_forall. split.
  - intros H sp Hsp. apply negb_true_iff, H. by apply list_elem_of_In.
  - intros H sp Hsp. apply negb_true_iff, H. by apply list_elem_of_In.
Qed.

Lemma finditer_bound s i j : (i, j) ∈ finditer IP_PATTERN s -> i < j <= length s.
Proof. intros H. apply scan_from_sound in H as [H _]. by apply ip_at_lt in H. Qed.

Lemma clean_cut_end s : clean_cut s (length s) = true.
Proof. unfold clean_cut. by rewrite word_at_end, andb_false_r. Qed.

Lemma no_straddle_end s : no_straddle s (length s) = true.
Proof.
  apply no_straddle_spec. intros [i j] H. apply finditer_bound in H.
  unfold straddles. simpl. apply andb_false_iff. right. apply Nat.ltb_ge. lia.
Qed.

Lemma candidates_app c1 c2 :
  clean_cut (c1 ++ c2) (length c1) || negb (touches_cut c1 c2) = true ->
  no_straddle (c1 ++ c2) (length c1) = true ->
  candidates (c1 ++ c2) = candidates c1 ∪ candidates c2.
Proof.
  intros Hc Hs. rewrite no_straddle_spec in Hs.
  apply set_eq. intros x.
  rewrite elem_of_union, !elem_of_candidates.
  rewrite (finditer_app c1 c2 Hc Hs). split.
  - intros (i & j & Hin & ->). apply elem_of_app in Hin as [Hin|Hin].
    + left. exists i, j. split; [done|].
      apply finditer_bound in Hin. by rewrite slice_app_l by lia.
    + right. apply list_elem_of_fmap in Hin as ([i' j'] & [= -> ->] & Hin).
      exists i', j'. split; [done|]. by rewrite slice_app_r.
  - intros [(i & j & Hin & ->)|(i & j & Hin & ->)].
    + exists i, j. split; [apply elem_of_app; by left|].
      apply finditer_bound in Hin. by rewrite slice_app_l by lia.
    + exists (length c1 + i), (length c1 + j). split.
      * apply elem_of_app. right. apply list_elem_of_fmap. by exists (i, j).
      * by rewrite slice_app_r.
Qed.

Lemma candidates_nil : candidates [] = ∅.
Proof. reflexivity. Qed.

Lemma slice_0 (s : bytes) b : slice s 0 b = take b s.
Proof. unfold slice. by rewrite Nat.sub_0_r, drop_0. Qed.

(** The cut behind a first chunk, in the terms of [candidates_app]. *)
Lemma good_cut_first c t :
  good_cut (c ++ t) 0 (length c) = true <->
  clean_cut (c ++ t) (length c) || negb (touches_cut c t) = true /\
  no_straddle (c ++ t) (length c) = true.
Proof.
  unfold good_cut. rewrite andb_true_iff, slice_0, take_app_length, drop_app_length. done.
Qed.

Lemma good_cut_end s a : good_cut s a (length s) = true.
Proof. unfold good_cut. by rewrite clean_cut_end, no_straddle_end. Qed.

Lemma clean_chunking_spec data n :
  clean_chunking data n = true <->
  forall b, 0 < b < length data -> is_cut n b = true ->
            good_cut data (b - Z.to_nat n) b = true.
Proof.
  unfold clean_chunking. rewrite forallb_forall. split.
  - intros H b Hb Hcut. specialize (H b). rewrite Hcut in H. simpl in H.
    apply H. apply in_seq. lia.
  - intros H b Hb. apply in_seq in Hb. destruct (is_cut n b) eqn:Hcut; [|done].
    simpl. apply H; [lia|done].
Qed.

Lemma is_cut_self n : (0 < n)%Z -> is_cut n (Z.to_nat n) = true.
Proof.
  intros Hn. unfold is_cut. rewrite Z2Nat.id by lia.
  rewrite Z.mod_same by lia. apply andb_true_iff. split; [by apply Z.ltb_lt|done].
Qed.

Lemma is_cut_add n b : (0 < n)%Z -> is_cut n b = true -> is_cut n (Z.to_nat n + b) = true.
Proof.
  intros Hn. unfold is_cut. rewrite !andb_true_iff, !Z.eqb_eq. intros [? Hb].
  split; [done|]. rewrite Nat2Z.inj_add, Z2Nat.id by lia.
  rewrite <- Z.add_mod_idemp_l, Z.mod_same by lia. done.
Qed.

(** The first cut is a whole chunk away from the start. *)
Lemma is_cut_ge n b : is_cut n b = true -> 0 < b -> Z.to_nat n <= b.
Proof.
  unfold is_cut. rewrite andb_true_iff, Z.ltb_lt, Z.eqb_eq. intros [Hn Hb] Hpos.
  apply Z.mod_divide in Hb; [|lia]. apply Z.divide_pos_le in Hb; lia.
Qed.

(** A good cut further right in [c ++ t] is a good cut of [t]. *)
Lemma good_transfer (c t : bytes) a k :
  good_cut (c ++ t) 0 (length c) = true ->
  good_cut (c ++ t) (length c + a) (length c + k) = true ->
  good_cut t a k = true.
Proof.
  intros [Hcc Hns]%good_cut_first. unfold good_cut.
  rewrite !andb_true_iff. intros [Hck Hnk]. split.
  - destruct k as [|k]; [done|].
    rewrite slice_app_r, drop_app_add' in Hck by done.
    unfold clean_cut in *. by rewrite word_before_app_r, word_at_app_r in Hck.
  - rewrite no_straddle_spec in Hns, Hnk |- *. intros [i j] Hin.
    specialize (Hnk (shift (length c) (i, j))).
    rewrite (finditer_app c t Hcc Hns) in Hnk.
    unfold straddles in *. simpl in *. rewrite <- Hnk.
    + f_equal; apply eq_true_iff_eq; rewrite !Nat.ltb_lt; lia.
    + apply elem_of_app. right. apply list_elem_of_fmap. by exists (i, j).
Qed.

Lemma good_cuts_transfer (c t : bytes) rest : forall a,
  good_cut (c ++ t) 0 (length c) = true ->
  good_cuts (c ++ t) (length c + a) rest = true ->
  good_cuts t a rest = true.
Proof.
  induction rest as [|r rest IH]; intros a Hc H; [done|]. simpl in *.
  apply andb_true_iff in H as [H1 H2]. apply andb_true_iff. split.
  - apply (good_transfer c t); [done|]. by rewrite Nat.add_assoc.
  - apply IH; [done|]. by rewrite Nat.add_assoc.
Qed.

(** Scanning the chunks of a clean splitting finds the candidates of the
    unsplit subject. *)
Lemma all_candidates_concat chunks :
  clean_splitting chunks = true -> all_candidates chunks = candidates (concat chunks).
Proof.
  unfold clean_splitting.
  induction chunks as [|c rest IH]; intros H; [done|].
  rewrite all_candidates_cons. simpl in H |- *.
  apply andb_true_iff in H as [Hc Hrest].
  pose proof Hc as [Hcc Hns]%good_cut_first.
  rewrite candidates_app by done. f_equal. apply IH.
  apply (good_cuts_transfer c (concat rest)); [done|]. by rewrite Nat.add_0_r.
Qed.

Lemma read_bytes_short file n :
  n <> 0%Z -> length (read_bytes file n) < length file ->
  (0 < n)%Z /\ length (read_bytes file n) = Z.to_nat n /\
  read_bytes file n = take (Z.to_nat n) file.
Proof.
  unfold read_bytes. intros Hn. destruct (n <? 0)%Z eqn:Hneg; [lia|].
  apply Z.ltb_ge in Hneg. rewrite length_take. intros H. split; [lia|]. split; [lia|done].
Qed.

Lemma read_bytes_nonempty file n : read_bytes file n <> [] -> 0 < length (read_bytes file n).
Proof. destruct (read_bytes file n); [done|simpl; lia]. Qed.

Lemma read_chunks_candidates w fuel : forall file n k chunks,
  read_chunks w fuel file n k = Some (Ret chunks) -> n <> 0%Z ->
  (forall b, 0 < b < length file -> is_cut n b = true ->
             good_cut file (b - Z.to_nat n) b = true) ->
  all_candidates chunks = candidates file.
Proof.
  induction fuel as [|fuel IH]; intros file n k chunks H Hn Hclean; [done|].
  pose proof (read_chunks_concat _ _ _ _ _ _ H Hn) as Hcat.
  pose proof (read_chunks_Ret_fits _ _ _ _ _ _ H) as Hfit.
  rewrite read_chunks_step in H by done.
  destruct (read_fault w k); [done|]. case_bool_decide as Hc.
  - injection H as <-. simpl in Hcat. by subst file.
  - destruct (read_chunks w fuel _ n (S k)) as [[rest|?]|] eqn:Hr; try done.
    injection H as <-. rewrite all_candidates_cons.
    pose proof (read_bytes_prefix file n) as Hsplit.
    pose proof (read_bytes_length file n) as Hle.
    pose proof (read_bytes_short file n Hn) as Hshort.
    apply read_bytes_nonempty in Hc.
    remember (read_bytes file n) as chunk eqn:Hchunk.
    remember (drop (length chunk) file) as tail eqn:Htail.
    assert (length file = length chunk + length tail) as Hlen
      by (by rewrite Hsplit at 1; rewrite length_app).
    assert (good_cut (chunk ++ tail) 0 (length chunk) = true) as Hfirst.
    { rewrite <- Hsplit. destruct (decide (length chunk < length file)) as [Hlt|Hge].
      - destruct (Hshort Hlt) as (Hpos & Hcl & _).
        specialize (Hclean (length chunk)). rewrite Hcl, Nat.sub_diag in Hclean.
        rewrite Hcl. apply Hclean; [lia|]. by apply is_cut_self.
      - replace (length chunk) with (length file) by lia. apply good_cut_end. }
    pose proof Hfirst as [Hcc Hns]%good_cut_first.
    rewrite (IH _ _ _ _ Hr Hn).
    + rewrite Hsplit. by rewrite candidates_app.
    + intros b Hb Hcut.
      destruct Hshort as (Hpos & Hcl & _); [lia|].
      pose proof (is_cut_ge _ _ Hcut ltac:(lia)) as Hge.
      apply (good_transfer chunk tail); [done|]. rewrite <- Hsplit.
      replace (length chunk + (b - Z.to_nat n)) with (length chunk + b - Z.to_nat n) by lia.
      apply Hclean; [lia|]. rewrite Hcl. by apply is_cut_add.
Qed.

End Chunking.

(** * The order of strings and [sorted] *)
Section Order.

Lemma str_leb_refl x : str_leb x x = true.
Proof. induction x as [|a x IH]; simpl; [done|]. by rewrite N.ltb_irrefl. Qed.

#[global] Instance str_le_total : Total str_le.
Proof.
  unfold Total, str_le. intros x. induction x as [|a x IH]; intros [|c y]; simpl; auto.
  destruct (N.ltb_spec a c), (N.ltb_spec c a); auto; lia.
Qed.

#[global] Instance str_le_antisymm : AntiSymm (=) str_le.
Proof.
  unfold AntiSymm, str_le. intros x. induction x as [|a x IH]; intros [|c y]; simpl; try done.
  destruct (N.ltb_spec a c), (N.ltb_spec c a); try done; try lia.
  intros H1 H2. assert (a = c) as -> by lia. f_equal. auto.
Qed.

#[global] Instance str_le_trans : Transitive str_le.
Proof.
  unfold Transitive, str_le. intros x.
  induction x as [|a x IH]; intros [|c y] [|d z]; simpl; try done.
  destruct (N.ltb_spec a c), (N.ltb_spec c d), (N.ltb_spec a d),
    (N.ltb_spec c a), (N.ltb_spec d c), (N.ltb_spec d a); try done; try lia.
  apply IH.
Qed.

Lemma sorted_Sorted xs : Sorted str_le (sorted xs).
Proof. apply Sorted_merge_sort. apply _. Qed.

Lemma sorted_Permutation xs : sorted xs ≡ₚ xs.
Proof. apply merge_sort_Permutation. Qed.

(** Whatever algorithm sorts the list, the result is [sorted xs]. *)
Lemma sorted_unique xs l : Sorted str_le l -> l ≡ₚ xs -> l = sorted xs.
Proof.
  intros Hs Hp. apply (Sorted_unique str_le); [done|apply sorted_Sorted|].
  by rewrite sorted_Permutation.
Qed.

Lemma strictly_sorted l : Sorted str_le l -> NoDup l -> StronglySorted str_lt l.
Proof.
  intros Hs Hn. apply Sorted_StronglySorted in Hs; [|apply _].
  induction Hs as [|x l Hs IH Hx]; [constructor|].
  apply NoDup_cons in Hn as [Hx' Hn]. constructor; [auto|].
  rewrite Forall_forall in Hx |- *. intros y Hy. split; [auto|]. by intros ->.
Qed.

Lemma sorted_elements_strict (X : gset str) : StronglySorted str_lt (sorted (elements X)).
Proof.
  apply strictly_sorted; [apply sorted_Sorted|].
  rewrite sorted_Permutation. apply NoDup_elements.
Qed.

Lemma elem_of_sorted_elements (X : gset str) x : x ∈ sorted (elements X) <-> x ∈ X.
Proof. by rewrite sorted_Permutation, elem_of_elements. Qed.

End Order.

(** * One run of [extract_ips_from_file] *)
Section Run.
Context (w : world) (p : path) (chunk_size : Z).

Lemma run_not_file :
  os_path_isfile w p = false ->
  run (extract_ips_from_file w p chunk_size) = invalid_file_outcome p.
Proof.
  intros H. unfold run, extract_ips_from_file, bind. by rewrite H.
Qed.

Lemma run_empty_file :
  fs w p = Some (RegularFile []) ->
  run (extract_ips_from_file w p chunk_size) = invalid_file_outcome p.
Proof.
  intros H. unfold run, extract_ips_from_file, bind, os_path_isfile, os_path_getsize, lift.
  by rewrite H.
Qed.

Lemma run_valid_file data :
  fs w p = Some (RegularFile data) -> data <> [] ->
  run (extract_ips_from_file w p chunk_size) =
  match try_body w p chunk_size with
  | Ret (P, Q) => (Ret (sorted (elements P), sorted (elements Q)), [])
  | Raise e => processing_error_outcome e
  end.
Proof.
  intros H Hd. unfold run, extract_ips_from_file, bind, os_path_isfile, os_path_getsize, lift.
  rewrite H. simpl. destruct data as [|x data]; [done|]. simpl.
  unfold try_except_Exception, bind, lift, ret.
  destruct (try_body w p chunk_size) as [[P Q]|e]; done.
Qed.

Lemma run_cases :
  run (extract_ips_from_file w p chunk_size) = invalid_file_outcome p \/
  exists data, fs w p = Some (RegularFile data) /\ data <> [] /\
    run (extract_ips_from_file w p chunk_size) =
    match try_body w p chunk_size with
    | Ret (P, Q) => (Ret (sorted (elements P), sorted (elements Q)), [])
    | Raise e => processing_error_outcome e
    end.
Proof.
  destruct (fs w p) as [[[|x data]|sz]|] eqn:Hfs.
  - left. by apply run_empty_file.
  - right. exists (x :: data). split; [done|]. split; [done|]. by apply (run_valid_file (x :: data)).
  - left. apply run_not_file. unfold os_path_isfile. by rewrite Hfs.
  - left. apply run_not_file. unfold os_path_isfile. by rewrite Hfs.
Qed.

Lemma try_body_Ret P Q :
  try_body w p chunk_size = Ret (P, Q) ->
  exists file,
    open_rb w p = Ret file /\
    read_chunks w (S (length file)) file chunk_size 0 = Some (Ret (chunks_read w p chunk_size)) /\
    P = private_of (all_candidates (chunks_read w p chunk_size)) /\
    Q = public_of (all_candidates (chunks_read w p chunk_size)).
Proof.
  unfold try_body, chunks_read. destruct (open_rb w p) as [file|]; [|done]. cbn [ebind].
  destruct (read_chunks w (S (length file)) file chunk_size 0) as [[chunks|]|] eqn:Hrc; try done.
  cbn [ebind].
  intros H. apply collect_Ret in H. exists file. split; [done|]. split; [done|].
  assert (all_candidates (as_completed w (imap (fun i chunk => (i, chunk)) chunks)).*2
          = all_candidates chunks) as Hc.
  { apply all_candidates_perm. rewrite as_completed_perm. by rewrite futures_chunks. }
  rewrite Hc in H. unfold merge in H. simpl in H. rewrite !union_empty_l_L in H.
  by injection H as -> ->.
Qed.

End Run.

(** * Every delimited literal is an occurrence of the pattern *)
Section Converse.
Context (s : bytes).
Local Open Scope nat_scope.

Lemma ord_inj a c : ord a = ord c -> a = c.
Proof.
  unfold ord. intros H. pose proof (Byte.of_to_N a) as Ha.
  rewrite H, Byte.of_to_N in Ha. by injection Ha.
Qed.

Lemma slice_split i j (l1 l2 : bytes) :
  slice s i j = l1 ++ l2 -> i <= j <= length s ->
  slice s i (i + length l1) = l1 /\ slice s (i + length l1) j = l2 /\ i + length l1 <= j.
Proof.
  intros H Hij.
  assert (length l1 + length l2 = j - i) as Hlen.
  { rewrite <- length_app, <- H. apply slice_length. lia. }
  rewrite (slice_app_mid s i (i + length l1) j) in H by lia.
  apply app_inj_1 in H as [H1 H2]; [|rewrite slice_length by lia; lia].
  split; [done|]. split; [done|lia].
Qed.

Lemma octet_span_matches p q : octet_span s p q -> matches s octet p q.
Proof.
  intros (Hpq & Hq & Hg). unfold octet_group in Hg.
  rewrite !andb_true_iff, !Nat.leb_le, length_map, Z.leb_le in Hg.
  destruct Hg as [[[_ Hl] Hd] Hv]. rewrite slice_length in Hl by done.
  assert (forall k, k < q - p -> exists c, s !! (p + k) = Some c /\ slice s p q !! k = Some c
                                           /\ (48 <= ord c <= 57)%N) as Hk.
  { intros k Hlt. destruct (lookup_lt_is_Some_2 s (p + k)) as [c Hc]; [lia|].
    exists c. rewrite slice_lookup by done. split; [done|]. split; [done|].
    rewrite forallb_forall in Hd. specialize (Hd (ord c)).
    unfold is_ascii_digit in Hd. rewrite andb_true_iff, !N.leb_le in Hd.
    apply Hd. apply in_map, list_elem_of_In, list_elem_of_lookup.
    exists k. by rewrite slice_lookup. }
  assert (forall lo hi c, (ord lo <= ord c <= ord hi)%N -> in_range lo hi c = true) as Hr.
  { intros. by apply in_range_ord. }
  destruct (q - p) as [|[|[|[|]]]] eqn:Hn; try lia.
  - (* one digit *)
    destruct (Hk 0) as (a & Ha & _ & Hda); [lia|]. rewrite Nat.add_0_r in Ha.
    replace q with (S p) by lia. unfold octet.
    apply m_alt_r, m_alt_r. eapply m_cat; [apply m_opt_none|].
    eapply m_cat; [|apply m_opt_none]. eapply m_range; [done|]. by apply Hr.
  - (* two digits *)
    destruct (Hk 0) as (a & Ha & _ & Hda); [lia|]. rewrite Nat.add_0_r in Ha.
    destruct (Hk 1) as (c & Hc & _ & Hdc); [lia|]. rewrite Nat.add_1_r in Hc.
    replace q with (S (S p)) by lia. unfold octet.
    apply m_alt_r, m_alt_r. eapply m_cat; [apply m_opt_none|].
    eapply m_cat; [eapply m_range; [done|by apply Hr]|].
    apply m_opt_some. eapply m_range; [done|]. by apply Hr.
  - (* three digits, of value at most 255 *)
    destruct (Hk 0) as (a & Ha & Ha' & Hda); [lia|]. rewrite Nat.add_0_r in Ha.
    destruct (Hk 1) as (c & Hc & Hc' & Hdc); [lia|]. rewrite Nat.add_1_r in Hc.
    destruct (Hk 2) as (d & Hd2 & Hd' & Hdd); [lia|].
    replace (p + 2) with (S (S p)) in Hd2 by lia.
    assert (slice s p q = [a; c; d]) as Hsl.
    { replace q with (S (S (S p))) by lia. by apply slice_three. }
    rewrite Hsl in Hv. unfold int10 in Hv. simpl in Hv.
    replace q with (S (S (S p))) by lia. unfold octet.
    destruct (decide (ord a <= 49)%N) as [Hlow|Hhigh].
    { apply m_alt_r, m_alt_r.
      eapply m_cat; [apply m_opt_some; eapply m_range; [done|apply Hr; cbn; lia]|].
      eapply m_cat; [eapply m_range; [done|by apply Hr]|].
      apply m_opt_some. eapply m_range; [done|]. by apply Hr. }
    assert (a = "2"%byte) as -> by (apply ord_inj; cbn; lia).
    destruct (decide (ord c <= 52)%N) as [Hlow|Hmid].
    { apply m_alt_r, m_alt_l. eapply m_cat; [by apply m_lit|].
      eapply m_cat; [eapply m_range; [done|apply Hr; cbn; lia]|].
      eapply m_range; [done|]. by apply Hr. }
    assert (c = "5"%byte) as -> by (apply ord_inj; cbn in *; lia).
    apply m_alt_l. eapply m_cat; [by apply m_lit|].
    eapply m_cat; [by apply m_lit|]. eapply m_range; [done|].
    apply Hr. cbn in *. lia.
Qed.

Lemma spans_matches i a1 a2 a3 j : ip_spans s i a1 a2 a3 j -> matches s ip_core i j.
Proof.
  intros (A1 & D1 & A2 & D2 & A3 & D3 & A4). unfold ip_core.
  eapply m_cat; [|by apply octet_span_matches].
  eapply m_rep_S; [eapply m_cat; [by apply octet_span_matches|by apply m_lit]|].
  eapply m_rep_S; [eapply m_cat; [by apply octet_span_matches|by apply m_lit]|].
  eapply m_rep_S; [eapply m_cat; [by apply octet_span_matches|by apply m_lit]|].
  apply m_rep_O.
Qed.

Lemma octet_group_length g : octet_group g = true -> 1 <= length g.
Proof. unfold octet_group. rewrite !andb_true_iff, Nat.leb_le. tauto. Qed.

Lemma literal_spans i j : literal_at s i j -> exists a1 a2 a3, ip_spans s i a1 a2 a3 j.
Proof.
  intros [Hij Hl].
  apply literal_groups in Hl as (g1 & g2 & g3 & g4 & Hx & G1 & G2 & G3 & G4).
  apply fmap_app_inv in Hx as (h1 & r1 & -> & Hr1 & Hs1).
  symmetry in Hr1. apply fmap_cons_inv in Hr1 as (d1 & r1' & Hd1 & Hr1 & ->).
  symmetry in Hr1. apply fmap_app_inv in Hr1 as (h2 & r2 & -> & Hr2 & ->).
  symmetry in Hr2. apply fmap_cons_inv in Hr2 as (d2 & r2' & Hd2 & Hr2 & ->).
  symmetry in Hr2. apply fmap_app_inv in Hr2 as (h3 & r3 & -> & Hr3 & ->).
  symmetry in Hr3. apply fmap_cons_inv in Hr3 as (d3 & h4 & Hd3 & -> & ->).
  assert (d1 = "."%byte) as -> by (by apply ord_inj).
  assert (d2 = "."%byte) as -> by (by apply ord_inj).
  assert (d3 = "."%byte) as -> by (by apply ord_inj).
  pose proof (octet_group_length _ G1) as L1. pose proof (octet_group_length _ G2) as L2.
  pose proof (octet_group_length _ G3) as L3. pose proof (octet_group_length _ G4) as L4.
  rewrite length_fmap in L1, L2, L3, L4.
  destruct (slice_split i j _ _ Hs1) as (S1 & T1 & B1); [lia|].
  remember (i + length h1) as a1 eqn:E1.
  destruct (slice_split a1 j ["."%byte] _ T1) as (S1' & T1' & B1'); [lia|].
  simpl in S1', T1', B1'. rewrite Nat.add_1_r in S1', T1', B1'.
  destruct (slice_split (S a1) j _ _ T1') as (S2 & T2 & B2); [lia|].
  remember (S a1 + length h2) as a2 eqn:E2.
  destruct (slice_split a2 j ["."%byte] _ T2) as (S2' & T2' & B2'); [lia|].
  simpl in S2', T2', B2'. rewrite Nat.add_1_r in S2', T2', B2'.
  destruct (slice_split (S a2) j _ _ T2') as (S3 & T3 & B3); [lia|].
  remember (S a2 + length h3) as a3 eqn:E3.
  destruct (slice_split a3 j ["."%byte] _ T3) as (S3' & T3' & B3'); [lia|].
  simpl in S3', T3', B3'. rewrite Nat.add_1_r in S3', T3', B3'.
  assert (forall a, a < length s -> slice s a (S a) = ["."%byte] -> s !! a = Some "."%byte) as Hdot.
  { intros a Ha Hsl. rewrite <- (Nat.add_0_r a), <- (slice_lookup s a (S a) 0) by lia.
    by rewrite Hsl. }
  assert (length (slice s (S a3) j) = length h4) as L4' by (by rewrite T3').
  rewrite slice_length in L4' by lia.
  exists a1, a2, a3. unfold ip_spans, octet_span.
  rewrite S1, S2, S3, T3'. change (map ord) with (fmap (M:=list) ord).
  rewrite G1, G2, G3, G4.
  repeat split; try lia; apply Hdot; (lia || done).
Qed.

Lemma delimited_ip_at i j : delimited_literal_at s i j -> ip_at s i j.
Proof.
  intros (Hl & Hb & He). apply ip_at_core. split; [|done].
  apply literal_spans in Hl as (a1 & a2 & a3 & Hs). by eapply spans_matches.
Qed.

Lemma ip_at_iff_delimited i j : ip_at s i j <-> delimited_literal_at s i j.
Proof. split; [apply ip_at_delimited|apply delimited_ip_at]. Qed.

End Converse.

(* ===================================================================== *)
(** * Properties of the program *)
(* ===================================================================== *)

(** ** The classifier *)

(** C9. For every string, [validate_ip] returns a boolean: it never raises,
    and the value it returns is determined by the string.  Strings that are
    not numeric or whose octets are out of range yield [False]. *)
Theorem validate_ip_total_deterministic :
  (forall s : str, exists v : bool,
      validate_ip s = Ret v /\ forall r, validate_ip s = r -> r = Ret v) /\
  validate_ip (u "not an address") = Ret false /\
  validate_ip (u "999.1.1.1") = Ret false /\
  validate_ip (u "") = Ret false.
Proof.
  split; [|by vm_compute].
  intros s. exists (is_private s). split; [apply validate_ip_is_private|].
  intros r <-. apply validate_ip_is_private.
Qed.

Lemma is_private_screened ip n :
  ip_address ip = Ret (IPv4Address n) ->
  unspecified n \/ reserved n \/ multicast n -> is_private ip = false.
Proof.
  intros H Hs. pose proof (ip_address_range _ _ H) as Hn.
  rewrite (is_private_IPv4 _ _ H).
  rewrite <- is_unspecified_spec in Hs. rewrite <- is_reserved_spec in Hs by done.
  rewrite <- is_multicast_spec in Hs by done.
  destruct Hs as [-> | [-> | ->]]; by rewrite ?orb_true_r.
Qed.

(** C1 (the code departs from the claim).  A candidate whose address is
    unspecified, reserved or multicast is not left out: [validate_ip] answers
    [False] for it and [_process_chunk] files every [False] under the public
    addresses, so it is returned as a public address.  So it is for
    ["0.0.0.0"] and ["224.0.0.1"]. *)
Theorem unspecified_and_multicast_returned_public :
  (forall chunk ip n,
      ip ∈ candidates chunk -> ip_address ip = Ret (IPv4Address n) ->
      unspecified n \/ reserved n \/ multicast n ->
      validate_ip ip = Ret false /\
      exists P Q, _process_chunk chunk = Ret (P, Q) /\ ip ∈ Q /\ (ip ∉ P)) /\
  validate_ip (u "0.0.0.0") = Ret false /\
  validate_ip (u "224.0.0.1") = Ret false /\
  _process_chunk (b "0.0.0.0 224.0.0.1") = Ret (∅, {[ u "0.0.0.0"; u "224.0.0.1" ]}) /\
  run (extract_ips_from_file (world_of (b "0.0.0.0 224.0.0.1") in_order) LOG_FILE
         DEFAULT_CHUNK_SIZE)
  = (Ret ([], [u "0.0.0.0"; u "224.0.0.1"]), []).
Proof.
  split; [|by vm_compute].
  intros chunk ip n Hin Hip Hs. pose proof (is_private_screened ip n Hip Hs) as Hp.
  split; [by rewrite validate_ip_is_private, Hp|].
  eexists _, _. split; [apply process_chunk_eq|]. unfold private_of, public_of.
  rewrite !elem_of_filter. split; [done|]. intros [Ht _]. congruence.
Qed.

(** ** Failures *)

(** C8. When the path does not name an existing regular file, or names a
    file of size zero, the call returns two empty lists and logs one error;
    it does not raise. *)
Theorem invalid_file_is_not_fatal (w : world) (p : path) (chunk_size : Z) :
  os_path_isfile w p = false \/ fs w p = Some (RegularFile []) ->
  run (extract_ips_from_file w p chunk_size)
  = (Ret ([], []), [(ERROR, ("Invalid file: " ++ p)%string)]).
Proof. intros [H|H]; [by apply run_not_file|by apply run_empty_file]. Qed.

Lemma invalid_file_is_not_fatal_witness :
  run (extract_ips_from_file (world_of [] in_order) LOG_FILE DEFAULT_CHUNK_SIZE)
  = (Ret ([], []), [(ERROR, "Invalid file: data/access.log"%string)]) /\
  run (extract_ips_from_file (world_of (b "10.0.0.1") in_order) "missing.log"%string 5)
  = (Ret ([], []), [(ERROR, "Invalid file: missing.log"%string)]).
Proof.
  split.
  - apply (invalid_file_is_not_fatal (world_of [] in_order) LOG_FILE). right. reflexivity.
  - apply (invalid_file_is_not_fatal (world_of (b "10.0.0.1") in_order) "missing.log"%string).
    left. reflexivity.
Defined.

Lemma open_rb_regular w p data :
  fs w p = Some (RegularFile data) -> open_fault w p = None -> open_rb w p = Ret data.
Proof. intros H Ho. unfold open_rb. by rewrite Ho, H. Qed.

Lemma chunks_read_futures w p chunk_size data chunks :
  fs w p = Some (RegularFile data) -> open_fault w p = None ->
  read_chunks w (S (length data)) data chunk_size 0 = Some (Ret chunks) ->
  chunks_read w p chunk_size = chunks /\
  try_body w p chunk_size =
  collect w (as_completed w (imap (fun i chunk => (i, chunk)) chunks)) (∅, ∅).
Proof.
  intros H Ho Hr. unfold chunks_read, try_body.
  rewrite (open_rb_regular _ _ _ H Ho). cbn [ebind]. by rewrite Hr.
Qed.

(** When no read fails the loop hands over the blocks of the file. *)
Lemma read_chunks_no_fault w fuel : forall file n k,
  (-1 <= n)%Z -> (forall j, read_fault w j = None) -> length file < fuel ->
  read_chunks w fuel file n k = Some (Ret (blocks fuel file n)).
Proof.
  induction fuel as [|fuel IH]; intros file n k Hn Hf Hlen; [lia|].
  rewrite read_chunks_step by done. simpl.
  rewrite Hf. case_bool_decide as Hc; [done|].
  pose proof (read_bytes_length file n). apply read_bytes_nonempty in Hc.
  rewrite (IH (drop (length (read_bytes file n)) file) n (S k) Hn Hf); [done|].
  rewrite length_drop. lia.
Qed.

(** The first read that fails ends the loop with its exception, whichever
    read it is: the loop reads once per block and once more at the end of
    the file. *)
Lemma read_chunks_fault w fuel : forall file n k j e,
  (-1 <= n)%Z -> j <= length (blocks fuel file n) ->
  (forall i, i < j -> read_fault w (k + i) = None) -> read_fault w (k + j) = Some e ->
  length file < fuel ->
  read_chunks w fuel file n k = Some (Raise e).
Proof.
  induction fuel as [|fuel IH]; intros file n k j e Hn Hj Hbefore He Hlen; [lia|].
  rewrite read_chunks_step by done.
  destruct j as [|j].
  { rewrite Nat.add_0_r in He. by rewrite He. }
  pose proof (Hbefore 0 ltac:(lia)) as H0. rewrite Nat.add_0_r in H0. rewrite H0.
  simpl in Hj. case_bool_decide as Hc; [simpl in Hj; lia|]. simpl in Hj.
  pose proof (read_bytes_length file n). apply read_bytes_nonempty in Hc.
  rewrite (IH (drop (length (read_bytes file n)) file) n (S k) j e); [done|done|lia| | |].
  - intros i Hi. replace (S k + i) with (k + S i) by lia. apply Hbefore. lia.
  - by replace (S k + j) with (k + S j) by lia.
  - rewrite length_drop. lia.
Qed.

(** C7. A run whose [try] block raises returns two empty lists and logs the
    error once: the sets merged so far are dropped and nothing is retried.
    The block raises what [open] raises; the [ValueError] of [file.read]
    for a chunk size below [-1]; for a size that [file.read] accepts, what
    the first failing read raises, whichever of the reads of the loop it is;
    and, when every read succeeds and a worker has failed, the exception of
    a failed worker, which [future.result()] re-raises. *)
Theorem exception_aborts_run (w : world) (p : path) (chunk_size : Z) (data : bytes) :
  fs w p = Some (RegularFile data) -> data <> [] ->
  (forall e, try_body w p chunk_size = Raise e ->
     run (extract_ips_from_file w p chunk_size)
     = (Ret ([], []), [(ERROR, ("Processing error: " ++ exn_str e)%string)])) /\
  (forall e, open_fault w p = Some e -> try_body w p chunk_size = Raise e) /\
  (open_fault w p = None -> (chunk_size < -1)%Z ->
     try_body w p chunk_size = Raise (ValueError "read length must be non-negative or -1")) /\
  (forall k e, open_fault w p = None -> fits chunk_size ->
     k <= length (chunks_of data chunk_size) ->
     (forall j, j < k -> read_fault w j = None) -> read_fault w k = Some e ->
     try_body w p chunk_size = Raise e) /\
  (forall i e, open_fault w p = None -> fits chunk_size ->
     (forall k, read_fault w k = None) ->
     i < length (chunks_of data chunk_size) -> worker_fault w i = Some e ->
     exists j e', j < length (chunks_of data chunk_size) /\ worker_fault w j = Some e' /\
                  try_body w p chunk_size = Raise e').
Proof.
  intros Hfs Hd. split; [|split; [|split; [|split]]].
  - intros e He. rewrite (run_valid_file w p chunk_size data Hfs Hd), He. done.
  - intros e He. unfold try_body, open_rb. by rewrite He.
  - intros Ho Hn. unfold try_body. rewrite (open_rb_regular _ _ _ Hfs Ho).
    cbn [ebind]. by rewrite read_chunks_bad_size.
  - intros k e Ho [Hn _] Hk Hbefore He. unfold try_body.
    rewrite (open_rb_regular _ _ _ Hfs Ho). cbn [ebind].
    by rewrite (read_chunks_fault w _ data chunk_size 0 k e Hn Hk Hbefore He) by lia.
  - intros i e Ho [Hn _] Hr Hi He.
    pose proof (read_chunks_no_fault w (S (length data)) data chunk_size 0 Hn Hr
                  ltac:(lia)) as Hc.
    fold (chunks_of data chunk_size) in Hc.
    destruct (chunks_read_futures _ _ _ _ _ Hfs Ho Hc) as [Hcr ->].
    destruct (lookup_lt_is_Some_2 _ i Hi) as [chunk Hchunk].
    destruct (collect_fault w
                (as_completed w (imap (fun i chunk => (i, chunk)) (chunks_of data chunk_size)))
                (∅, ∅) (i, chunk) e) as ([j c] & e' & Hin & He' & Hraise); [|done|].
    { rewrite as_completed_perm. apply list_elem_of_lookup. exists i.
      by rewrite list_lookup_imap, Hchunk. }
    exists j, e'. split; [|done].
    rewrite as_completed_perm in Hin. apply list_elem_of_lookup in Hin as [i' Hin].
    rewrite list_lookup_imap in Hin.
    destruct (chunks_of data chunk_size !! i') as [c'|] eqn:Hi'; [|done].
    injection Hin as <- <-. by apply lookup_lt_Some in Hi'.
Qed.

Lemma exception_aborts_run_witness :
  run (extract_ips_from_file
         (with_read_fault (world_of (b "10.0.0.5 8.8.8.8") in_order) 1
            (OSError "Input/output error"))
         LOG_FILE 9)
  = (Ret ([], []), [(ERROR, "Processing error: Input/output error"%string)]).
Proof.
  pose proof (exception_aborts_run
                (with_read_fault (world_of (b "10.0.0.5 8.8.8.8") in_order) 1
                   (OSError "Input/output error"))
                LOG_FILE 9 (b "10.0.0.5 8.8.8.8") eq_refl ltac:(discriminate))
    as (Hlog & _ & _ & Hread & _).
  apply (Hlog (OSError "Input/output error")).
  apply (Hread 1).
  - reflexivity.
  - split; vm_compute; discriminate.
  - vm_compute. lia.
  - intros [|j] Hj; [reflexivity|lia].
  - reflexivity.
Defined.

(** ** The sets of a run *)

Lemma elem_of_all_candidates chunks x :
  x ∈ all_candidates chunks <-> exists chunk, chunk ∈ chunks /\ x ∈ candidates chunk.
Proof.
  unfold all_candidates. rewrite elem_of_union_list. split.
  - intros (X & HX & Hx). apply list_elem_of_fmap in HX as (chunk & -> & Hc). eauto.
  - intros (chunk & Hc & Hx). exists (candidates chunk). split; [|done].
    apply list_elem_of_fmap. eauto.
Qed.

Lemma all_candidates_literal chunks x : x ∈ all_candidates chunks -> ipv4_literal x = true.
Proof.
  rewrite elem_of_all_candidates. intros (chunk & _ & Hx). by eapply candidates_literal.
Qed.

(** What a run returns, whatever happens. *)
Lemma run_outcome w p chunk_size :
  run (extract_ips_from_file w p chunk_size) = invalid_file_outcome p \/
  (exists e, try_body w p chunk_size = Raise e /\
     run (extract_ips_from_file w p chunk_size) = processing_error_outcome e) \/
  (exists data, fs w p = Some (RegularFile data) /\ data <> [] /\
     try_body w p chunk_size
     = Ret (private_of (all_candidates (chunks_read w p chunk_size)),
            public_of (all_candidates (chunks_read w p chunk_size))) /\
     run (extract_ips_from_file w p chunk_size)
     = (Ret (result_of (all_candidates (chunks_read w p chunk_size))), [])).
Proof.
  destruct (run_cases w p chunk_size) as [H|(data & Hfs & Hd & H)]; [by left|right].
  destruct (try_body w p chunk_size) as [[P Q]|e] eqn:Hb.
  - right. exists data. apply try_body_Ret in Hb as (file & _ & _ & -> & ->). done.
  - left. by exists e.
Qed.

(** C10. Every string in either set of [_process_chunk], and in either
    list of [extract_ips_from_file], is an IPv4 literal of the grammar: four
    groups of one to three decimal digits, each at most 255, separated by
    dots.  In particular no output string is empty. *)
Theorem outputs_are_ipv4_literals :
  (forall chunk, exists P Q,
      _process_chunk chunk = Ret (P, Q) /\
      forall x, x ∈ P ∪ Q -> ipv4_literal x = true) /\
  (forall w p chunk_size private_ips public_ips log,
      run (extract_ips_from_file w p chunk_size) = (Ret (private_ips, public_ips), log) ->
      forall x, x ∈ private_ips \/ x ∈ public_ips -> ipv4_literal x = true) /\
  ipv4_literal (u "") = false.
Proof.
  split; [|split; [|reflexivity]].
  - intros chunk. eexists _, _. split; [apply process_chunk_eq|].
    intros x Hx. rewrite private_public_cover in Hx. by eapply candidates_literal.
  - intros w p chunk_size private_ips public_ips log H x Hx.
    destruct (run_outcome w p chunk_size) as [H'|[(e & _ & H')|(data & _ & _ & _ & H')]];
      rewrite H' in H; injection H as <- <- <-.
    + destruct Hx as [Hx|Hx]; by apply elem_of_nil in Hx.
    + destruct Hx as [Hx|Hx]; by apply elem_of_nil in Hx.
    + apply (all_candidates_literal (chunks_read w p chunk_size)).
      destruct Hx as [Hx|Hx]; apply elem_of_sorted_elements, elem_of_filter in Hx; tauto.
Qed.

(** C6. Each returned list is strictly increasing in the lexicographic
    order of strings on code points, hence sorted and without duplicates; it
    holds exactly the members of its set, and any sorted arrangement of these
    members is that list.  The order is the one of strings, not of numbers:
    ["100.0.0.1"] comes before ["2.2.2.2"]. *)
Theorem outputs_sorted_lexicographically (w : world) (p : path) (chunk_size : Z)
    (private_ips public_ips : list str) (log : list log_record) :
  run (extract_ips_from_file w p chunk_size) = (Ret (private_ips, public_ips), log) ->
  StronglySorted str_lt private_ips /\ StronglySorted str_lt public_ips /\
  (forall P Q, try_body w p chunk_size = Ret (P, Q) -> log = [] ->
     (forall x, x ∈ private_ips <-> x ∈ P) /\ (forall x, x ∈ public_ips <-> x ∈ Q) /\
     (forall l, Sorted str_le l -> l ≡ₚ elements P -> l = private_ips) /\
     (forall l, Sorted str_le l -> l ≡ₚ elements Q -> l = public_ips)) /\
  sorted [u "2.2.2.2"; u "100.0.0.1"; u "9.9.9.9"] = [u "100.0.0.1"; u "2.2.2.2"; u "9.9.9.9"].
Proof.
  intros H. split; [|split; [|split; [|reflexivity]]].
  - destruct (run_outcome w p chunk_size) as [H'|[(e & _ & H')|(data & _ & _ & _ & H')]];
      rewrite H' in H; injection H as <- <- <-;
      [constructor|constructor|apply sorted_elements_strict].
  - destruct (run_outcome w p chunk_size) as [H'|[(e & _ & H')|(data & _ & _ & _ & H')]];
      rewrite H' in H; injection H as <- <- <-;
      [constructor|constructor|apply sorted_elements_strict].
  - intros P Q Hb ->.
    destruct (run_outcome w p chunk_size) as [H'|[(e & He & _)|(data & _ & _ & Hb' & H')]].
    + rewrite H' in H. by injection H.
    + congruence.
    + rewrite Hb' in Hb. injection Hb as <- <-.
      rewrite H' in H. injection H as <- <-.
      split; [|split; [|split]].
      * intros x. apply elem_of_sorted_elements.
      * intros x. apply elem_of_sorted_elements.
      * intros l. apply sorted_unique.
      * intros l. apply sorted_unique.
Qed.

Lemma outputs_sorted_lexicographically_witness :
  StronglySorted str_lt [u "10.0.0.5"] /\
  StronglySorted str_lt [u "100.0.0.1"; u "2.2.2.2"; u "8.8.8.8"].
Proof.
  pose proof (outputs_sorted_lexicographically
                (world_of (b "2.2.2.2 to 10.0.0.5, 8.8.8.8 to 100.0.0.1, 2.2.2.2") reversed)
                LOG_FILE 21
                [u "10.0.0.5"] [u "100.0.0.1"; u "2.2.2.2"; u "8.8.8.8"] []) as H.
  destruct H as (H1 & H2 & _); [vm_compute; reflexivity|].
  exact (conj H1 H2).
Defined.

Lemma invalid_not_private ip : invalid ip = true -> is_private ip = false.
Proof.
  unfold invalid, is_private, validate_ip.
  destruct (ip_address ip) as [o|e]; cbn [ebind try_except_ValueError].
  - by intros ->.
  - intros _. by destruct (isinstance_ValueError e).
Qed.

Lemma invalid_of_public X : invalid_of X ⊆ public_of X.
Proof.
  intros x. unfold invalid_of, public_of. rewrite !elem_of_filter.
  intros [Hx Hin]. split; [by apply invalid_not_private|done].
Qed.

(** C4 (the code departs from the claim).  The two returned lists share no
    address and hold only candidates found by scanning the chunks, and in a
    run that logs nothing every candidate found is in exactly one of them.
    For that very reason the count of the claim fails: a candidate that is
    to be left out (its address is unspecified, reserved or multicast, or it
    does not parse) is returned in the public list, so the private and the
    public addresses alone number as many as the candidates found, and with
    the left-out ones added the sum exceeds that number as soon as there is
    one.  So it is for ["10.0.0.5 0.0.0.0 8.8.8.8 10.0.0.5"]: one private,
    two public and one left-out address, of three candidates found. *)
Theorem invalid_candidates_are_counted_as_public (w : world) (p : path) (chunk_size : Z)
    (private_ips public_ips : list str) (log : list log_record) :
  run (extract_ips_from_file w p chunk_size) = (Ret (private_ips, public_ips), log) ->
  let found := all_candidates (chunks_read w p chunk_size) in
  (forall x, ~ (x ∈ private_ips /\ x ∈ public_ips)) /\
  (forall x, x ∈ private_ips \/ x ∈ public_ips -> x ∈ found) /\
  (log = [] ->
     (forall x, x ∈ found ->
        (x ∈ private_ips /\ (x ∉ public_ips)) \/ ((x ∉ private_ips) /\ x ∈ public_ips)) /\
     (forall x, x ∈ invalid_of found -> x ∈ public_ips) /\
     length private_ips + length public_ips = size found /\
     (invalid_of found <> ∅ ->
      length private_ips + length public_ips + size (invalid_of found) > size found)) /\
  (let w0 := world_of (b "10.0.0.5 0.0.0.0 8.8.8.8 10.0.0.5") in_order in
   let found0 := all_candidates (chunks_read w0 LOG_FILE DEFAULT_CHUNK_SIZE) in
   run (extract_ips_from_file w0 LOG_FILE DEFAULT_CHUNK_SIZE)
   = (Ret ([u "10.0.0.5"], [u "0.0.0.0"; u "8.8.8.8"]), []) /\
   found0 = {[ u "10.0.0.5"; u "0.0.0.0"; u "8.8.8.8" ]} /\
   invalid_of found0 = {[ u "0.0.0.0" ]} /\
   size found0 = 3 /\ size (invalid_of found0) = 1).
Proof.
  intros H found.
  assert (private_ips = [] /\ public_ips = [] /\ log <> [] \/
          private_ips = sorted (elements (private_of found)) /\
          public_ips = sorted (elements (public_of found))) as Hcases.
  { destruct (run_outcome w p chunk_size) as [H'|[(e & _ & H')|(data & _ & _ & _ & H')]];
      rewrite H' in H; injection H as <- <- <-; [by left|by left|by right]. }
  split; [|split; [|split; [|by vm_compute]]].
  - intros x [H1 H2]. destruct Hcases as [(-> & -> & _)|[-> ->]].
    + by apply elem_of_nil in H1.
    + apply elem_of_sorted_elements in H1, H2.
      by apply (private_public_disjoint found x).
  - intros x Hx. destruct Hcases as [(-> & -> & _)|[-> ->]].
    + destruct Hx as [Hx|Hx]; by apply elem_of_nil in Hx.
    + rewrite !elem_of_sorted_elements, <- elem_of_union, private_public_cover in Hx. done.
  - intros Hlog. destruct Hcases as [(_ & _ & Hne)|[-> ->]]; [done|].
    pose proof (private_public_disjoint found) as Hdisj.
    pose proof (private_public_cover found) as Hcover.
    assert (length (sorted (elements (private_of found)))
            + length (sorted (elements (public_of found))) = size found) as Hcount.
    { rewrite !(Permutation_length (sorted_Permutation _)).
      change (length (elements ?X)) with (size X).
      rewrite <- size_union by done. by rewrite Hcover. }
    split; [|split; [|split; [done|]]].
    + intros x Hx. rewrite !elem_of_sorted_elements.
      rewrite <- Hcover in Hx. apply elem_of_union in Hx as [Hx|Hx]; [left|right].
      * split; [done|]. intros Hx'. by apply (Hdisj x).
      * split; [|done]. intros Hx'. by apply (Hdisj x).
    + intros x Hx. apply elem_of_sorted_elements. by apply invalid_of_public.
    + intros Hinv. rewrite Hcount.
      assert (size (invalid_of found) <> 0); [|lia].
      intros Hz. by apply size_empty_inv, leibniz_equiv in Hz.
Qed.

Lemma invalid_candidates_are_counted_as_public_witness :
  length [u "10.0.0.5"] + length [u "0.0.0.0"; u "8.8.8.8"]
  = size (all_candidates (chunks_read (world_of (b "10.0.0.5 0.0.0.0 8.8.8.8 10.0.0.5") in_order)
                            LOG_FILE DEFAULT_CHUNK_SIZE)) /\
  length [u "10.0.0.5"] + length [u "0.0.0.0"; u "8.8.8.8"]
  + size (invalid_of
            (all_candidates (chunks_read (world_of (b "10.0.0.5 0.0.0.0 8.8.8.8 10.0.0.5") in_order)
                               LOG_FILE DEFAULT_CHUNK_SIZE)))
  > size (all_candidates (chunks_read (world_of (b "10.0.0.5 0.0.0.0 8.8.8.8 10.0.0.5") in_order)
                            LOG_FILE DEFAULT_CHUNK_SIZE)).
Proof.
  pose proof (invalid_candidates_are_counted_as_public
                (world_of (b "10.0.0.5 0.0.0.0 8.8.8.8 10.0.0.5") in_order)
                LOG_FILE DEFAULT_CHUNK_SIZE
                [u "10.0.0.5"] [u "0.0.0.0"; u "8.8.8.8"] []) as H.
  destruct H as (_ & _ & H & _); [vm_compute; reflexivity|].
  destruct (H eq_refl) as (_ & _ & Hcount & Hmore).
  split; [exact Hcount|]. apply Hmore. by vm_compute.
Defined.

(** ** Classification *)

(** C2. A candidate that parses as an IPv4 address and is neither
    unspecified, reserved nor multicast is put in the private set exactly
    when its address lies in 10.0.0.0/8, 172.16.0.0/12 or 192.168.0.0/16,
    and in the public set otherwise.  Loopback and link-local addresses are
    put in the public set. *)
Theorem private_iff_rfc1918 (chunk : bytes) (ip : str) (n : Z) :
  ip ∈ candidates chunk -> ip_address ip = Ret (IPv4Address n) ->
  exists P Q, _process_chunk chunk = Ret (P, Q) /\
    (~ unspecified n -> ~ reserved n -> ~ multicast n ->
       (validate_ip ip = Ret true <-> rfc1918 n) /\
       (ip ∈ P <-> rfc1918 n) /\ (ip ∈ Q <-> ~ rfc1918 n)) /\
    (loopback n \/ link_local n -> ip ∈ Q /\ (ip ∉ P)).
Proof.
  intros Hin Hip. eexists _, _. split; [apply process_chunk_eq|].
  assert (ip ∈ private_of (candidates chunk) <-> is_private ip = true) as HP.
  { unfold private_of. rewrite elem_of_filter. tauto. }
  assert (ip ∈ public_of (candidates chunk) <-> is_private ip = false) as HQ.
  { unfold public_of. rewrite elem_of_filter. tauto. }
  assert (~ unspecified n -> ~ reserved n -> ~ multicast n ->
          (validate_ip ip = Ret true <-> rfc1918 n) /\
          (ip ∈ private_of (candidates chunk) <-> rfc1918 n) /\
          (ip ∈ public_of (candidates chunk) <-> ~ rfc1918 n)) as Hmain.
  { intros Hu Hr Hm. pose proof (is_private_rfc1918 ip n Hip Hu Hr Hm) as Hiff.
    rewrite validate_ip_is_private, HP, HQ. split; [|split; [done|]].
    - rewrite <- Hiff. split; [by intros [= ->]|by intros ->].
    - rewrite <- Hiff. by destruct (is_private ip). }
  split; [done|]. intros Hl. apply blocks_apart in Hl as (Hu & Hr & Hm & Hp).
  destruct (Hmain Hu Hr Hm) as (_ & H1 & H2). tauto.
Qed.

Lemma private_iff_rfc1918_witness :
  exists P Q,
    _process_chunk (b "GET 127.0.0.1 via 10.1.2.3") = Ret (P, Q) /\
    (~ unspecified 2130706433 -> ~ reserved 2130706433 -> ~ multicast 2130706433 ->
       (validate_ip (u "127.0.0.1") = Ret true <-> rfc1918 2130706433) /\
       (u "127.0.0.1" ∈ P <-> rfc1918 2130706433) /\
       (u "127.0.0.1" ∈ Q <-> ~ rfc1918 2130706433)) /\
    (loopback 2130706433 \/ link_local 2130706433 ->
     u "127.0.0.1" ∈ Q /\ (u "127.0.0.1" ∉ P)).
Proof.
  apply (private_iff_rfc1918 (b "GET 127.0.0.1 via 10.1.2.3") (u "127.0.0.1") 2130706433).
  - apply elem_of_list_to_set. vm_compute. apply list_elem_of_here.
  - vm_compute. reflexivity.
Defined.

(** ** The scanner *)

(** C3, counterexample.  A dot is not a word character, so [\b] holds
    between the last digit of a literal and a dot that follows it: the
    literal ["1.2.3.4"] inside the longer dotted sequence ["1.2.3.4.5"] is
    extracted. *)
Lemma dotted_sequence_is_extracted :
  findall IP_PATTERN (b "1.2.3.4.5") = [b "1.2.3.4"] /\
  candidates (b "1.2.3.4.5") = {[ u "1.2.3.4" ]}.
Proof. by vm_compute. Qed.

(** C3, as the code has it.  The scanner extracts, from left to right and
    without overlap, the occurrences of the IPv4 literal grammar that are
    delimited by word boundaries: the byte before and the byte after an
    extracted literal, where there is one, is not a letter, a digit or an
    underscore.  Every delimited occurrence is extracted unless an extracted
    literal that starts before it overlaps it.  So a literal inside a longer
    run of digits or letters is not extracted, while a literal followed or
    preceded by a dot is. *)
Theorem scanner_word_boundaries (chunk : bytes) :
  (forall i j, (i, j) ∈ finditer IP_PATTERN chunk -> delimited_literal_at chunk i j) /\
  (forall i j, delimited_literal_at chunk i j ->
     (i, j) ∈ finditer IP_PATTERN chunk \/
     exists i' j', (i', j') ∈ finditer IP_PATTERN chunk /\ i' < i < j') /\
  StronglySorted (fun sp1 sp2 : nat * nat => sp1.2 <= sp2.1) (finditer IP_PATTERN chunk) /\
  (forall x, x ∈ candidates chunk <->
     exists i j, (i, j) ∈ finditer IP_PATTERN chunk /\ x = map ord (slice chunk i j)) /\
  candidates (b "v1.2.3.4") = ∅ /\ candidates (b "1.2.3.4567") = ∅ /\
  candidates (b "1.2.3.4.5.6.7.8") = {[ u "1.2.3.4"; u "5.6.7.8" ]}.
Proof.
  split; [|split; [|split; [|split; [|by vm_compute]]]].
  - intros i j H. apply scan_from_sound in H as [H _]. by apply ip_at_delimited.
  - intros i j H. apply delimited_ip_at in H.
    apply scan_from_complete; [lia|lia|done].
  - apply scan_from_sorted.
  - apply elem_of_candidates.
Qed.

(** ** Chunking *)

Lemma no_literal_straddles_spec s cut :
  no_literal_straddles s cut = true ->
  forall i j, literal_at s i j -> ~ (i < cut < j).
Proof.
  unfold no_literal_straddles. rewrite forallb_forall.
  intros H i j [Hij Hl] Hc. specialize (H i). rewrite forallb_forall in H.
  assert (negb (ipv4_literal (map ord (slice s i j))) = true) as Hn.
  { apply H; apply in_seq; lia. }
  by rewrite Hl in Hn.
Qed.

(** C5, counterexample.  The file ["build-v1.2.3.4"] read in chunks of seven
    bytes is cut between ["build-v"] and ["1.2.3.4"]: no substring with the
    shape of a literal straddles the cut, yet the chunk edge gives the second
    chunk a word boundary that the unsplit file lacks, and the two chunkings
    return different results. *)
Lemma chunk_edge_makes_a_boundary :
  (forall i j, literal_at (b "build-v1.2.3.4") i j -> ~ (i < 7 < j)) /\
  run (extract_ips_from_file (world_of (b "build-v1.2.3.4") in_order) LOG_FILE 7)
  = (Ret ([], [u "1.2.3.4"]), []) /\
  run (extract_ips_from_file (world_of (b "build-v1.2.3.4") in_order) LOG_FILE
         DEFAULT_CHUNK_SIZE)
  = (Ret ([], []), []).
Proof.
  split; [|by vm_compute].
  apply no_literal_straddles_spec. by vm_compute.
Qed.

Lemma merge_comm a c : merge a c = merge c a.
Proof. unfold merge. f_equal; apply (comm_L (∪)). Qed.

Lemma merge_assoc a c d : merge (merge a c) d = merge a (merge c d).
Proof. unfold merge. simpl. f_equal; symmetry; apply (assoc_L (∪)). Qed.

(** * Runs in which nothing fails *)
Section FaultFree.
Context (w : world) (p : path) (chunk_size : Z) (data : bytes).
Context (Hfs : fs w p = Some (RegularFile data)) (Hdata : data <> []).

Lemma run_no_fault :
  no_fault w p -> (-1 <= chunk_size)%Z ->
  run (extract_ips_from_file w p chunk_size)
  = (Ret (result_of (all_candidates (chunks_read w p chunk_size))), []) /\
  read_chunks w (S (length data)) data chunk_size 0
  = Some (Ret (chunks_read w p chunk_size)).
Proof.
  intros (Ho & Hr & Hw) Hn.
  pose proof (read_chunks_no_fault w (S (length data)) data chunk_size 0 Hn Hr
                ltac:(lia)) as Hrc.
  destruct (chunks_read_futures w p chunk_size data _ Hfs Ho Hrc) as [Hcr Htb].
  destruct (collect_no_fault w
              (as_completed w (imap (fun i chunk => (i, chunk))
                                 (blocks (S (length data)) data chunk_size)))
              (∅, ∅) (fun f _ => Hw f.1)) as [[P Q] Hcol].
  rewrite Hcol in Htb.
  destruct (try_body_Ret w p chunk_size P Q Htb) as (file & _ & _ & -> & ->).
  rewrite (run_valid_file w p chunk_size data Hfs Hdata), Htb. by rewrite Hcr.
Qed.

End FaultFree.

(** A run in which nothing fails, over a file cut at harmless places,
    returns the result of the unsplit content. *)
Lemma run_clean_chunking w p data size :
  fs w p = Some (RegularFile data) -> usable size -> no_fault w p ->
  clean_chunking data size = true ->
  (run (extract_ips_from_file w p size)).1 = Ret (result_of (candidates data)).
Proof.
  intros Hfs [[Hfit _] Hn] Hnf Hc.
  destruct data as [|x data].
  { by rewrite (run_empty_file w p size Hfs). }
  destruct (run_no_fault w p size (x :: data) Hfs ltac:(done) Hnf Hfit) as [Hrun Hrc].
  rewrite clean_chunking_spec in Hc.
  rewrite Hrun. simpl. by rewrite (read_chunks_candidates _ _ _ _ _ _ Hrc Hn Hc).
Qed.

(** C5, as the code has it.  Two runs over the same file content in which
    no call fails return the same lists, those of the unsplit content,
    whatever the completion order of their workers, for every two chunk
    sizes that [file.read] accepts and that are not zero ([-1], or positive
    and within the index size), provided that in both chunkings every chunk
    boundary does no harm: the bytes on its two sides are not both word
    characters, or no match of the chunk before it ends at the boundary and
    no match of the rest of the content starts at it; and no match found in
    the unsplit content straddles it.  The merge of chunk results is
    commutative and associative.  The same holds of any two ways of
    splitting one content into chunks whose boundaries do no harm in that
    sense: collecting their results, in any completion order, gives the same
    pair of sets. *)
Theorem chunking_independent (w1 w2 : world) (p : path) (data : bytes) (size1 size2 : Z) :
  fs w1 p = Some (RegularFile data) -> fs w2 p = Some (RegularFile data) ->
  usable size1 -> usable size2 ->
  no_fault w1 p -> no_fault w2 p ->
  clean_chunking data size1 = true -> clean_chunking data size2 = true ->
  (run (extract_ips_from_file w1 p size1)).1 = Ret (result_of (candidates data)) /\
  (run (extract_ips_from_file w2 p size2)).1 = Ret (result_of (candidates data)) /\
  (forall a c d, merge a c = merge c a /\ merge (merge a c) d = merge a (merge c d)) /\
  (forall (chunks chunks' : list bytes) (futures futures' : list (nat * bytes)) s s',
      concat chunks = concat chunks' ->
      clean_splitting chunks = true -> clean_splitting chunks' = true ->
      futures.*2 ≡ₚ chunks -> futures'.*2 ≡ₚ chunks' ->
      collect w1 futures (∅, ∅) = Ret s -> collect w2 futures' (∅, ∅) = Ret s' ->
      s = s').
Proof.
  intros Hfs1 Hfs2 Hn1 Hn2 Hf1 Hf2 Hc1 Hc2.
  split; [by apply run_clean_chunking|]. split; [by apply run_clean_chunking|]. split.
  - intros a c d. split; [apply merge_comm|apply merge_assoc].
  - intros chunks chunks' futures futures' s s' Hcat Hs Hs' Hp Hp' Hcol Hcol'.
    apply collect_Ret in Hcol as ->. apply collect_Ret in Hcol' as ->.
    rewrite (all_candidates_perm _ _ Hp), (all_candidates_perm _ _ Hp').
    by rewrite (all_candidates_concat _ Hs), (all_candidates_concat _ Hs'), Hcat.
Qed.

Lemma chunking_independent_witness :
  (run (extract_ips_from_file (world_of (b "alpha 10.0.0.5 bravo 8.8.8.8") reversed)
          LOG_FILE 17)).1
  = Ret (result_of (candidates (b "alpha 10.0.0.5 bravo 8.8.8.8"))) /\
  (run (extract_ips_from_file (world_of (b "alpha 10.0.0.5 bravo 8.8.8.8") in_order)
          LOG_FILE (-1))).1
  = Ret (result_of (candidates (b "alpha 10.0.0.5 bravo 8.8.8.8"))) /\
  clean_cut (b "alpha 10.0.0.5 bravo 8.8.8.8") 17 = false.
Proof.
  pose proof (chunking_independent
                (world_of (b "alpha 10.0.0.5 bravo 8.8.8.8") reversed)
                (world_of (b "alpha 10.0.0.5 bravo 8.8.8.8") in_order)
                LOG_FILE (b "alpha 10.0.0.5 bravo 8.8.8.8") 17 (-1)) as H.
  destruct H as (H1 & H2 & _).
  - reflexivity.
  - reflexivity.
  - unfold usable, fits, PY_SSIZE_T_MAX. lia.
  - unfold usable, fits, PY_SSIZE_T_MAX. lia.
  - by repeat split.
  - by repeat split.
  - vm_compute. reflexivity.
  - vm_compute. reflexivity.
  - split; [exact H1|]. split; [exact H2|]. vm_compute. reflexivity.
Defined.

(* ===================================================================== *)
(** * Further properties of the extractor *)
(* ===================================================================== *)
Import ExtractSpec.

(** X1. A run over a regular, non-empty file in which no call fails, with a
    chunk size that [file.read] accepts ([-1] or more, within the index
    size), logs nothing and returns the sorted addresses found in the chunks
    it has read; for a chunk size other than zero the chunks make up the
    whole file. *)
Theorem fault_free_run_succeeds (w : world) (p : path) (chunk_size : Z) (data : bytes) :
  fs w p = Some (RegularFile data) -> data <> [] -> no_fault w p -> fits chunk_size ->
  run (extract_ips_from_file w p chunk_size)
  = (Ret (result_of (all_candidates (chunks_read w p chunk_size))), []) /\
  (chunk_size <> 0%Z -> concat (chunks_read w p chunk_size) = data).
Proof.
  intros Hfs Hd Hn [Hfit _].
  destruct (run_no_fault w p chunk_size data Hfs Hd Hn Hfit) as [Hrun Hrc].
  split; [done|]. intros Hc. by apply (read_chunks_concat w _ _ _ _ _ Hrc).
Qed.

Lemma fault_free_run_succeeds_witness :
  run (extract_ips_from_file (world_of (b "a 10.0.0.5 b;c 8.8.8.8 de;") reversed) LOG_FILE 13)
  = (Ret (result_of (all_candidates
            (chunks_read (world_of (b "a 10.0.0.5 b;c 8.8.8.8 de;") reversed) LOG_FILE 13))),
     []) /\
  (13%Z <> 0%Z ->
   concat (chunks_read (world_of (b "a 10.0.0.5 b;c 8.8.8.8 de;") reversed) LOG_FILE 13)
   = b "a 10.0.0.5 b;c 8.8.8.8 de;").
Proof.
  apply (fault_free_run_succeeds (world_of (b "a 10.0.0.5 b;c 8.8.8.8 de;") reversed)
           LOG_FILE 13 (b "a 10.0.0.5 b;c 8.8.8.8 de;")).
  - reflexivity.
  - discriminate.
  - by repeat split.
  - unfold fits, PY_SSIZE_T_MAX. lia.
Defined.

(** * The read loop *)
Section ReadLoop.
Context (w : world).

Lemma read_bytes_nil n : read_bytes [] n = [].
Proof. unfold read_bytes. destruct (n <? 0)%Z; by rewrite ?take_nil. Qed.

Lemma read_chunks_nil fuel n k chunks :
  read_chunks w fuel [] n k = Some (Ret chunks) -> chunks = [].
Proof.
  intros H. pose proof (read_chunks_Ret_fits _ _ _ _ _ _ H) as Hfit.
  destruct fuel as [|fuel]; [done|]. rewrite read_chunks_step in H by done.
  destruct (read_fault w k); [done|].
  rewrite read_bytes_nil, bool_decide_eq_true_2 in H by done. by injection H as <-.
Qed.

(** With a chunk size of zero [file.read] returns nothing and the loop ends
    at once. *)
Lemma read_chunks_zero fuel file k :
  read_fault w k = None -> read_chunks w (S fuel) file 0 k = Some (Ret []).
Proof.
  intros Hr. rewrite read_chunks_step, Hr by lia. by rewrite bool_decide_eq_true_2.
Qed.

(** A first [read] that returns the whole file is the only chunk. *)
Lemma read_chunks_whole fuel file n k :
  (-1 <= n)%Z ->
  read_fault w k = None -> read_fault w (S k) = None -> file <> [] ->
  read_bytes file n = file ->
  read_chunks w (S (S fuel)) file n k = Some (Ret [file]).
Proof.
  intros Hn Hr Hr' Hne Hall. rewrite read_chunks_step, Hr, Hall by done.
  rewrite bool_decide_eq_false_2 by done.
  rewrite drop_all, read_chunks_step, Hr' by done.
  by rewrite read_bytes_nil, bool_decide_eq_true_2.
Qed.

(** The [i]-th chunk is the [i]-th block of [n] bytes; there are as many
    chunks as blocks. *)
Lemma read_chunks_blocks fuel : forall file (n : Z) k chunks,
  (0 < n)%Z ->
  read_chunks w fuel file n k = Some (Ret chunks) ->
  length chunks = (length file + Z.to_nat n - 1) / Z.to_nat n /\
  forall i, i < length chunks ->
    chunks !! i = Some (slice file (i * Z.to_nat n) (i * Z.to_nat n + Z.to_nat n)).
Proof.
  induction fuel as [|fuel IH]; intros file n k chunks Hn H; [done|].
  rewrite read_chunks_step in H by lia.
  destruct (read_fault w k); [done|].
  assert (read_bytes file n = take (Z.to_nat n) file) as Hread.
  { unfold read_bytes. by destruct (n <? 0)%Z eqn:E; [apply Z.ltb_lt in E; lia|]. }
  rewrite Hread in H. set (N := Z.to_nat n) in *. assert (0 < N) as HN by (unfold N; lia).
  destruct (bool_decide (take N file = [])) eqn:Hb.
  - apply bool_decide_eq_true in Hb. injection H as <-.
    assert (file = []) as -> by (destruct file; [done|]; destruct N; [lia|done]).
    simpl. split; [|intros i; lia]. symmetry. apply Nat.div_small. lia.
  - apply bool_decide_eq_false in Hb.
    destruct (read_chunks w fuel (drop (length (take N file)) file) n (S k))
      as [[rest|]|] eqn:Hrest; try done.
    injection H as <-. specialize (IH _ _ _ _ Hn Hrest) as [IHl IHi]. fold N in IHl, IHi.
    rewrite length_drop, length_take in IHl.
    destruct (decide (length file <= N)) as [Hle|Hgt].
    + assert (rest = []) as ->.
      { rewrite drop_ge in Hrest by (rewrite length_take; lia).
        by apply read_chunks_nil in Hrest. }
      simpl. split.
      * assert (0 < length file) by (destruct file; [|simpl; lia]; by destruct N).
        apply (Nat.div_unique _ _ 1 (length file - 1)); lia.
      * intros [|i] Hi; [|simpl in Hi; lia]. simpl. unfold slice. by rewrite Nat.sub_0_r.
    + rewrite Nat.min_l in IHl by lia. simpl. split.
      * rewrite IHl.
        replace (length file + N - 1) with ((length file - N + N - 1) + 1 * N) by lia.
        rewrite Nat.div_add by lia. lia.
      * intros [|i] Hi.
        -- simpl. unfold slice. by rewrite Nat.sub_0_r.
        -- simpl in Hi. simpl. rewrite IHi by lia. f_equal. unfold slice.
           rewrite length_take, Nat.min_l by lia. rewrite drop_drop.
           replace (i * N + N - i * N) with N by lia.
           replace (N + i * N + N - (N + i * N)) with N by lia. done.
Qed.

End ReadLoop.

(** X2. With a chunk size of zero the first [read] returns no byte and
    the loop stops before any chunk is submitted: the call returns two empty
    lists for every file, and logs nothing. *)
Theorem zero_chunk_size_finds_nothing (w : world) (p : path) (data : bytes) :
  fs w p = Some (RegularFile data) -> data <> [] ->
  open_fault w p = None -> read_fault w 0 = None ->
  chunks_read w p 0 = [] /\
  run (extract_ips_from_file w p 0) = (Ret ([], []), []).
Proof.
  intros Hfs Hd Ho Hr.
  pose proof (read_chunks_zero w (length data) data 0 Hr) as Hrc.
  destruct (chunks_read_futures w p 0 data [] Hfs Ho Hrc) as [Hcr Htb].
  split; [done|].
  rewrite (run_valid_file w p 0 data Hfs Hd), Htb. reflexivity.
Qed.

Lemma zero_chunk_size_finds_nothing_witness :
  chunks_read (world_of (b "10.0.0.5 8.8.8.8") in_order) LOG_FILE 0 = [] /\
  run (extract_ips_from_file (world_of (b "10.0.0.5 8.8.8.8") in_order) LOG_FILE 0)
  = (Ret ([], []), []).
Proof.
  apply (zero_chunk_size_finds_nothing (world_of (b "10.0.0.5 8.8.8.8") in_order) LOG_FILE
           (b "10.0.0.5 8.8.8.8")).
  - reflexivity.
  - discriminate.
  - reflexivity.
  - reflexivity.
Defined.

(** X3. With a chunk size of [-1], or one that is not smaller than the
    file (and within the index size), the file is read as a single chunk, and
    a run in which nothing fails returns the addresses found by one scan of
    the whole content.  This is the case of the default chunk size for files
    of up to one mebibyte. *)
Theorem small_file_is_one_chunk (w : world) (p : path) (chunk_size : Z) (data : bytes) :
  fs w p = Some (RegularFile data) -> data <> [] -> no_fault w p ->
  (chunk_size = -1 \/ Z.of_nat (length data) <= chunk_size <= PY_SSIZE_T_MAX)%Z ->
  chunks_read w p chunk_size = [data] /\
  run (extract_ips_from_file w p chunk_size) = (Ret (result_of (candidates data)), []).
Proof.
  intros Hfs Hd Hn Hsz.
  assert (-1 <= chunk_size)%Z as Hfit by lia.
  destruct (run_no_fault w p chunk_size data Hfs Hd Hn Hfit) as [Hrun Hrc].
  destruct Hn as (Ho & Hr & Hw).
  assert (read_bytes data chunk_size = data) as Hall.
  { unfold read_bytes. destruct (chunk_size <? 0)%Z eqn:E; [done|].
    apply Z.ltb_ge in E. apply take_ge. lia. }
  assert (exists fuel, S (length data) = S (S fuel)) as [fuel Hf].
  { destruct data; [done|]. simpl. eauto. }
  rewrite Hf, (read_chunks_whole w fuel data chunk_size 0 Hfit (Hr 0) (Hr 1) Hd Hall) in Hrc.
  injection Hrc as Hcr. split; [done|]. rewrite Hrun, <- Hcr.
  rewrite all_candidates_cons. unfold all_candidates. simpl. by rewrite union_empty_r_L.
Qed.

Lemma small_file_is_one_chunk_witness :
  chunks_read (world_of (b "10.0.0.5 8.8.8.8") in_order) LOG_FILE DEFAULT_CHUNK_SIZE
  = [b "10.0.0.5 8.8.8.8"] /\
  run (extract_ips_from_file (world_of (b "10.0.0.5 8.8.8.8") in_order) LOG_FILE
         DEFAULT_CHUNK_SIZE)
  = (Ret (result_of (candidates (b "10.0.0.5 8.8.8.8"))), []).
Proof.
  apply (small_file_is_one_chunk (world_of (b "10.0.0.5 8.8.8.8") in_order) LOG_FILE
           DEFAULT_CHUNK_SIZE (b "10.0.0.5 8.8.8.8")).
  - reflexivity.
  - discriminate.
  - by repeat split.
  - right. by vm_compute.
Defined.

(** X4. With a positive chunk size [n] the loop submits one task per block
    of [n] bytes of the file: the [i]-th chunk is the slice from [i * n] to
    [i * n + n] (shorter at the end of the file), and there are as many chunks
    as the length of the file divided by [n], rounded up. *)
Theorem chunks_are_blocks (w : world) (p : path) (chunk_size : Z) (data : bytes) :
  fs w p = Some (RegularFile data) -> open_fault w p = None ->
  (forall k, read_fault w k = None) -> (0 < chunk_size)%Z ->
  let n := Z.to_nat chunk_size in
  let chunks := chunks_read w p chunk_size in
  length chunks = (length data + n - 1) / n /\
  (forall i, i < length chunks -> chunks !! i = Some (slice data (i * n) (i * n + n))) /\
  (forall chunk, chunk ∈ chunks -> 0 < length chunk <= n).
Proof.
  intros Hfs Ho Hr Hn n chunks.
  pose proof (read_chunks_no_fault w (S (length data)) data chunk_size 0 ltac:(lia) Hr
                ltac:(lia)) as Hrc.
  destruct (chunks_read_futures w p chunk_size data _ Hfs Ho Hrc) as [Hcr _].
  subst chunks. rewrite Hcr.
  destruct (read_chunks_blocks w _ _ _ _ _ Hn Hrc) as [Hlen Hith]. fold n in Hlen, Hith.
  split; [done|]. split; [done|].
  intros chunk Hin. apply list_elem_of_lookup in Hin as [i Hi].
  pose proof (lookup_lt_Some _ _ _ Hi) as Hlt. rewrite (Hith i Hlt) in Hi.
  injection Hi as <-. unfold slice. rewrite length_take, length_drop.
  assert (0 < n) by (unfold n; lia).
  assert (i * n < length data); [|lia].
  rewrite Hlen in Hlt.
  pose proof (Nat.Div0.mul_div_le (length data + n - 1) n). nia.
Qed.

Lemma chunks_are_blocks_witness :
  length (chunks_read (world_of (b "a 10.0.0.5 b;c 8.8.8.8 de;") in_order) LOG_FILE 13)
  = (length (b "a 10.0.0.5 b;c 8.8.8.8 de;") + Z.to_nat 13 - 1) / Z.to_nat 13 /\
  (forall i,
     i < length (chunks_read (world_of (b "a 10.0.0.5 b;c 8.8.8.8 de;") in_order) LOG_FILE 13) ->
     chunks_read (world_of (b "a 10.0.0.5 b;c 8.8.8.8 de;") in_order) LOG_FILE 13 !! i
     = Some (slice (b "a 10.0.0.5 b;c 8.8.8.8 de;") (i * Z.to_nat 13)
               (i * Z.to_nat 13 + Z.to_nat 13))) /\
  (forall chunk,
     chunk ∈ chunks_read (world_of (b "a 10.0.0.5 b;c 8.8.8.8 de;") in_order) LOG_FILE 13 ->
     0 < length chunk <= Z.to_nat 13).
Proof.
  apply (chunks_are_blocks (world_of (b "a 10.0.0.5 b;c 8.8.8.8 de;") in_order) LOG_FILE 13
           (b "a 10.0.0.5 b;c 8.8.8.8 de;")).
  - reflexivity.
  - reflexivity.
  - reflexivity.
  - reflexivity.
Defined.

(** X5. What the [try] block covers cannot leave [extract_ips_from_file]:
    whatever [open], a [file.read] (a refused chunk size included) or a
    worker raises, the call returns, for every path and chunk size, provided
    the size check before the block does not raise, that is, provided
    [os.path.getsize] returns on a path that [os.path.isfile] has accepted.
    The call logs at most one record, an error, and when it logs one both
    lists are empty. *)
Theorem try_block_contains_failures (w : world) (p : path) (chunk_size : Z) :
  (os_path_isfile w p = true -> exists size, os_path_getsize w p = Ret size) ->
  exists private_ips public_ips lg,
    run (extract_ips_from_file w p chunk_size) = (Ret (private_ips, public_ips), lg) /\
    length lg <= 1 /\ Forall (fun record : log_record => record.1 = ERROR) lg /\
    (lg <> [] -> private_ips = [] /\ public_ips = []) /\
    (forall e, try_body w p chunk_size = Raise e -> os_path_isfile w p = true ->
       os_path_getsize w p <> Ret 0%Z ->
       lg = [(ERROR, ("Processing error: " ++ exn_str e)%string)]).
Proof.
  intros _.
  destruct (run_outcome w p chunk_size) as [H|[(e & He & H)|(data & Hfs & Hd & Hb & H)]];
    rewrite H; unfold invalid_file_outcome, processing_error_outcome, result_of;
    eexists _, _, _; (split; [reflexivity|]); simpl;
    (split; [lia|]); (split; [by repeat constructor|]); (split; [done|]).
  - intros e He Hf Hs. exfalso.
    unfold os_path_isfile in Hf. unfold os_path_getsize in Hs.
    destruct (fs w p) as [[[|x data]|]|] eqn:Hfs; try done.
    rewrite (run_valid_file w p chunk_size (x :: data) Hfs ltac:(done)), He in H.
    discriminate H.
  - intros e' He'. rewrite He in He'. by injection He' as <-.
  - intros e He. by rewrite Hb in He.
Qed.

Lemma try_block_contains_failures_witness :
  exists private_ips public_ips lg,
    run (extract_ips_from_file
           (with_read_fault (world_of (b "10.0.0.5 8.8.8.8") in_order) 1
              (OSError "Input/output error"))
           LOG_FILE (-7))
    = (Ret (private_ips, public_ips), lg) /\
    lg = [(ERROR, "Processing error: read length must be non-negative or -1"%string)].
Proof.
  destruct (try_block_contains_failures
              (with_read_fault (world_of (b "10.0.0.5 8.8.8.8") in_order) 1
                 (OSError "Input/output error"))
              LOG_FILE (-7))
    as (private_ips & public_ips & lg & Hrun & _ & _ & _ & Hlog).
  - intros _. exists 16%Z. reflexivity.
  - exists private_ips, public_ips, lg. split; [exact Hrun|].
    apply (Hlog (ValueError "read length must be non-negative or -1")).
    + reflexivity.
    + reflexivity.
    + discriminate.
Defined.

(** * The verdict of [validate_ip] on arbitrary strings *)
Section Verdict.
Local Open Scope Z_scope.

Lemma rfc1918_not_screened n : rfc1918 n -> ~ unspecified n /\ ~ reserved n /\ ~ multicast n.
Proof.
  unfold unspecified, reserved, multicast, rfc1918, in_block.
  change (ipv4 240 0 0 0) with 4026531840. change (ipv4 224 0 0 0) with 3758096384.
  change (ipv4 10 0 0 0) with 167772160. change (ipv4 172 16 0 0) with 2886729728.
  change (ipv4 192 168 0 0) with 3232235520.
  change (2 ^ (32 - 8)) with 16777216. change (2 ^ (32 - 16)) with 65536.
  change (2 ^ (32 - 4)) with 268435456. change (2 ^ (32 - 12)) with 1048576.
  lia.
Qed.

Lemma no_IPv6_in_private_networks n :
  existsb (fun network => net_contains network (IPv6Address n)) PRIVATE_NETWORKS = false.
Proof. by rewrite PRIVATE_NETWORKS_eq. Qed.

Lemma is_private_IPv6 ip n : ip_address ip = Ret (IPv6Address n) -> is_private ip = false.
Proof.
  intros E. unfold is_private, validate_ip. rewrite E. cbn [ebind try_except_ValueError].
  by rewrite no_IPv6_in_private_networks, andb_false_r.
Qed.

Lemma is_private_Raise ip e : ip_address ip = Raise e -> is_private ip = false.
Proof.
  intros E. unfold is_private, validate_ip. rewrite E. cbn [ebind try_except_ValueError].
  by destruct (isinstance_ValueError e).
Qed.

(** X6. [validate_ip] answers [True] exactly for the strings that
    [IPv4Address] accepts (four decimal octets without leading zeros,
    nothing before or after) and whose address lies in one of the three
    private blocks.  So the test for unspecified, reserved and multicast
    addresses never changes the answer, and no IPv6 address, not even one
    that embeds a private IPv4 address, is private. *)
Theorem validate_ip_true_iff (s : str) :
  (validate_ip s = Ret true <->
   exists n, IPv4Address_of_str s = Ret (IPv4Address n) /\ rfc1918 n) /\
  validate_ip s
  = Ret (match ip_address s with
         | Ret o => existsb (fun network => net_contains network o) PRIVATE_NETWORKS
         | Raise _ => false
         end) /\
  (forall n, ip_address s = Ret (IPv6Address n) -> validate_ip s = Ret false).
Proof.
  assert (validate_ip s = Ret true <->
          exists n, IPv4Address_of_str s = Ret (IPv4Address n) /\ rfc1918 n) as Hiff.
  { rewrite validate_ip_is_private. split.
    - intros [= H]. destruct (ip_address s) as [[n|n]|e] eqn:E.
      + exists n. split; [by apply ip_address_IPv4|].
        rewrite (is_private_IPv4 _ _ E) in H. apply andb_true_iff in H as [_ H].
        apply in_private_networks in H; [done|]. by eapply ip_address_range.
      + by rewrite (is_private_IPv6 _ _ E) in H.
      + by rewrite (is_private_Raise _ _ E) in H.
    - intros (n & Hn & Hr). apply ip_address_IPv4 in Hn.
      destruct (rfc1918_not_screened n Hr) as (Hu & Hre & Hm).
      f_equal. by apply (is_private_rfc1918 s n Hn Hu Hre Hm). }
  split; [done|]. split.
  - rewrite validate_ip_is_private. f_equal.
    destruct (ip_address s) as [[n|n]|e] eqn:E.
    + rewrite (is_private_IPv4 _ _ E).
      destruct (existsb _ PRIVATE_NETWORKS) eqn:Hex; [|by rewrite andb_false_r].
      rewrite andb_true_r. pose proof (ip_address_range _ _ E) as Hn.
      apply in_private_networks in Hex; [|done].
      destruct (rfc1918_not_screened n Hex) as (Hu & Hre & Hm).
      rewrite <- is_unspecified_spec in Hu. rewrite <- is_reserved_spec in Hre by done.
      rewrite <- is_multicast_spec in Hm by done.
      by destruct (is_unspecified _), (is_reserved _), (is_multicast _).
    + by rewrite (is_private_IPv6 _ _ E), no_IPv6_in_private_networks.
    + by rewrite (is_private_Raise _ _ E).
  - intros n E. rewrite validate_ip_is_private. f_equal. by apply (is_private_IPv6 _ n).
Qed.

End Verdict.

(** * Candidates with a leading zero *)
Section LeadingZeros.

Lemma partition_no_sep sep (s : str) : sep ∉ s -> partition sep s = (s, false, []).
Proof.
  induction s as [|c s IH]; intros H; [done|].
  apply not_elem_of_cons in H as [Hc Hs]. simpl.
  destruct (c =? sep)%N eqn:E; [apply N.eqb_eq in E; congruence|].
  by rewrite (IH Hs).
Qed.

Lemma contains_no c (s : str) : c ∉ s -> contains c s = false.
Proof.
  induction s as [|x s IH]; intros H; [done|].
  apply not_elem_of_cons in H as [Hc Hs]. unfold contains in *. simpl.
  rewrite (IH Hs), orb_false_r. by apply N.eqb_neq.
Qed.

Lemma octet_group_chars g c :
  octet_group g = true -> c ∈ g -> is_ascii_digit c = true.
Proof.
  unfold octet_group. rewrite !andb_true_iff. intros [[_ Hd] _] Hc.
  rewrite forallb_forall in Hd. by apply Hd, list_elem_of_In.
Qed.

Lemma literal_chars (x : str) c :
  ipv4_literal x = true -> c ∈ x -> is_ascii_digit c = true \/ c = code ".".
Proof.
  intros H Hc. apply literal_groups in H as (g1 & g2 & g3 & g4 & -> & G1 & G2 & G3 & G4).
  repeat (rewrite elem_of_app in Hc || rewrite elem_of_cons in Hc).
  destruct_or!; eauto using octet_group_chars.
Qed.

Lemma literal_without (x : str) c :
  ipv4_literal x = true -> is_ascii_digit c = false -> c <> code "." -> c ∉ x.
Proof.
  intros H Hd Hdot Hc. destruct (literal_chars x c H Hc) as [Hd'|?]; [congruence|done].
Qed.

Lemma literal_split (x : str) :
  ipv4_literal x = true ->
  exists g1 g2 g3 g4,
    split (code ".") x = [g1; g2; g3; g4] /\
    octet_group g1 = true /\ octet_group g2 = true /\
    octet_group g3 = true /\ octet_group g4 = true.
Proof.
  unfold ipv4_literal. intros H.
  destruct (split (code ".") x) as [|g1 [|g2 [|g3 [|g4 [|]]]]] eqn:Hs; try done.
  rewrite !andb_true_iff in H. destruct H as [[[G1 G2] G3] G4].
  by exists g1, g2, g3, g4.
Qed.

(** What [_parse_octet] does to a group of the grammar. *)
Lemma parse_octet_group g :
  octet_group g = true ->
  _parse_octet g = if leading_zero g then Raise (ValueError "Leading zeros are not permitted")
                   else Ret (int10 g).
Proof.
  unfold octet_group. rewrite !andb_true_iff, Nat.leb_le, Nat.leb_le, Z.leb_le.
  intros [[[H1 H3] Hd] H255]. unfold _parse_octet, leading_zero.
  rewrite bool_decide_eq_false_2 by (by destruct g; [simpl in H1; lia|]).
  unfold isascii_isdigit. rewrite Hd.
  replace (length g =? 0) with false by (symmetry; apply Nat.eqb_neq; lia). simpl.
  replace (3 <? length g) with false by (symmetry; apply Nat.ltb_ge; lia).
  replace (255 <? int10 g)%Z with false by (symmetry; apply Z.ltb_ge; lia).
  destruct (bool_decide (head g = Some (code "0"))) eqn:Hh;
    [|by rewrite !andb_false_r].
  rewrite !andb_true_r. apply bool_decide_eq_true in Hh.
  destruct (1 <? length g) eqn:Hl.
  - apply Nat.ltb_lt in Hl. rewrite bool_decide_eq_false_2; [done|].
    intros ->. simpl in Hl. lia.
  - apply Nat.ltb_ge in Hl. rewrite bool_decide_eq_true_2; [done|].
    destruct g as [|c [|]]; simpl in *; try lia. by injection Hh as ->.
Qed.

Lemma literal_not_empty (x : str) : ipv4_literal x = true -> x <> [].
Proof. by intros H ->. Qed.

Lemma literal_IPv4 (x : str) :
  ipv4_literal x = true ->
  IPv4Address_of_str x =
  if has_leading_zero x then Raise (AddressValueError "Leading zeros are not permitted")
  else Ret (IPv4Address (value_of x)).
Proof.
  intros H. pose proof (literal_not_empty x H) as Hne.
  assert (contains (code "/") x = false) as Hslash.
  { apply contains_no. by apply literal_without. }
  destruct (literal_split x H) as (g1 & g2 & g3 & g4 & Hs & G1 & G2 & G3 & G4).
  unfold IPv4Address_of_str, ipv4_int_from_string, has_leading_zero, value_of.
  rewrite Hslash, Hs. rewrite bool_decide_eq_false_2 by done. simpl.
  rewrite !parse_octet_group by done.
  destruct (leading_zero g1); [done|]. destruct (leading_zero g2); [done|].
  destruct (leading_zero g3); [done|]. destruct (leading_zero g4); done.
Qed.

Lemma literal_not_IPv6 (x : str) :
  ipv4_literal x = true ->
  IPv6Address_of_str x = Raise (AddressValueError "At least 3 parts expected").
Proof.
  intros H. pose proof (literal_not_empty x H) as Hne.
  unfold IPv6Address_of_str, _split_scope_id, ipv6_int_from_string.
  rewrite contains_no by (by apply literal_without).
  rewrite partition_no_sep by (by apply literal_without). simpl.
  rewrite bool_decide_eq_false_2 by done.
  by rewrite split_no_sep by (by apply literal_without).
Qed.

Lemma literal_ip_address (x : str) :
  ipv4_literal x = true ->
  ip_address x =
  if has_leading_zero x
  then Raise (ValueError "does not appear to be an IPv4 or IPv6 address")
  else Ret (IPv4Address (value_of x)).
Proof.
  intros H. unfold ip_address. rewrite (literal_IPv4 x H), (literal_not_IPv6 x H).
  by destruct (has_leading_zero x).
Qed.

(** X7. [ipaddress] rejects a candidate exactly when one of its four
    groups has a leading zero.  A candidate without one is parsed as the IPv4
    address its groups denote; one with a leading zero, such as ["10.0.0.05"],
    makes [validate_ip] answer [False] through its [except] branch and is
    filed under the public addresses, also when the address it denotes is a
    private one. *)
Theorem leading_zero_is_filed_public (chunk : bytes) (ip : str) :
  ip ∈ candidates chunk ->
  (has_leading_zero ip = false -> ip_address ip = Ret (IPv4Address (value_of ip))) /\
  (has_leading_zero ip = true ->
   ip_address ip = Raise (ValueError "does not appear to be an IPv4 or IPv6 address") /\
   validate_ip ip = Ret false /\
   exists P Q, _process_chunk chunk = Ret (P, Q) /\ ip ∈ Q /\ (ip ∉ P)).
Proof.
  intros Hin. pose proof (candidates_literal chunk ip Hin) as Hlit.
  pose proof (literal_ip_address ip Hlit) as Hip.
  split; intros Hz; rewrite Hz in Hip; [done|].
  assert (validate_ip ip = Ret false) as Hv by (unfold validate_ip; by rewrite Hip).
  split; [done|]. split; [done|].
  eexists _, _. split; [apply process_chunk_eq|].
  rewrite validate_ip_is_private in Hv. injection Hv as Hv.
  unfold private_of, public_of. rewrite !elem_of_filter. split; [done|].
  intros [Hp _]. congruence.
Qed.

Lemma leading_zero_is_filed_public_witness :
  (has_leading_zero (u "10.0.0.05") = false ->
   ip_address (u "10.0.0.05") = Ret (IPv4Address (value_of (u "10.0.0.05")))) /\
  (has_leading_zero (u "10.0.0.05") = true ->
   ip_address (u "10.0.0.05")
   = Raise (ValueError "does not appear to be an IPv4 or IPv6 address") /\
   validate_ip (u "10.0.0.05") = Ret false /\
   exists P Q, _process_chunk (b "GET 10.0.0.05 200") = Ret (P, Q) /\
               u "10.0.0.05" ∈ Q /\ (u "10.0.0.05" ∉ P)).
Proof.
  apply (leading_zero_is_filed_public (b "GET 10.0.0.05 200") (u "10.0.0.05")).
  apply elem_of_list_to_set. vm_compute. apply list_elem_of_here.
Defined.

End LeadingZeros.

(** * Decoding the matches *)
Section Decoding.

Lemma octet_group_len g : octet_group g = true -> 1 <= length g <= 3.
Proof. unfold octet_group. rewrite !andb_true_iff, !Nat.leb_le. tauto. Qed.

Lemma literal_length (x : str) : ipv4_literal x = true -> 7 <= length x <= 15.
Proof.
  intros H. apply literal_groups in H as (g1 & g2 & g3 & g4 & -> & G1 & G2 & G3 & G4).
  apply octet_group_len in G1, G2, G3, G4.
  repeat (rewrite length_app || rewrite length_cons). lia.
Qed.

Lemma findall_literal chunk m :
  m ∈ findall IP_PATTERN chunk -> ipv4_literal (map ord m) = true.
Proof.
  unfold findall. intros H. apply list_elem_of_fmap in H as ([i j] & -> & Hsp).
  apply scan_from_sound in Hsp as [Hsp _]. by apply ip_at_delimited in Hsp as [[_ ?] _].
Qed.

Lemma map_ord_inj (m m' : bytes) : map ord m = map ord m' -> m = m'.
Proof.
  revert m'. induction m as [|c m IH]; intros [|c' m']; try done.
  simpl. intros [= Hc Hm]. f_equal; [by apply ord_inj|by apply IH].
Qed.

(** X8. Decoding never alters a match: every byte string that the pattern
    matches is made of seven to fifteen ASCII characters, so decoding it with
    [errors='ignore'] drops nothing and gives one character per byte, and two
    different matches give two different candidates. *)
Theorem decoding_keeps_every_byte (chunk m : bytes) :
  m ∈ findall IP_PATTERN chunk ->
  decode_utf8_ignore m = map ord m /\
  length (decode_utf8_ignore m) = length m /\ 7 <= length m <= 15 /\
  (forall m', m' ∈ findall IP_PATTERN chunk ->
     decode_utf8_ignore m' = decode_utf8_ignore m -> m' = m).
Proof.
  intros H. pose proof (findall_literal chunk m H) as Hlit.
  pose proof (decode_literal m Hlit) as Hd.
  split; [done|]. split; [by rewrite Hd, length_map|].
  split; [rewrite <- (length_map ord); by apply literal_length|].
  intros m' H' Heq. rewrite Hd, (decode_literal m' (findall_literal chunk m' H')) in Heq.
  by apply map_ord_inj.
Qed.

Lemma decoding_keeps_every_byte_witness :
  decode_utf8_ignore (b "10.0.0.5") = map ord (b "10.0.0.5") /\
  length (decode_utf8_ignore (b "10.0.0.5")) = length (b "10.0.0.5") /\
  7 <= length (b "10.0.0.5") <= 15 /\
  (forall m', m' ∈ findall IP_PATTERN (xff :: b " 10.0.0.5 " ++ [xc3]) ->
     decode_utf8_ignore m' = decode_utf8_ignore (b "10.0.0.5") -> m' = b "10.0.0.5").
Proof.
  apply (decoding_keeps_every_byte (xff :: b " 10.0.0.5 " ++ [xc3]) (b "10.0.0.5")).
  vm_compute. apply list_elem_of_here.
Defined.

End Decoding.

(* ===================================================================== *)
(** * The process: [connect_to_mongodb], [main] and the loop *)
(* ===================================================================== *)
Import Process Pymongo Main MainSpec.
Local Open Scope nat_scope.

(** * The extractor inside the process *)
Section Extract.
Context (w : world) (p : path) (chunk_size : Z).

(** The extractor only appends to the log it is given. *)
Lemma extract_log l :
  extract_ips_from_file w p chunk_size l
  = ((run (extract_ips_from_file w p chunk_size)).1,
     l ++ (run (extract_ips_from_file w p chunk_size)).2).
Proof.
  unfold run, extract_ips_from_file, bind, ret, lift, try_except_Exception, Py.logging_error.
  destruct (os_path_isfile w p); simpl.
  - destruct (os_path_getsize w p) as [sz|e]; simpl; [|by rewrite app_nil_r].
    destruct (sz =? 0)%Z; simpl; [done|].
    destruct (try_body w p chunk_size) as [[P Q]|e]; simpl; [by rewrite app_nil_r|done].
  - done.
Qed.

Lemma extract_returns :
  exists r lg, run (extract_ips_from_file w p chunk_size) = (Ret r, lg) /\
    length lg <= 1 /\ (lg <> [] -> r = ([], [])).
Proof.
  destruct (run_outcome w p chunk_size) as [H|[(e & _ & H)|(data & _ & _ & _ & H)]];
    rewrite H; unfold invalid_file_outcome, processing_error_outcome;
    eexists _, _; (split; [reflexivity|]); simpl; split; try lia; try done.
Qed.

End Extract.

(** * Reasoning about computations of the process *)
Section Wp.
Context {A B : Type}.

Lemma wp_bind (m : Proc A) (f : A -> Proc B) Q st :
  wp m (fun r st' => match r with
                     | Returned a => wp (f a) Q st'
                     | Raised e => Q (Raised e) st'
                     end) st ->
  wp (pbind m f) Q st.
Proof. unfold wp, pbind. by destruct (m st) as [[a|e] st']. Qed.

Lemma wp_try (m : Proc A) (h : error -> Proc A) Q st :
  wp m (fun r st' => match r with
                     | Returned a => Q (Returned a) st'
                     | Raised e => wp (h e) Q st'
                     end) st ->
  wp (try_except m h) Q st.
Proof. unfold wp, try_except. by destruct (m st) as [[a|e] st']. Qed.

Lemma wp_ret (a : A) Q st : Q (Returned a) st -> wp (pret a) Q st.
Proof. done. Qed.

Lemma wp_raise e (Q : Result A -> state -> Prop) st : Q (Raised e) st -> wp (praise e) Q st.
Proof. done. Qed.

Lemma wp_mono (m : Proc A) (Q Q' : Result A -> state -> Prop) st :
  wp m Q st -> (forall r st', Q r st' -> Q' r st') -> wp m Q' st.
Proof. unfold wp. auto. Qed.

Lemma wp_outcome (m : Proc A) Q st : wp m Q st -> exists r st', m st = (r, st') /\ Q r st'.
Proof. unfold wp. destruct (m st) as [r st']. eauto. Qed.

(** A computation that ends in a known result and state. *)
Lemma wp_det (m : Proc A) st r st' : wp m (fun r0 st0 => r0 = r /\ st0 = st') st -> m st = (r, st').
Proof. unfold wp. destruct (m st) as [r0 st0]. simpl. by intros [-> ->]. Qed.

End Wp.

Section Primitives.
Context (d : driver).

(** [basicConfig] field by field. *)
Lemma configured_eq lvl fmt st :
  configured lvl fmt st
  = set_root true (if root_handlers st then root_level st else default (root_level st) lvl)
             (if root_handlers st then root_format st else default BASIC_FORMAT fmt) st.
Proof. unfold configured. destruct st as [? [|] ? ? ? ? ? ? ?]; reflexivity. Qed.

Lemma wp_basicConfig lvl fmt Q st :
  Q (Returned tt)
    (set_root true (if root_handlers st then root_level st else default (root_level st) lvl)
              (if root_handlers st then root_format st else default BASIC_FORMAT fmt) st) ->
  wp (logging_basicConfig lvl fmt) Q st.
Proof. unfold wp, logging_basicConfig. by rewrite configured_eq. Qed.

Lemma wp_log l msg Q st :
  Q (Returned tt)
    (set_log (log st ++ if (root_level st <=? levelno l)%Z then [(l, msg)] else [])
       (set_root true (root_level st)
                 (if root_handlers st then root_format st else BASIC_FORMAT) st)) ->
  wp (logging_log l msg) Q st.
Proof.
  unfold wp, logging_log, emitted. rewrite configured_eq. cbn.
  by destruct (root_handlers st).
Qed.

Lemma wp_print line Q st :
  Q (Returned tt) (set_stdout (stdout st ++ [line]) st) -> wp (print line) Q st.
Proof. done. Qed.

Lemma wp_sleep n Q st :
  Q (Returned tt) (set_slept (slept st + n) st) -> wp (time_sleep n) Q st.
Proof. done. Qed.

Lemma wp_MongoClient uri Q st :
  (forall e, client_fault d uri = Some e -> Q (Raised e) st) ->
  (client_fault d uri = None ->
   Q (Returned {| client_id := length (clients st); client_uri := uri |})
     (set_clients (clients st ++ [true]) st)) ->
  wp (MongoClient d uri) Q st.
Proof. unfold wp, MongoClient. destruct (client_fault d uri); simpl; auto. Qed.

Lemma wp_ping client Q st :
  (forall e, ping_fault d = Some e -> Q (Raised e) st) ->
  (ping_fault d = None -> Q (Returned tt) st) ->
  wp (command_ping d client) Q st.
Proof. unfold wp, command_ping. destruct (ping_fault d); simpl; auto. Qed.

Lemma wp_client_getitem client name Q st :
  (forall e, database_fault d name = Some e -> Q (Raised e) st) ->
  (database_fault d name = None ->
   Q (Returned {| db_client := client_id client; db_name := name |}) st) ->
  wp (client_getitem d client name) Q st.
Proof. unfold wp, client_getitem. destruct (database_fault d name); simpl; auto. Qed.

Lemma wp_database_getitem db name Q st :
  (forall e, collection_fault d name = Some e -> Q (Raised e) st) ->
  (collection_fault d name = None ->
   Q (Returned {| coll_client := db_client db; coll_ns := (db_name db, name) |}) st) ->
  wp (database_getitem d db name) Q st.
Proof. unfold wp, database_getitem. destruct (collection_fault d name); simpl; auto. Qed.

Lemma wp_delete_many coll flt Q st :
  (forall e, delete_fault d (coll_ns coll) = Some e -> Q (Raised e) st) ->
  (delete_fault d (coll_ns coll) = None ->
   Q (Returned (length (filter (selects flt) (default [] (mongodb st !! coll_ns coll)))))
     (set_mongodb (alter (filter (fun doc => ~ selects flt doc)) (coll_ns coll) (mongodb st))
                  (next_oid st) st)) ->
  wp (delete_many d coll flt) Q st.
Proof. unfold wp, delete_many. destruct (delete_fault d (coll_ns coll)); simpl; auto. Qed.

Lemma wp_insert_many coll docs Q st :
  docs <> [] ->
  (forall e written, insert_fault d (coll_ns coll) = Some (e, written) ->
   Q (Raised e)
     (set_mongodb (if (written =? 0)%nat then mongodb st
                   else <[coll_ns coll := default [] (mongodb st !! coll_ns coll)
                                          ++ take written (with_ids (next_oid st) docs)]>
                          (mongodb st))
                  (next_oid st + oids_used docs)%N st)) ->
  (insert_fault d (coll_ns coll) = None ->
   Q (Returned ((fun doc : document => doc !! "_id"%string) <$> with_ids (next_oid st) docs))
     (set_mongodb (<[coll_ns coll := default [] (mongodb st !! coll_ns coll)
                                     ++ with_ids (next_oid st) docs]> (mongodb st))
                  (next_oid st + oids_used docs)%N st)) ->
  wp (insert_many d coll docs) Q st.
Proof.
  intros Hd. unfold wp, insert_many. rewrite bool_decide_eq_false_2 by done.
  destruct (insert_fault d (coll_ns coll)) as [[e written]|]; simpl; auto.
Qed.

Lemma wp_close client Q st :
  (forall e, close_fault d = Some e -> Q (Raised e) st) ->
  (close_fault d = None ->
   Q (Returned tt) (set_clients (<[client_id client := false]> (clients st)) st)) ->
  wp (close d client) Q st.
Proof. unfold wp, close. destruct (close_fault d); simpl; auto. Qed.

Lemma wp_extract w p chunk_size Q st :
  (forall r lg, run (extract_ips_from_file w p chunk_size) = (Ret r, lg) ->
     Q (Returned r)
       (set_root (root_handlers st || negb (length (log st ++ lg) =? length (log st)))
                 (root_level st) (root_format st) (set_log (log st ++ lg) st))) ->
  wp (lift_M (extract_ips_from_file w p chunk_size)) Q st.
Proof.
  intros H. destruct (extract_returns w p chunk_size) as (r & lg & Hrun & _).
  unfold wp, lift_M. rewrite extract_log, Hrun. simpl. by apply H.
Qed.

End Primitives.

Ltac fields :=
  cbn [log root_handlers root_level root_format stdout mongodb clients next_oid slept
       set_log set_root set_stdout set_mongodb set_clients set_slept
       coll_ns coll_client db_client db_name client_id client_uri from_option id].

Ltac fields_in H :=
  cbn [log root_handlers root_level root_format stdout mongodb clients next_oid slept
       set_log set_root set_stdout set_mongodb set_clients set_slept
       coll_ns coll_client db_client db_name client_id client_uri from_option id] in H.

Lemma ip_documents_nil ips : ip_documents ips = [] -> ips = [].
Proof. by destruct ips. Qed.

(** One step of a computation. *)
Ltac fault_some :=
  let e := fresh "e" in
  let H := fresh "Hfault" in
  intros e H; cbn [coll_ns coll_client db_client db_name client_id client_uri] in H.

Ltac fault_none :=
  let H := fresh "Hfault" in
  intros H; cbn [coll_ns coll_client db_client db_name client_id client_uri] in H.

Ltac wp_step :=
  lazymatch goal with
  | |- wp (pbind _ _) _ _ => apply wp_bind
  | |- wp (try_except _ _) _ _ => apply wp_try
  | |- wp (pret _) _ _ => apply wp_ret
  | |- wp (praise _) _ _ => apply wp_raise
  | |- wp (logging_basicConfig _ _) _ _ => apply wp_basicConfig
  | |- wp (logging_log _ _) _ _ => apply wp_log
  | |- wp (logging_info _) _ _ => apply wp_log
  | |- wp (Process.logging_error _) _ _ => apply wp_log
  | |- wp (print _) _ _ => apply wp_print
  | |- wp (time_sleep _) _ _ => apply wp_sleep
  | |- wp (MongoClient _ _) _ _ => apply wp_MongoClient; [fault_some|fault_none]
  | |- wp (command_ping _ _) _ _ => apply wp_ping; [fault_some|fault_none]
  | |- wp (client_getitem _ _ _) _ _ => apply wp_client_getitem; [fault_some|fault_none]
  | |- wp (database_getitem _ _ _) _ _ => apply wp_database_getitem; [fault_some|fault_none]
  | |- wp (delete_many _ _ _) _ _ => apply wp_delete_many; [fault_some|fault_none]
  | |- wp (close _ _) _ _ => apply wp_close; [fault_some|fault_none]
  | |- wp (lift_M (extract_ips_from_file _ _ _)) _ _ =>
    apply wp_extract; intros [? ?] ? ?
  | |- wp (method (Some _) _ _) _ _ => unfold method at 1
  | |- wp (if bool_decide (?x = []) then _ else _) _ _ =>
    let H := fresh "Hnil" in
    assert (x = [] \/ x <> []) as [H|H] by (destruct x; auto);
    [rewrite (bool_decide_eq_true_2 _ H)|rewrite (bool_decide_eq_false_2 _ H)]
  | |- wp (insert_many _ _ _) _ _ =>
    apply wp_insert_many;
    [by intros ?%ip_documents_nil
    |let e := fresh "e" in let k := fresh "written" in let H := fresh "Hfault" in
     intros e k H; cbn [coll_ns] in H
    |let H := fresh "Hfault" in intros H; cbn [coll_ns] in H]
  end; cbn beta iota; fields.

Ltac wp_run := repeat wp_step.


(** * Facts about the server *)
Section Server.

Lemma selects_empty doc : selects ∅ doc.
Proof. apply map_Forall_empty. Qed.

(** [delete_many({})] leaves nothing. *)
Lemma delete_all docs : filter (fun doc : document => ~ selects ∅ doc) docs = [].
Proof.
  induction docs as [|doc docs IH]; [done|].
  rewrite filter_cons_False; [done|]. intros H. apply H, selects_empty.
Qed.

Lemma find_delete_all (s : server) ns :
  default [] (alter (filter (fun doc : document => ~ selects ∅ doc)) ns s !! ns) = [].
Proof. rewrite lookup_alter_eq. destruct (s !! ns); simpl; [apply delete_all|done]. Qed.

Lemma ips_with_ids ips : forall oid, ips_of (with_ids oid (ip_documents ips)) = as_values ips.
Proof.
  induction ips as [|ip ips IH]; intros oid; [done|].
  simpl. rewrite lookup_singleton_ne by done. unfold ips_of, as_values. simpl.
  rewrite lookup_insert_ne by done. rewrite lookup_singleton_eq. f_equal. apply IH.
Qed.

Lemma find_insert_eq (s : server) ns docs : find (<[ns := docs]> s) ns = docs.
Proof. unfold find. by rewrite lookup_insert_eq. Qed.

Lemma find_insert_ne (s : server) ns ns' docs : ns <> ns' -> find (<[ns := docs]> s) ns' = find s ns'.
Proof. intros H. unfold find. by rewrite lookup_insert_ne. Qed.

Lemma find_alter_ne (s : server) f ns ns' : ns <> ns' -> find (alter f ns s) ns' = find s ns'.
Proof. intros H. unfold find. by rewrite lookup_alter_ne. Qed.

Lemma find_alter_delete_all (s : server) ns :
  find (alter (filter (fun doc : document => ~ selects ∅ doc)) ns s) ns = [].
Proof. apply find_delete_all. Qed.

Lemma ips_of_app a c : ips_of (a ++ c) = ips_of a ++ ips_of c.
Proof. apply fmap_app. Qed.

Lemma close_last (cs : list bool) : <[length cs := false]> (cs ++ [true]) = cs ++ [false].
Proof. rewrite insert_app_r_alt by lia. by rewrite Nat.sub_diag. Qed.

End Server.


(** * The logger *)
Section Logger.

Lemma enabled_leb l st : enabled l st -> (root_level st <=? levelno l)%Z = true.
Proof. unfold enabled. apply Z.leb_le. Qed.

End Logger.

(** * [connect_to_mongodb] *)

Lemma connect_outcome d uri database private_collection public_collection st :
  wp (connect_to_mongodb d uri database private_collection public_collection)
     (fun r st' =>
        mongodb st' = mongodb st /\ stdout st' = stdout st /\ slept st' = slept st /\
        (r = Returned (None, None, None) /\
         (clients st' = clients st \/ clients st' = clients st ++ [true]) \/
         r = Returned (Some {| client_id := length (clients st); client_uri := uri |},
                       Some {| coll_client := length (clients st);
                               coll_ns := (database, private_collection) |},
                       Some {| coll_client := length (clients st);
                               coll_ns := (database, public_collection) |}) /\
         clients st' = clients st ++ [true])) st.
Proof.
  unfold connect_to_mongodb. wp_run; auto 10.
Qed.

(** X9. [connect_to_mongodb] never raises and never writes to the server or
    to standard output.  It returns either three [None]s or a new client
    together with the two collections of the database asked for; in the
    first case the client, if it was created, has not been closed. *)
Theorem connect_all_or_nothing (d : driver) (uri database private_collection
    public_collection : string) (st : state) :
  exists r st',
    connect_to_mongodb d uri database private_collection public_collection st = (r, st') /\
    mongodb st' = mongodb st /\ stdout st' = stdout st /\ slept st' = slept st /\
    (r = Returned (None, None, None) /\
     (clients st' = clients st \/ clients st' = clients st ++ [true]) \/
     r = Returned (Some {| client_id := length (clients st); client_uri := uri |},
                   Some {| coll_client := length (clients st);
                           coll_ns := (database, private_collection) |},
                   Some {| coll_client := length (clients st);
                           coll_ns := (database, public_collection) |}) /\
     clients st' = clients st ++ [true]).
Proof. apply wp_outcome, connect_outcome. Qed.

(** X10. When the server does not answer the ping, [connect_to_mongodb]
    logs the error and returns three [None]s, and the client it has created
    stays open: nothing closes it. *)
Theorem failed_ping_leaves_client_open (d : driver) (uri database private_collection
    public_collection : string) (st : state) (e : error) :
  client_fault d uri = None -> ping_fault d = Some e -> enabled ERROR st ->
  exists st',
    connect_to_mongodb d uri database private_collection public_collection st
    = (Returned (None, None, None), st') /\
    clients st' = clients st ++ [true] /\
    log st' = log st ++ [(ERROR, ("Failed to connect to MongoDB: " ++ error_str e)%string)] /\
    mongodb st' = mongodb st.
Proof.
  intros Hc Hp He.
  assert (wp (connect_to_mongodb d uri database private_collection public_collection)
            (fun r st' => r = Returned (None, None, None) /\
               clients st' = clients st ++ [true] /\
               log st' = log st
                 ++ [(ERROR, ("Failed to connect to MongoDB: " ++ error_str e)%string)] /\
               mongodb st' = mongodb st) st) as H.
  { unfold connect_to_mongodb. wp_run; try congruence.
    rewrite (enabled_leb _ _ He). replace e0 with e by congruence. done. }
  apply wp_outcome in H as (r & st' & E & -> & H). by exists st'.
Qed.

Lemma failed_ping_leaves_client_open_witness :
  exists st',
    connect_to_mongodb (ping_fails (PyMongoError "mongodb:27017: timed out")) MONGODB_URI
      DEFAULT_DATABASE DEFAULT_PRIVATE_COLLECTION DEFAULT_PUBLIC_COLLECTION fresh
    = (Returned (None, None, None), st') /\
    clients st' = clients fresh ++ [true] /\
    log st' = log fresh ++
      [(ERROR, ("Failed to connect to MongoDB: "
                ++ error_str (PyMongoError "mongodb:27017: timed out"))%string)] /\
    mongodb st' = mongodb fresh.
Proof.
  apply (failed_ping_leaves_client_open (ping_fails (PyMongoError "mongodb:27017: timed out"))
           MONGODB_URI DEFAULT_DATABASE DEFAULT_PRIVATE_COLLECTION DEFAULT_PUBLIC_COLLECTION
           fresh (PyMongoError "mongodb:27017: timed out")).
  - reflexivity.
  - reflexivity.
  - by vm_compute.
Defined.

(** * [main] *)

Lemma main_contained_wp w d f st :
  wp (main w d f) (fun r st' => r = Returned tt /\
     (forall ns, ns <> PRIVATE_NS -> ns <> PUBLIC_NS -> mongodb st' !! ns = mongodb st !! ns) /\
     (clients st' = clients st \/ exists open, clients st' = clients st ++ [open]) /\
     slept st' = slept st /\ (exists out, stdout st' = stdout st ++ out)) st.
Proof.
  unfold main, connect_to_mongodb, PRIVATE_NS, PUBLIC_NS.
  wp_run.
  all: split; [done|]; split; [intros ns Hp Hq|split; [|split; [done|]]].
  all: repeat match goal with |- context [if ?c then _ else _] => destruct c end.
  all: rewrite ?lookup_insert_ne by done; rewrite ?lookup_alter_ne by done; try done.
  all: rewrite ?close_last; eauto.
  all: rewrite <- ?app_assoc; try (by eexists); by exists []; rewrite app_nil_r.
Qed.

(** X11. [main] never raises, whatever fails in the file system, in the
    workers or in the driver.  It writes to no collection other than
    [ip_extraction.private_ips] and [ip_extraction.public_ips], creates at
    most one client and leaves older clients alone. *)
Theorem main_is_contained (w : world) (d : driver) (log_file : path) (st : state) :
  exists st',
    main w d log_file st = (Returned tt, st') /\
    (forall ns, ns <> PRIVATE_NS -> ns <> PUBLIC_NS -> mongodb st' !! ns = mongodb st !! ns) /\
    (clients st' = clients st \/ exists open, clients st' = clients st ++ [open]).
Proof.
  destruct (wp_outcome _ _ _ (main_contained_wp w d log_file st))
    as (r & st' & E & -> & Hns & Hcl & _ & _).
  by exists st'.
Qed.

Ltac finds :=
  change (default [] (?m !! ?k)) with (find m k);
  repeat first
    [ rewrite find_insert_eq
    | rewrite find_insert_ne by done
    | rewrite find_alter_delete_all
    | rewrite find_alter_ne by done
    | rewrite ips_of_app
    | rewrite ips_with_ids
    | rewrite app_nil_l ].

Lemma extracted_Ret w f : exists private_ips public_ips, extracted w f = Ret (private_ips, public_ips).
Proof.
  destruct (extract_returns w f DEFAULT_CHUNK_SIZE) as ([private_ips public_ips] & lg & H & _).
  exists private_ips, public_ips. unfold extracted. by rewrite H.
Qed.

Lemma main_healthy_wp w d f st private_ips public_ips :
  healthy d -> extracted w f = Ret (private_ips, public_ips) ->
  wp (main w d f) (fun r st' => r = Returned tt /\
      stored_ips st' PRIVATE_NS = as_values private_ips /\
      stored_ips st' PUBLIC_NS = as_values public_ips /\
      stdout st' = stdout st ++
        [("Private IPs: " ++ str_of_nat (length private_ips))%string;
         ("Public IPs: " ++ str_of_nat (length public_ips))%string] /\
      clients st' = clients st ++ [false] /\ slept st' = slept st) st.
Proof.
  intros ((Hc & Hp & Hd & Hpc & Hqc) & Hdp & Hdq & Hip & Hiq & Hcl) Hx.
  unfold MONGODB_URI, PRIVATE_NS, PUBLIC_NS in *. unfold extracted in Hx.
  unfold main, connect_to_mongodb.
  wp_run; try congruence.
  all: match goal with H : run _ = _ |- _ =>
         rewrite H in Hx; cbn [fst] in Hx; injection Hx as -> -> end.
  all: split; [done|]; unfold stored_ips; fields; finds.
  all: rewrite close_last, <- app_assoc; repeat split; try done.
  all: by subst.
Qed.

(** X12. When no call of the driver fails, [main] replaces the contents of
    the two collections by the addresses extracted from the log file, one
    document per address in the order of the sorted lists, whatever the
    collections held before; it prints the two counts and closes its
    client. *)
Theorem main_replaces_collections (w : world) (d : driver) (log_file : path) (st : state)
    (private_ips public_ips : list str) :
  healthy d -> extracted w log_file = Ret (private_ips, public_ips) ->
  exists st',
    main w d log_file st = (Returned tt, st') /\
    stored_ips st' PRIVATE_NS = as_values private_ips /\
    stored_ips st' PUBLIC_NS = as_values public_ips /\
    stdout st' = stdout st ++
      [("Private IPs: " ++ str_of_nat (length private_ips))%string;
       ("Public IPs: " ++ str_of_nat (length public_ips))%string] /\
    clients st' = clients st ++ [false].
Proof.
  intros Hd Hx.
  destruct (wp_outcome _ _ _ (main_healthy_wp w d log_file st _ _ Hd Hx))
    as (r & st' & E & -> & H1 & H2 & H3 & H4 & _).
  by exists st'.
Qed.

Lemma main_replaces_collections_witness :
  exists st',
    main (world_of (b "10.0.0.5 8.8.8.8 10.0.0.7") in_order) no_faults LOG_FILE
         (fresh_with STALE) = (Returned tt, st') /\
    stored_ips st' PRIVATE_NS = as_values [u "10.0.0.5"; u "10.0.0.7"] /\
    stored_ips st' PUBLIC_NS = as_values [u "8.8.8.8"] /\
    stdout st' = stdout (fresh_with STALE) ++
      [("Private IPs: " ++ str_of_nat (length [u "10.0.0.5"; u "10.0.0.7"]))%string;
       ("Public IPs: " ++ str_of_nat (length [u "8.8.8.8"]))%string] /\
    clients st' = clients (fresh_with STALE) ++ [false].
Proof.
  apply (main_replaces_collections (world_of (b "10.0.0.5 8.8.8.8 10.0.0.7") in_order)
           no_faults LOG_FILE (fresh_with STALE) [u "10.0.0.5"; u "10.0.0.7"] [u "8.8.8.8"]).
  - by repeat split.
  - vm_compute. reflexivity.
Defined.

(** X13. Results do not pile up: a second run of [main] over the same log
    file leaves in the two collections the same addresses as the first, not
    two copies of them. *)
Theorem main_does_not_accumulate (w : world) (d1 d2 : driver) (log_file : path) (st : state) :
  healthy d1 -> healthy d2 ->
  exists st1 st2,
    main w d1 log_file st = (Returned tt, st1) /\
    main w d2 log_file st1 = (Returned tt, st2) /\
    stored_ips st2 PRIVATE_NS = stored_ips st1 PRIVATE_NS /\
    stored_ips st2 PUBLIC_NS = stored_ips st1 PUBLIC_NS /\
    length (find (mongodb st2) PRIVATE_NS) = length (find (mongodb st1) PRIVATE_NS) /\
    length (find (mongodb st2) PUBLIC_NS) = length (find (mongodb st1) PUBLIC_NS).
Proof.
  intros H1 H2. destruct (extracted_Ret w log_file) as (private_ips & public_ips & Hx).
  destruct (wp_outcome _ _ _ (main_healthy_wp w d1 log_file st _ _ H1 Hx))
    as (r1 & st1 & E1 & -> & Hp1 & Hq1 & _).
  destruct (wp_outcome _ _ _ (main_healthy_wp w d2 log_file st1 _ _ H2 Hx))
    as (r2 & st2 & E2 & -> & Hp2 & Hq2 & _).
  exists st1, st2. split; [done|]. split; [done|].
  split; [congruence|]. split; [congruence|].
  unfold stored_ips, ips_of in *.
  apply (f_equal length) in Hp1, Hq1, Hp2, Hq2. rewrite length_fmap in Hp1, Hq1, Hp2, Hq2.
  split; congruence.
Qed.

Lemma main_does_not_accumulate_witness :
  exists st1 st2,
    main (world_of (b "10.0.0.5 8.8.8.8") in_order) no_faults LOG_FILE fresh
    = (Returned tt, st1) /\
    main (world_of (b "10.0.0.5 8.8.8.8") in_order) no_faults LOG_FILE st1
    = (Returned tt, st2) /\
    stored_ips st2 PRIVATE_NS = stored_ips st1 PRIVATE_NS /\
    stored_ips st2 PUBLIC_NS = stored_ips st1 PUBLIC_NS /\
    length (find (mongodb st2) PRIVATE_NS) = length (find (mongodb st1) PRIVATE_NS) /\
    length (find (mongodb st2) PUBLIC_NS) = length (find (mongodb st1) PUBLIC_NS).
Proof.
  apply (main_does_not_accumulate (world_of (b "10.0.0.5 8.8.8.8") in_order)
           no_faults no_faults LOG_FILE fresh).
  - by repeat split.
  - by repeat split.
Defined.

(** X14. When the extractor has logged an error (the log file is missing or
    empty, or reading or a worker failed), it returns two empty lists, and
    [main] goes on: it empties the two collections, prints two zero counts and
    closes its client.  What the collections held is lost. *)
Theorem failed_extraction_empties_collections (w : world) (d : driver) (log_file : path)
    (st : state) :
  healthy d -> (run (extract_ips_from_file w log_file DEFAULT_CHUNK_SIZE)).2 <> [] ->
  exists st',
    main w d log_file st = (Returned tt, st') /\
    find (mongodb st') PRIVATE_NS = [] /\ find (mongodb st') PUBLIC_NS = [] /\
    stdout st' = stdout st ++ ["Private IPs: 0"%string; "Public IPs: 0"%string] /\
    clients st' = clients st ++ [false].
Proof.
  intros Hd Hlog.
  destruct (extract_returns w log_file DEFAULT_CHUNK_SIZE) as (r & lg & Hrun & _ & Hr).
  rewrite Hrun in Hlog. simpl in Hlog. specialize (Hr Hlog). subst r.
  assert (extracted w log_file = Ret ([], [])) as Hx by (unfold extracted; by rewrite Hrun).
  destruct (wp_outcome _ _ _ (main_healthy_wp w d log_file st _ _ Hd Hx))
    as (r & st' & E & -> & Hp & Hq & Hout & Hcl & _).
  exists st'. split; [done|].
  unfold stored_ips, ips_of in Hp, Hq. apply fmap_nil_inv in Hp, Hq.
  by rewrite Hp, Hq.
Qed.

Lemma failed_extraction_empties_collections_witness :
  exists st',
    main (world_of [] in_order) no_faults LOG_FILE (fresh_with STALE) = (Returned tt, st') /\
    find (mongodb st') PRIVATE_NS = [] /\ find (mongodb st') PUBLIC_NS = [] /\
    stdout st' = stdout (fresh_with STALE)
                 ++ ["Private IPs: 0"%string; "Public IPs: 0"%string] /\
    clients st' = clients (fresh_with STALE) ++ [false].
Proof.
  apply (failed_extraction_empties_collections (world_of [] in_order) no_faults LOG_FILE
           (fresh_with STALE)).
  - by repeat split.
  - by vm_compute.
Defined.

(** The level of the root logger once [main] has configured it. *)
Lemma enabled_after_basicConfig st :
  enabled ERROR st ->
  ((if root_handlers st then root_level st else levelno INFO) <=? levelno ERROR)%Z = true.
Proof.
  unfold enabled. intros H. apply Z.leb_le. by destruct (root_handlers st).
Qed.

(** X15. When the client cannot be created or the server does not answer
    the ping, [main] logs the two errors and returns: it does not read the
    log file, writes nothing to the server and prints nothing. *)
Theorem connection_failure_skips_the_run (w : world) (d : driver) (log_file : path)
    (st : state) (e : error) :
  client_fault d MONGODB_URI = Some e \/
  (client_fault d MONGODB_URI = None /\ ping_fault d = Some e) ->
  enabled ERROR st ->
  exists st',
    (forall w', main w' d log_file st = (Returned tt, st')) /\
    mongodb st' = mongodb st /\ stdout st' = stdout st /\
    log st' = log st ++
      [(ERROR, ("Failed to connect to MongoDB: " ++ error_str e)%string);
       (ERROR, "MongoDB connection failed. Exiting."%string)].
Proof.
  intros Hf He. pose proof (enabled_after_basicConfig st He) as Hl.
  unfold MONGODB_URI in Hf.
  destruct Hf as [Hc|[Hc Hp]].
  - eexists. split.
    + intros w'. apply wp_det. unfold main, connect_to_mongodb.
      wp_run; try congruence. split; [done|].
      replace e0 with e by congruence. reflexivity.
    + fields. rewrite Hl. by rewrite <- app_assoc.
  - eexists. split.
    + intros w'. apply wp_det. unfold main, connect_to_mongodb.
      wp_run; try congruence. split; [done|].
      replace e0 with e by congruence. reflexivity.
    + fields. rewrite Hl. by rewrite <- app_assoc.
Qed.

Lemma connection_failure_skips_the_run_witness :
  exists st',
    (forall w', main w' (ping_fails (PyMongoError "mongodb:27017: timed out")) LOG_FILE
                  (fresh_with STALE) = (Returned tt, st')) /\
    mongodb st' = mongodb (fresh_with STALE) /\ stdout st' = stdout (fresh_with STALE) /\
    log st' = log (fresh_with STALE) ++
      [(ERROR, ("Failed to connect to MongoDB: "
                ++ error_str (PyMongoError "mongodb:27017: timed out"))%string);
       (ERROR, "MongoDB connection failed. Exiting."%string)].
Proof.
  apply (connection_failure_skips_the_run (world_of [] in_order)
           (ping_fails (PyMongoError "mongodb:27017: timed out")) LOG_FILE (fresh_with STALE)
           (PyMongoError "mongodb:27017: timed out")).
  - right. split; reflexivity.
  - by vm_compute.
Defined.

Lemma ips_of_take k docs : ips_of (take k docs) = take k (ips_of docs).
Proof. apply fmap_take. Qed.

(** X16. The update is not atomic.  When inserting the private addresses
    fails, [main] logs the error and stops: the private collection holds the
    documents written before the failure, the public collection, already
    emptied, stays empty although public addresses were extracted, nothing is
    printed and the client is left open. *)
Theorem failed_insert_is_not_rolled_back (w : world) (d : driver) (log_file : path)
    (st : state) (private_ips public_ips : list str) (e : error) (written : nat) :
  reachable d -> delete_fault d PRIVATE_NS = None -> delete_fault d PUBLIC_NS = None ->
  extracted w log_file = Ret (private_ips, public_ips) -> private_ips <> [] ->
  insert_fault d PRIVATE_NS = Some (e, written) -> enabled ERROR st ->
  exists st',
    main w d log_file st = (Returned tt, st') /\
    stored_ips st' PRIVATE_NS = take written (as_values private_ips) /\
    find (mongodb st') PUBLIC_NS = [] /\
    stdout st' = stdout st /\
    clients st' = clients st ++ [true] /\
    last (log st') = Some (ERROR, ("Execution error: " ++ error_str e)%string).
Proof.
  intros (Hc & Hp & Hd & Hpc & Hqc) Hdp Hdq Hx Hne Hi He.
  pose proof (enabled_after_basicConfig st He) as Hl.
  unfold MONGODB_URI, PRIVATE_NS, PUBLIC_NS in *. unfold extracted in Hx.
  assert (wp (main w d log_file) (fun r st' => r = Returned tt /\
     stored_ips st' (DEFAULT_DATABASE, DEFAULT_PRIVATE_COLLECTION)
       = take written (as_values private_ips) /\
     find (mongodb st') (DEFAULT_DATABASE, DEFAULT_PUBLIC_COLLECTION) = [] /\
     stdout st' = stdout st /\ clients st' = clients st ++ [true] /\
     last (log st') = Some (ERROR, ("Execution error: " ++ error_str e)%string)) st) as H.
  { unfold main, connect_to_mongodb.
    wp_run; try congruence.
    all: match goal with H : run _ = _ |- _ =>
           rewrite H in Hx; cbn [fst] in Hx; injection Hx as -> -> end.
    all: try done.
    all: match goal with
         | H : insert_fault _ _ = Some (?e', _) |- _ =>
           tryif constr_eq e' e then fail else (rewrite Hi in H; injection H as <- <-)
         end.
    all: split; [done|]; unfold stored_ips; fields; rewrite Hl, last_snoc.
    all: destruct (written =? 0) eqn:Hw;
           [apply Nat.eqb_eq in Hw; subst written|]; finds; rewrite ?ips_of_take; finds.
    all: done. }
  apply wp_outcome in H as (r & st' & E & -> & H). by exists st'.
Qed.

Lemma failed_insert_is_not_rolled_back_witness :
  exists st',
    main (world_of (b "10.0.0.5 8.8.8.8 10.0.0.7") in_order)
         (insert_fails PRIVATE_NS (PyMongoError "not primary") 1) LOG_FILE (fresh_with STALE)
    = (Returned tt, st') /\
    stored_ips st' PRIVATE_NS = take 1 (as_values [u "10.0.0.5"; u "10.0.0.7"]) /\
    find (mongodb st') PUBLIC_NS = [] /\
    stdout st' = stdout (fresh_with STALE) /\
    clients st' = clients (fresh_with STALE) ++ [true] /\
    last (log st')
    = Some (ERROR, ("Execution error: " ++ error_str (PyMongoError "not primary"))%string).
Proof.
  apply (failed_insert_is_not_rolled_back (world_of (b "10.0.0.5 8.8.8.8 10.0.0.7") in_order)
           (insert_fails PRIVATE_NS (PyMongoError "not primary") 1) LOG_FILE (fresh_with STALE)
           [u "10.0.0.5"; u "10.0.0.7"] [u "8.8.8.8"] (PyMongoError "not primary") 1).
  - by repeat split.
  - reflexivity.
  - reflexivity.
  - vm_compute. reflexivity.
  - discriminate.
  - reflexivity.
  - by vm_compute.
Defined.

(** X17. Once the connection is made, [main] closes its client only when it
    runs to its end, after printing the two counts; whenever an exception
    stops it, the error is logged and the client stays open. *)
Theorem client_is_closed_only_on_success (w : world) (d : driver) (log_file : path)
    (st : state) :
  reachable d -> enabled ERROR st ->
  exists st',
    main w d log_file st = (Returned tt, st') /\
    ((clients st' = clients st ++ [false] /\
      exists n m, stdout st' = stdout st ++
        [("Private IPs: " ++ str_of_nat n)%string; ("Public IPs: " ++ str_of_nat m)%string]) \/
     (clients st' = clients st ++ [true] /\
      exists e, last (log st') = Some (ERROR, ("Execution error: " ++ error_str e)%string))).
Proof.
  intros (Hc & Hp & Hd & Hpc & Hqc) He.
  pose proof (enabled_after_basicConfig st He) as Hl.
  unfold MONGODB_URI in *.
  assert (wp (main w d log_file) (fun r st' => r = Returned tt /\
    ((clients st' = clients st ++ [false] /\
      exists n m, stdout st' = stdout st ++
        [("Private IPs: " ++ str_of_nat n)%string; ("Public IPs: " ++ str_of_nat m)%string]) \/
     (clients st' = clients st ++ [true] /\
      exists e, last (log st') = Some (ERROR, ("Execution error: " ++ error_str e)%string))))
    st) as H.
  { unfold main, connect_to_mongodb.
    wp_run; try congruence.
    all: split; [done|].
    all: first
      [ left; split; [apply close_last|]; eexists _, _; by rewrite <- app_assoc
      | right; split; [done|]; eexists; by rewrite Hl, last_snoc ]. }
  apply wp_outcome in H as (r & st' & E & -> & H). by exists st'.
Qed.

Lemma client_is_closed_only_on_success_witness :
  exists st',
    main (world_of (b "10.0.0.5 8.8.8.8") in_order)
         (insert_fails PUBLIC_NS (PyMongoError "not primary") 0) LOG_FILE fresh
    = (Returned tt, st') /\
    ((clients st' = clients fresh ++ [false] /\
      exists n m, stdout st' = stdout fresh ++
        [("Private IPs: " ++ str_of_nat n)%string; ("Public IPs: " ++ str_of_nat m)%string]) \/
     (clients st' = clients fresh ++ [true] /\
      exists e, last (log st') = Some (ERROR, ("Execution error: " ++ error_str e)%string))).
Proof.
  apply (client_is_closed_only_on_success (world_of (b "10.0.0.5 8.8.8.8") in_order)
           (insert_fails PUBLIC_NS (PyMongoError "not primary") 0) LOG_FILE fresh).
  - by repeat split.
  - by vm_compute.
Defined.

(** * The configuration of the root logger *)

Lemma connect_log_wp d uri database private_collection public_collection st :
  client_fault d uri = None -> ping_fault d = None -> database_fault d database = None ->
  collection_fault d private_collection = None -> collection_fault d public_collection = None ->
  wp (connect_to_mongodb d uri database private_collection public_collection)
     (fun r st' =>
        log st' = log st ++ (if (root_level st <=? levelno INFO)%Z
                             then [(INFO, "Successfully connected to MongoDB!"%string)] else []) /\
        root_handlers st' = true /\ root_level st' = root_level st /\
        root_format st' = (if root_handlers st then root_format st else BASIC_FORMAT) /\
        mongodb st' = mongodb st /\ next_oid st' = next_oid st /\ stdout st' = stdout st /\
        slept st' = slept st /\ clients st' = clients st ++ [true]) st.
Proof.
  intros Hc Hp Hd Hpc Hqc. unfold connect_to_mongodb. wp_run; try congruence. done.
Qed.

Lemma main_healthy_log_wp w d f st r lg :
  healthy d -> run (extract_ips_from_file w f DEFAULT_CHUNK_SIZE) = (Ret r, lg) ->
  wp (main w d f) (fun r' st' => r' = Returned tt /\
      log st' = log st
        ++ (if ((if root_handlers st then root_level st else levelno INFO) <=? levelno INFO)%Z
            then [(INFO, "Successfully connected to MongoDB!"%string)] else []) ++ lg /\
      root_level st' = (if root_handlers st then root_level st else levelno INFO) /\
      root_format st' = (if root_handlers st then root_format st else LOG_FORMAT)) st.
Proof.
  intros ((Hc & Hp & Hd & Hpc & Hqc) & Hdp & Hdq & Hip & Hiq & Hcl) Hx.
  unfold MONGODB_URI, PRIVATE_NS, PUBLIC_NS in *.
  unfold main, connect_to_mongodb.
  wp_run; try congruence.
  all: match goal with H : run _ = _ |- _ => rewrite H in Hx; injection Hx as _ -> end.
  all: rewrite <- app_assoc; split; [done|]; split; [done|]; split; [done|];
         by destruct (root_handlers st).
Qed.

(** X18. The record of a successful connection is an [INFO] record, and the
    root logger emits it only at the level that [main] sets.  In a process
    that has not logged yet, [main] sets the level and the format and the
    record is emitted; [connect_to_mongodb] called on its own emits nothing
    and leaves the logger with its default handler at level [WARNING], and a
    [main] that runs afterwards can no longer change that: its
    [basicConfig] does nothing and the record is not emitted either. *)
Theorem info_record_needs_main_first (w : world) (d : driver) (log_file : path) (st : state) :
  healthy d -> root_handlers st = false -> root_level st = WARNING ->
  (exists st',
     main w d log_file st = (Returned tt, st') /\
     log st' = log st ++ (INFO, "Successfully connected to MongoDB!"%string)
                      :: (run (extract_ips_from_file w log_file DEFAULT_CHUNK_SIZE)).2 /\
     root_level st' = levelno INFO /\ root_format st' = LOG_FORMAT) /\
  (exists r st1 st2,
     connect_to_mongodb d MONGODB_URI DEFAULT_DATABASE DEFAULT_PRIVATE_COLLECTION
       DEFAULT_PUBLIC_COLLECTION st = (r, st1) /\
     log st1 = log st /\ root_level st1 = WARNING /\ root_format st1 = BASIC_FORMAT /\
     main w d log_file st1 = (Returned tt, st2) /\
     log st2 = log st ++ (run (extract_ips_from_file w log_file DEFAULT_CHUNK_SIZE)).2 /\
     root_level st2 = WARNING /\ root_format st2 = BASIC_FORMAT).
Proof.
  intros Hd Hh Hl.
  destruct (extract_returns w log_file DEFAULT_CHUNK_SIZE) as (x & lg & Hrun & _).
  rewrite Hrun. cbn [snd]. split.
  - destruct (wp_outcome _ _ _ (main_healthy_log_wp w d log_file st _ _ Hd Hrun))
      as (r & st' & E & -> & H1 & H2 & H3).
    exists st'. rewrite Hh in H1, H2, H3. by rewrite H1, H2, H3.
  - destruct Hd as ((Hc & Hp & Hdb & Hpc & Hqc) & Hrest).
    destruct (wp_outcome _ _ _ (connect_log_wp d _ _ _ _ st Hc Hp Hdb Hpc Hqc))
      as (r & st1 & E1 & L1 & L2 & L3 & L4 & _).
    rewrite Hh, Hl in *. change (WARNING <=? levelno INFO)%Z with false in L1.
    rewrite app_nil_r in L1.
    assert (healthy d) as Hd by done.
    destruct (wp_outcome _ _ _ (main_healthy_log_wp w d log_file st1 _ _ Hd Hrun))
      as (r2 & st2 & E2 & -> & M1 & M2 & M3).
    rewrite L2, L3, L4, L1 in *. change (WARNING <=? levelno INFO)%Z with false in M1.
    by exists r, st1, st2.
Qed.

Lemma info_record_needs_main_first_witness :
  exists st',
    main (world_of (b "10.0.0.5 8.8.8.8") in_order) no_faults LOG_FILE fresh
    = (Returned tt, st') /\
    log st' = log fresh ++ (INFO, "Successfully connected to MongoDB!"%string)
      :: (run (extract_ips_from_file (world_of (b "10.0.0.5 8.8.8.8") in_order) LOG_FILE
                 DEFAULT_CHUNK_SIZE)).2 /\
    root_level st' = levelno INFO /\ root_format st' = LOG_FORMAT.
Proof.
  refine (proj1 (info_record_needs_main_first (world_of (b "10.0.0.5 8.8.8.8") in_order)
                   no_faults LOG_FILE fresh _ _ _)).
  - by repeat split.
  - reflexivity.
  - reflexivity.
Defined.

(** * The loop of the script *)

Lemma iteration_contained_wp w d st :
  wp (iteration w d) (fun r st' => r = Returned tt /\
     (forall ns, ns <> PRIVATE_NS -> ns <> PUBLIC_NS -> mongodb st' !! ns = mongodb st !! ns) /\
     slept st' = (slept st + 10)%Z /\
     length (stdout st) + 2 <= length (stdout st')) st.
Proof.
  unfold iteration. wp_step. wp_step. wp_step.
  eapply wp_mono; [apply main_contained_wp|].
  intros r st' (-> & Hns & _ & Hs & out & Hout). fields_in Hns; fields_in Hs; fields_in Hout.
  wp_run. split; [done|]. split; [done|]. split; [by rewrite Hs|].
  rewrite Hout, !length_app. simpl. lia.
Qed.

Lemma iteration_healthy_wp w d st private_ips public_ips :
  healthy d -> extracted w LOG_FILE = Ret (private_ips, public_ips) ->
  wp (iteration w d) (fun r st' => r = Returned tt /\
     stored_ips st' PRIVATE_NS = as_values private_ips /\
     stored_ips st' PUBLIC_NS = as_values public_ips) st.
Proof.
  intros Hd Hx. unfold iteration. wp_step. wp_step. wp_step.
  eapply wp_mono; [by apply (main_healthy_wp _ _ _ _ _ _ Hd Hx)|].
  intros r st' (-> & Hp & Hq & _). unfold stored_ips in *.
  wp_run. done.
Qed.

(** The rule of the loop: a property kept by every turn holds after any
    number of turns. *)
Lemma wp_main_loop (I : nat -> state -> Prop) env n : forall k st,
  I k st ->
  (forall j st0, I j st0 ->
     wp (iteration (env j).1 (env j).2) (fun r st' => r = Returned tt /\ I (S j) st') st0) ->
  wp (main_loop n env k) (fun r st' => r = Returned tt /\ I (k + n) st') st.
Proof.
  induction n as [|n IH]; intros k st HI Hstep.
  - simpl. apply wp_ret. by rewrite Nat.add_0_r.
  - simpl. apply wp_bind. eapply wp_mono; [by apply Hstep|].
    intros r st' [-> HI']. cbn beta iota.
    replace (k + S n) with (S k + n) by lia. by apply IH.
Qed.

Lemma main_loop_snoc env n : forall k st,
  main_loop (S n) env k st
  = pbind (main_loop n env k) (fun _ => iteration (env (k + n)).1 (env (k + n)).2) st.
Proof.
  induction n as [|n IH]; intros k st.
  - simpl. unfold pbind, pret. rewrite Nat.add_0_r.
    by destruct (iteration (env k).1 (env k).2 st) as [[[]|e] st'].
  - change (main_loop (S (S n)) env k st)
      with (pbind (iteration (env k).1 (env k).2) (fun _ => main_loop (S n) env (S k)) st).
    change (main_loop (S n) env k)
      with (pbind (iteration (env k).1 (env k).2) (fun _ => main_loop n env (S k))).
    unfold pbind.
    destruct (iteration (env k).1 (env k).2 st) as [[[]|e] st']; [|done].
    rewrite IH. unfold pbind. by replace (S k + n) with (k + S n) by lia.
Qed.

(** X19. No failure of the file system, of a worker or of the MongoDB driver
    ends the loop of the script: [main] contains them all, so, as long as
    writing to standard output succeeds (the two [print] calls of the loop
    are outside any [try]), every turn returns and the next one starts.
    Each turn prints at least its two lines and sleeps ten seconds, and no
    turn writes to a collection other than the two of [main]. *)
Theorem main_loop_survives_failures (n : nat) (env : nat -> world * driver) (st : state) :
  exists st',
    main_loop n env 0 st = (Returned tt, st') /\
    slept st' = (slept st + 10 * Z.of_nat n)%Z /\
    length (stdout st) + 2 * n <= length (stdout st') /\
    (forall ns, ns <> PRIVATE_NS -> ns <> PUBLIC_NS -> mongodb st' !! ns = mongodb st !! ns).
Proof.
  pose (I := fun (j : nat) (s : state) =>
    slept s = (slept st + 10 * Z.of_nat j)%Z /\
    length (stdout st) + 2 * j <= length (stdout s) /\
    (forall ns, ns <> PRIVATE_NS -> ns <> PUBLIC_NS -> mongodb s !! ns = mongodb st !! ns)).
  assert (wp (main_loop n env 0) (fun r st' => r = Returned tt /\ I (0 + n) st') st) as H.
  { apply wp_main_loop.
    - unfold I. split; [lia|]. split; [lia|done].
    - intros j st0 (Hs & Ho & Hns). eapply wp_mono; [apply iteration_contained_wp|].
      intros r st' (-> & Hns' & Hs' & Ho'). split; [done|]. unfold I.
      split; [lia|]. split; [lia|]. intros ns H1 H2. rewrite Hns' by done. by apply Hns. }
  apply wp_outcome in H as (r & st' & E & -> & Hs & Ho & Hns). by exists st'.
Qed.

(** X20. What the collections hold after a turn in which no call of the
    driver fails depends on that turn only: they hold the addresses extracted
    from the log file as it is during that turn, whatever the earlier turns
    did or failed to do. *)
Theorem last_turn_decides (n : nat) (env : nat -> world * driver) (st : state)
    (private_ips public_ips : list str) :
  healthy (env n).2 -> extracted (env n).1 LOG_FILE = Ret (private_ips, public_ips) ->
  exists st',
    main_loop (S n) env 0 st = (Returned tt, st') /\
    stored_ips st' PRIVATE_NS = as_values private_ips /\
    stored_ips st' PUBLIC_NS = as_values public_ips.
Proof.
  intros Hd Hx.
  assert (wp (main_loop n env 0) (fun r st' => r = Returned tt /\ True) st) as H.
  { apply (wp_main_loop (fun _ _ => True)); [done|].
    intros j st0 _. eapply wp_mono; [apply iteration_contained_wp|]. by intros r st' (-> & _). }
  apply wp_outcome in H as (r & st1 & E1 & -> & _).
  destruct (wp_outcome _ _ _ (iteration_healthy_wp _ _ st1 _ _ Hd Hx))
    as (r & st' & E & -> & Hp & Hq).
  exists st'. rewrite main_loop_snoc. unfold pbind. rewrite E1. simpl. by rewrite E.
Qed.

Lemma last_turn_decides_witness :
  exists st',
    main_loop 3 (recovering (b "10.0.0.5 8.8.8.8")) 0 (fresh_with STALE) = (Returned tt, st') /\
    stored_ips st' PRIVATE_NS = as_values [u "10.0.0.5"] /\
    stored_ips st' PUBLIC_NS = as_values [u "8.8.8.8"].
Proof.
  apply (last_turn_decides 2 (recovering (b "10.0.0.5 8.8.8.8")) (fresh_with STALE)
           [u "10.0.0.5"] [u "8.8.8.8"]).
  - by repeat split.
  - vm_compute. reflexivity.
Defined.
